(** * keyway-mcp: the [keyway_inject_run] tool

    A shallow embedding of [src/tools/inject-run.ts]: the JavaScript string
    primitives the tool relies on, its two output passes ([truncateOutput],
    [maskSecrets]) and the control flow of [injectRun], and of the client
    of the vault behind its [pullSecrets] ([src/utils/api.ts]), followed by
    the properties of the tool that the specification states and by further
    properties of both files. *)

From Stdlib Require Import String Ascii.
From Stdlib Require Import List NArith ZArith Lia Bool Permutation.
From Stdlib Require QArith_base DecimalString.
Import ListNotations.

Local Open Scope list_scope.

(** ** JavaScript strings *)

Module JS.

(** A JavaScript string is a sequence of UTF-16 code units. *)
Definition jsstring : Type := list N.

(** An ASCII literal of the source, as code units. *)
Definition lit (s : string) : jsstring :=
  map N_of_ascii (list_ascii_of_string s).

Fixpoint eqb (a b : jsstring) : bool :=
  match a, b with
  | [], [] => true
  | x :: a', y :: b' => N.eqb x y && eqb a' b'
  | _, _ => false
  end.

(** [s.startsWith(p)] *)
Fixpoint startsWith (s p : jsstring) {struct p} : bool :=
  match p with
  | [] => true
  | x :: p' =>
      match s with
      | [] => false
      | y :: s' => N.eqb x y && startsWith s' p'
      end
  end.

(** The first occurrence of [p] in [s] (what [StringIndexOf] locates), as
    the text before it and the text after it. *)
Fixpoint find (s p : jsstring) : option (jsstring * jsstring) :=
  if startsWith s p then Some ([], skipn (length p) s)
  else
    match s with
    | [] => None
    | c :: s' =>
        match find s' p with
        | Some (b, a) => Some (c :: b, a)
        | None => None
        end
    end.

(** [s.includes(p)] *)
Definition includes (s p : jsstring) : bool :=
  match find s p with Some _ => true | None => false end.

(** The search loop of [String.prototype.replaceAll] for a non-empty search
    string: each round locates the next occurrence at or after the end of
    the previous one.  Every round consumes at least one code unit, so
    [length s] rounds are enough. *)
Fixpoint replaceAll_from (rounds : nat) (s p r : jsstring) : jsstring :=
  match rounds with
  | O => s
  | S n =>
      match find s p with
      | None => s
      | Some (b, a) => b ++ r ++ replaceAll_from n a p r
      end
  end.

(** [s.replaceAll(p, r)] for a replacement [r] without [$] patterns.  An
    empty search string matches before every code unit and at the end. *)
Definition replaceAll (s p r : jsstring) : jsstring :=
  match p with
  | [] => r ++ flat_map (fun c => c :: r) s
  | _ :: _ => replaceAll_from (length s) s p r
  end.

(** [s.slice(0, -n)] *)
Definition slice_to_minus (s : jsstring) (n : nat) : jsstring :=
  firstn (length s - n) s.

(** *** Surrogates and UTF-8 *)

Definition is_high (c : N) : bool := (0xD800 <=? c)%N && (c <=? 0xDBFF)%N.
Definition is_low (c : N) : bool := (0xDC00 <=? c)%N && (c <=? 0xDFFF)%N.

(** The code point of a surrogate pair. *)
Definition pair_cp (hi lo : N) : N :=
  (0x10000 + (hi - 0xD800) * 0x400 + (lo - 0xDC00))%N.

(** The UTF-8 bytes of one code point. *)
Definition utf8_of_cp (cp : N) : list N :=
  if (cp <? 0x80)%N then [cp]
  else if (cp <? 0x800)%N then
    [N.lor 0xC0 (N.shiftr cp 6); N.lor 0x80 (N.land cp 0x3F)]
  else if (cp <? 0x10000)%N then
    [N.lor 0xE0 (N.shiftr cp 12);
     N.lor 0x80 (N.land (N.shiftr cp 6) 0x3F);
     N.lor 0x80 (N.land cp 0x3F)]
  else
    [N.lor 0xF0 (N.land (N.shiftr cp 18) 0x07);
     N.lor 0x80 (N.land (N.shiftr cp 12) 0x3F);
     N.lor 0x80 (N.land (N.shiftr cp 6) 0x3F);
     N.lor 0x80 (N.land cp 0x3F)].

(** [Buffer.from(s, 'utf8')]: a surrogate pair is one code point, a lone
    surrogate is written as U+FFFD. *)
Fixpoint utf8_encode (s : jsstring) : list N :=
  match s with
  | [] => []
  | c :: s' =>
      if is_high c then
        match s' with
        | d :: s'' =>
            if is_low d then utf8_of_cp (pair_cp c d) ++ utf8_encode s''
            else utf8_of_cp 0xFFFD ++ utf8_encode s'
        | [] => utf8_of_cp 0xFFFD
        end
      else if is_low c then utf8_of_cp 0xFFFD ++ utf8_encode s'
      else utf8_of_cp c ++ utf8_encode s'
  end.

(** [Buffer.byteLength(s, 'utf8')] *)
Definition byteLength (s : jsstring) : Z :=
  Z.of_nat (length (utf8_encode s)).

(** [s.isWellFormed()]: no lone surrogate. *)
Fixpoint isWellFormed (s : jsstring) : bool :=
  match s with
  | [] => true
  | c :: s' =>
      if is_high c then
        match s' with
        | d :: s'' => is_low d && isWellFormed s''
        | [] => false
        end
      else if is_low c then false
      else isWellFormed s'
  end.

(** *** Base64 *)

Definition b64_alphabet : jsstring :=
  lit "ABCDEFGHIJKLMNOPQRSTUVWXYZabcdefghijklmnopqrstuvwxyz0123456789+/".

Definition b64_pad : N := 61.

Definition b64_char (i : N) : N :=
  nth (N.to_nat (N.land i 0x3F)) b64_alphabet b64_pad.

(** [buf.toString('base64')] *)
Fixpoint base64 (bs : list N) : jsstring :=
  match bs with
  | [] => []
  | [a] =>
      [b64_char (N.shiftr a 2);
       b64_char (N.shiftl (N.land a 3) 4);
       b64_pad; b64_pad]
  | [a; b] =>
      [b64_char (N.shiftr a 2);
       b64_char (N.lor (N.shiftl (N.land a 3) 4) (N.shiftr b 4));
       b64_char (N.shiftl (N.land b 15) 2);
       b64_pad]
  | a :: b :: c :: rest =>
      b64_char (N.shiftr a 2)
      :: b64_char (N.lor (N.shiftl (N.land a 3) 4) (N.shiftr b 4))
      :: b64_char (N.lor (N.shiftl (N.land b 15) 2) (N.shiftr c 6))
      :: b64_char (N.land c 63)
      :: base64 rest
  end.

(** *** encodeURIComponent *)

Definition in_range (lo hi c : N) : bool := (lo <=? c)%N && (c <=? hi)%N.

(** The characters [encodeURIComponent] leaves as they are:
    letters, digits and [- _ . ! ~ * ' ( )]. *)
Definition uri_unescaped (c : N) : bool :=
  in_range 65 90 c || in_range 97 122 c || in_range 48 57 c
  || existsb (N.eqb c) (lit "-_.!~*'()").

Definition hex_digit (n : N) : N :=
  nth (N.to_nat (N.land n 15)) (lit "0123456789ABCDEF") 48%N.

Definition percent (b : N) : jsstring :=
  [37%N; hex_digit (N.shiftr b 4); hex_digit b].

Definition percent_all (bs : list N) : jsstring := flat_map percent bs.

(** [encodeURIComponent(s)]; [None] is the [URIError] thrown on a lone
    surrogate. *)
Fixpoint encodeURIComponent (s : jsstring) : option jsstring :=
  match s with
  | [] => Some []
  | c :: s' =>
      if uri_unescaped c then option_map (cons c) (encodeURIComponent s')
      else if is_low c then None
      else if is_high c then
        match s' with
        | d :: s'' =>
            if is_low d then
              option_map (app (percent_all (utf8_of_cp (pair_cp c d))))
                         (encodeURIComponent s'')
            else None
        | [] => None
        end
      else option_map (app (percent_all (utf8_of_cp c))) (encodeURIComponent s')
  end.

(** *** trim *)

(** [WhiteSpace] and [LineTerminator] code points. *)
Definition is_whitespace (c : N) : bool :=
  in_range 9 13 c || N.eqb c 32 || N.eqb c 0xA0 || N.eqb c 0x1680
  || in_range 0x2000 0x200A c || N.eqb c 0x2028 || N.eqb c 0x2029
  || N.eqb c 0x202F || N.eqb c 0x205F || N.eqb c 0x3000 || N.eqb c 0xFEFF.

Fixpoint trimStart (s : jsstring) : jsstring :=
  match s with
  | [] => []
  | c :: s' => if is_whitespace c then trimStart s' else s
  end.

Definition trimEnd (s : jsstring) : jsstring := rev (trimStart (rev s)).

(** [s.trim()] *)
Definition trim (s : jsstring) : jsstring := trimEnd (trimStart s).

(** JavaScript truthiness of a string: non-empty. *)
Definition truthy (s : jsstring) : bool :=
  match s with [] => false | _ :: _ => true end.

End JS.

Import JS.

(** ** The tool: [src/tools/inject-run.ts] *)

Module InjectRun.

Definition DEFAULT_TIMEOUT_MS : Z := 300000.
Definition MAX_OUTPUT_BYTES : Z := 1024 * 1024.
Definition TRUNCATION_MESSAGE : jsstring :=
  [10%N; 10%N] ++ lit "[Output truncated - exceeded 1MB limit]".

(** The replacement text of every [replaceAll] in [maskSecrets]. *)
Definition REDACTED : jsstring := lit "***REDACTED***".

(** [Record<string, string>], as its entries in iteration order. *)
Definition SecretMap : Type := list (jsstring * jsstring).

(** [Object.keys] and [Object.values] *)
Definition keys (m : SecretMap) : list jsstring := map fst m.
Definition values (m : SecretMap) : list jsstring := map snd m.

(** *** maskSecrets *)

(** The body of the loop of [maskSecrets] for one [value]. *)
Definition maskValue (masked value : jsstring) : jsstring :=
  if negb (truthy value) then masked
  else
    let masked := replaceAll masked value REDACTED in
    if (4 <=? length value)%nat then
      let masked :=
        match encodeURIComponent value with
        | Some urlEncoded =>
            if negb (eqb urlEncoded value)
            then replaceAll masked urlEncoded REDACTED
            else masked
        | None => masked
        end in
      replaceAll masked (base64 (utf8_encode value)) REDACTED
    else masked.

Definition maskSecrets (text : jsstring) (secrets : SecretMap) : jsstring :=
  if negb (truthy text) then text
  else fold_left maskValue (values secrets) text.

(** *** truncateOutput *)

(** The [while] loop of [truncateOutput].  [None]: the loop is still
    running after [rounds] iterations. *)
Fixpoint shrink (rounds : nat) (truncated : jsstring) (maxBytes : Z)
  : option jsstring :=
  if (byteLength truncated >? maxBytes - byteLength TRUNCATION_MESSAGE)%Z then
    match rounds with
    | O => None
    | S n => shrink n (slice_to_minus truncated 1000) maxBytes
    end
  else Some truncated.

(** [truncateOutput(text, maxBytes)].  An iteration of the loop that leaves
    the text non-empty shortens it, and on the empty text the loop either
    stops or repeats for ever, so [length text] iterations decide it:
    [None] is the loop that never ends. *)
Definition truncateOutput (text : jsstring) (maxBytes : Z)
  : option (jsstring * bool) :=
  if (byteLength text <=? maxBytes)%Z then Some (text, false)
  else
    match shrink (length text) text maxBytes with
    | Some truncated => Some (truncated ++ TRUNCATION_MESSAGE, true)
    | None => None
    end.

(** *** injectRun *)

Record Args : Type := {
  command : jsstring;
  args : option (list jsstring);
  environment : option jsstring;
  timeout : option Z
}.

(** The calls [injectRun] makes to its collaborators, in order. *)
Inductive Call : Type :=
| GetToken
| GetRepository
| PullSecrets (repository environment token : jsstring)
| Spawn (command : jsstring) (args : list jsstring) (env : SecretMap)
        (timeout : Z).

(** The errors [injectRun] rejects with. *)
Inductive Failure : Type :=
| Propagated (message : jsstring)
| TimedOut (timeout : Z)
| FailedToExecute (message : jsstring).

(** A [data] event: the decoded text and the length of the buffer. *)
Record Chunk : Type := { chunk_text : jsstring; chunk_length : Z }.

(** What the child process does, as seen by the handlers of [injectRun]:
    an [error] event, the timer firing first, or a [close] event after the
    [data] events of both streams. *)
Inductive ProcessRun : Type :=
| EmitsError (message : jsstring)
| OutlivesTimer
| Closes (code : option Z) (out err : list Chunk).

(** The collaborators.  [parseEnvContent] lives in [utils/env-parser],
    which is not among the sources: it is taken as given. *)
Record World : Type := {
  getToken : Failure + jsstring;
  getRepository : Failure + jsstring;
  pullSecrets : jsstring -> jsstring -> jsstring -> Failure + jsstring;
  parseEnvContent : jsstring -> SecretMap;
  process_env : SecretMap;
  spawn : jsstring -> list jsstring -> SecretMap -> Z -> ProcessRun
}.

Inductive Completion (A : Type) : Type :=
| Value (a : A)
| Throw (e : Failure)
| Hang.

Arguments Value {A} a.
Arguments Throw {A} e.
Arguments Hang {A}.

(** A computation: the calls made so far and how it completed. *)
Definition Run (A : Type) : Type := (list Call * Completion A)%type.

Definition ret {A : Type} (a : A) : Run A := ([], Value a).

Definition bind {A B : Type} (m : Run A) (k : A -> Run B) : Run B :=
  match m with
  | (t, Value a) => let (t', c) := k a in (t ++ t', c)
  | (t, Throw e) => (t, Throw e)
  | (t, Hang) => (t, Hang)
  end.

Notation "x <- m ;; k" := (bind m (fun x => k))
  (at level 61, m at next level, right associativity).

Definition settle {A : Type} (r : Failure + A) : Completion A :=
  match r with inl e => Throw e | inr a => Value a end.

Definition call {A : Type} (c : Call) (r : Failure + A) : Run A :=
  ([c], settle r).

(** [{ ...base, ...over }], as the map from names to values: a name of
    [over] takes the value it has there, in the place it has in [base] or
    after the names of [base].  (JavaScript enumerates integer-like names
    before the others; the values are the same.) *)
Fixpoint assign (o : SecretMap) (k v : jsstring) : SecretMap :=
  match o with
  | [] => [(k, v)]
  | (k', v') :: o' =>
      if eqb k k' then (k, v) :: o' else (k', v') :: assign o' k v
  end.

Definition spread (base over : SecretMap) : SecretMap :=
  fold_left (fun o kv => assign o (fst kv) (snd kv)) over base.

(** The [data] handler of one stream, on the pair of the text and the byte
    count accumulated so far. *)
Definition on_data (acc : jsstring * Z) (data : Chunk) : jsstring * Z :=
  if (snd acc <? MAX_OUTPUT_BYTES)%Z
  then (fst acc ++ chunk_text data, (snd acc + chunk_length data)%Z)
  else acc.

Definition capture (chunks : list Chunk) : jsstring * Z :=
  fold_left on_data chunks ([], 0%Z).

Record ProcessResult : Type := {
  exitCode : Z;
  stdout : jsstring;
  stderr : jsstring;
  stdoutTruncated : bool;
  stderrTruncated : bool
}.

(** The [close] handler. *)
Definition on_close (secrets : SecretMap) (code : option Z)
  (out err : list Chunk) : Completion ProcessResult :=
  let (stdout, stdoutBytes) := capture out in
  let (stderr, stderrBytes) := capture err in
  match truncateOutput stdout MAX_OUTPUT_BYTES,
        truncateOutput stderr MAX_OUTPUT_BYTES with
  | Some stdoutResult, Some stderrResult =>
      Value {|
        exitCode := match code with Some c => c | None => 1%Z end;
        stdout := maskSecrets (fst stdoutResult) secrets;
        stderr := maskSecrets (fst stderrResult) secrets;
        stdoutTruncated :=
          snd stdoutResult || (MAX_OUTPUT_BYTES <=? stdoutBytes)%Z;
        stderrTruncated :=
          snd stderrResult || (MAX_OUTPUT_BYTES <=? stderrBytes)%Z
      |}
  | _, _ => Hang
  end.

(** The promise around [spawn]. *)
Definition run_command (w : World) (command : jsstring)
  (args : list jsstring) (env secrets : SecretMap) (timeout : Z)
  : Run ProcessResult :=
  ([Spawn command args env timeout],
   match spawn w command args env timeout with
   | EmitsError message => Throw (FailedToExecute message)
   | OutlivesTimer => Throw (TimedOut timeout)
   | Closes code out err => on_close secrets code out err
   end).

(** The object that [JSON.stringify] writes into the result. *)
Record Response : Type := {
  response_exitCode : Z;
  response_stdout : jsstring;
  response_stderr : jsstring;
  secretsInjected : nat;
  warnings : option (list jsstring)
}.

Inductive Content : Type :=
| Text (text : jsstring)
| Json (response : Response).

Record CallToolResult : Type := {
  content : Content;
  isError : bool
}.

(** [args.environment || 'development'] *)
Definition environment_of (a : Args) : jsstring :=
  match environment a with
  | Some e => if truthy e then e else lit "development"
  | None => lit "development"
  end.

(** [Math.min(args.timeout || DEFAULT_TIMEOUT_MS, DEFAULT_TIMEOUT_MS)] *)
Definition timeout_of (a : Args) : Z :=
  Z.min
    match timeout a with
    | Some t => if (t =? 0)%Z then DEFAULT_TIMEOUT_MS else t
    | None => DEFAULT_TIMEOUT_MS
    end
    DEFAULT_TIMEOUT_MS.

(** [args.args || []] *)
Definition args_of (a : Args) : list jsstring :=
  match args a with Some l => l | None => [] end.

Definition warnings_of (result : ProcessResult) : option (list jsstring) :=
  if stdoutTruncated result || stderrTruncated result then
    Some
      ((if stdoutTruncated result
        then [lit "stdout was truncated (exceeded 1MB)"] else [])
       ++
       (if stderrTruncated result
        then [lit "stderr was truncated (exceeded 1MB)"] else []))
  else None.

Definition injectRun (w : World) (a : Args) : Run CallToolResult :=
  if negb (truthy (command a)) || negb (truthy (trim (command a))) then
    ret {| content := Text (lit "Error: command is required");
           isError := true |}
  else
    token <- call GetToken (getToken w) ;;
    repository <- call GetRepository (getRepository w) ;;
    let environment := environment_of a in
    let timeout := timeout_of a in
    content <- call (PullSecrets repository environment token)
                    (pullSecrets w repository environment token) ;;
    let secrets := parseEnvContent w content in
    let env := spread (process_env w) secrets in
    result <- run_command w (command a) (args_of a) env secrets timeout ;;
    let response := {|
      response_exitCode := exitCode result;
      response_stdout := stdout result;
      response_stderr := stderr result;
      secretsInjected := length (keys secrets);
      warnings := warnings_of result
    |} in
    ret {| content := Json response;
           isError := negb (exitCode result =? 0)%Z |}.

End InjectRun.

Import InjectRun.

(** ** The client of the vault: [src/utils/api.ts] *)

Module Api.

Definition USER_AGENT : jsstring := lit "keyway-mcp/1.0.0".
Definition DEFAULT_TIMEOUT_MS : Z := 30000.
Definition MAX_RETRIES : nat := 3.
Definition RETRY_DELAY_MS : Z := 1000.

(** *** Values read from a response *)

(** A JavaScript number as [JSON.parse] gives it. *)
Inductive Number : Type :=
| Finite (q : QArith_base.Q)
| Infinity (negative : bool).

(** The values [JSON.parse] returns. *)
#[warnings="-register-all"]
Inductive JSON : Type :=
| JNull
| JBool (b : bool)
| JNumber (n : Number)
| JString (s : jsstring)
| JArray (items : list JSON)
| JObject (fields : list (jsstring * JSON)).

(** A JavaScript value of this module: a parsed value or [undefined]. *)
Definition JSValue : Type := option JSON.

(** The own property [k] of a parsed object; of two entries with one name
    [JSON.parse] keeps the later. *)
Fixpoint field (fields : list (jsstring * JSON)) (k : jsstring) : JSValue :=
  match fields with
  | [] => None
  | (k', v) :: rest =>
      match field rest k with
      | Some v' => Some v'
      | None => if eqb k k' then Some v else None
      end
  end.

(** [v.k], for the names this module reads ([data], [content], [title],
    [detail]), which are properties of no string, array or prototype.
    [None] is the TypeError of reading a property of [null] or
    [undefined]. *)
Definition get (v : JSValue) (k : jsstring) : option JSValue :=
  match v with
  | None => None
  | Some JNull => None
  | Some (JObject fields) => Some (field fields k)
  | Some _ => Some None
  end.

(** JavaScript truthiness. *)
Definition truthy_value (v : JSValue) : bool :=
  match v with
  | None => false
  | Some JNull => false
  | Some (JBool b) => b
  | Some (JNumber (Finite q)) => negb (QArith_base.Qnum q =? 0)%Z
  | Some (JNumber (Infinity _)) => true
  | Some (JString s) => truthy s
  | Some (JArray _) => true
  | Some (JObject _) => true
  end.

(** *** Errors *)

(** The message of an error: a text, or the text [String(v)] of a parsed
    value that is no string. *)
Inductive Message : Type :=
| Str (s : jsstring)
| ToString (v : JSON).

Record APIError : Type := {
  statusCode : N;
  errorCode : JSON;
  message : Message;
  isRetryable : bool
}.

(** What a [throw] of this module, or of [fetch], throws. *)
Inductive Thrown : Type :=
| ThrowAPIError (e : APIError)
| ThrowError (name message : jsstring)
| ThrowValue.

(** What the platform provides and this embedding does not define:
    [String.prototype.toLowerCase], [JSON.parse] ([inl] is the message of
    its SyntaxError), the message of the TypeError of reading a property of
    [null], and the text of the number [timeoutMs / 1000]. *)
Record Platform : Type := {
  toLowerCase : jsstring -> jsstring;
  JSON_parse : jsstring -> jsstring + JSON;
  null_read_message : jsstring;
  seconds_text : Z -> jsstring
}.

(** [isRetryableError] *)
Definition isRetryableError (P : Platform) (error : Thrown) : bool :=
  match error with
  | ThrowAPIError e =>
      isRetryable e || ((500 <=? statusCode e)%N && (statusCode e <? 600)%N)
  | ThrowError _ m =>
      let message := toLowerCase P m in
      includes message (lit "network")
      || includes message (lit "econnreset")
      || includes message (lit "econnrefused")
      || includes message (lit "timeout")
  | ThrowValue => false
  end.

(** *** Requests *)

Record Response : Type := {
  status : N;
  content_type : option jsstring;
  body : Thrown + jsstring
}.

(** [response.ok] *)
Definition ok (r : Response) : bool :=
  (200 <=? status r)%N && (status r <=? 299)%N.

(** How one call of [fetch] ends: with a response or with a rejection (an
    [AbortError] when the timer of [fetchWithTimeout] fired). *)
Inductive FetchOutcome : Type :=
| Responds (r : Response)
| Rejects (e : Thrown).

Record Request : Type := {
  url : jsstring;
  method : jsstring;
  headers : list (jsstring * jsstring)
}.

Inductive Event : Type :=
| Fetch (request : Request)
| Sleep (ms : Z).

(** [fetchWithTimeout], given how the call of [fetch] ends. *)
Definition fetchWithTimeout (P : Platform) (outcome : FetchOutcome)
  (timeoutMs : Z) : Thrown + Response :=
  match outcome with
  | Responds r => inr r
  | Rejects (ThrowError name m) =>
      if eqb name (lit "AbortError")
      then inl (ThrowError (lit "Error")
                  (lit "Request timeout after " ++ seconds_text P timeoutMs
                   ++ lit "s"))
      else inl (ThrowError name m)
  | Rejects e => inl e
  end.

(** The loop of [fetchWithRetry] from iteration [attempt] on, with
    [remaining] iterations to go; [net k] is how the [k]-th call of [fetch]
    ends. *)
Fixpoint retry_loop (P : Platform) (net : nat -> FetchOutcome)
  (request : Request) (timeoutMs : Z) (remaining attempt : nat)
  (lastError : Thrown) : list Event * (Thrown + Response) :=
  match remaining with
  | O => ([], inl lastError)
  | S remaining' =>
      match fetchWithTimeout P (net attempt) timeoutMs with
      | inr response => ([Fetch request], inr response)
      | inl error =>
          if negb (isRetryableError P error)
             || (attempt =? MAX_RETRIES - 1)%nat
          then ([Fetch request], inl error)
          else
            let (events, result) :=
              retry_loop P net request timeoutMs remaining' (S attempt) error in
            (Fetch request
             :: Sleep (RETRY_DELAY_MS * 2 ^ Z.of_nat attempt)%Z
             :: events, result)
      end
  end.

(** [fetchWithRetry]; [lastError] starts as [undefined]. *)
Definition fetchWithRetry (P : Platform) (net : nat -> FetchOutcome)
  (request : Request) (timeoutMs : Z) : list Event * (Thrown + Response) :=
  retry_loop P net request timeoutMs MAX_RETRIES 0 ThrowValue.

(** The decimal text of a status code. *)
Definition decimal (n : N) : jsstring :=
  lit (DecimalString.NilZero.string_of_uint (N.to_uint n)).

(** [text || `HTTP ${response.status}`] *)
Definition text_or_status (text : jsstring) (r : Response) : jsstring :=
  if truthy text then text else lit "HTTP " ++ decimal (status r).

(** [new APIError(response.status, 'Error', text || `HTTP ...`)] *)
Definition plain_error (text : jsstring) (r : Response) : APIError := {|
  statusCode := status r;
  errorCode := JString (lit "Error");
  message := Str (text_or_status text r);
  isRetryable := false
|}.

Definition message_of (v : JSON) : Message :=
  match v with JString s => Str s | _ => ToString v end.

(** [handleResponse] *)
Definition handleResponse (P : Platform) (response : Response)
  : Thrown + JSON :=
  let contentType :=
    match content_type response with
    | Some c => if truthy c then c else []
    | None => []
    end in
  match body response with
  | inl e => inl e
  | inr text =>
      if negb (ok response) then
        if includes contentType (lit "application/json") then
          match JSON_parse P text with
          | inr error =>
              match get (Some error) (lit "title"),
                    get (Some error) (lit "detail") with
              | Some title, Some detail =>
                  inl (ThrowAPIError {|
                    statusCode := status response;
                    errorCode :=
                      match title with
                      | Some t =>
                          if truthy_value title then t
                          else JString (lit "Error")
                      | None => JString (lit "Error")
                      end;
                    message :=
                      match detail with
                      | Some d =>
                          if truthy_value detail then message_of d
                          else Str (lit "HTTP " ++ decimal (status response))
                      | None => Str (lit "HTTP " ++ decimal (status response))
                      end;
                    isRetryable := false
                  |})
              | _, _ => inl (ThrowAPIError (plain_error text response))
              end
          | inl _ => inl (ThrowAPIError (plain_error text response))
          end
        else inl (ThrowAPIError (plain_error text response))
      else if negb (truthy text) then inr (JObject [])
      else if includes contentType (lit "application/json") then
        match JSON_parse P text with
        | inr v => inr v
        | inl m => inl (ThrowError (lit "SyntaxError") m)
        end
      else inr (JObject [(lit "content", JString text)])
  end.

(** [ENVIRONMENT_PATTERN.test(s)] for [/^[a-zA-Z][a-zA-Z0-9_-]*$/] *)
Definition is_letter (c : N) : bool := in_range 65 90 c || in_range 97 122 c.
Definition is_name_char (c : N) : bool :=
  is_letter c || in_range 48 57 c || N.eqb c 95 || N.eqb c 45.
Definition ENVIRONMENT_PATTERN_test (s : jsstring) : bool :=
  match s with
  | [] => false
  | c :: rest => is_letter c && forallb is_name_char rest
  end.

(** [validateEnvironment]: the error it throws, if any. *)
Definition validateEnvironment (environment : jsstring) : option APIError :=
  if negb (truthy environment) || negb (ENVIRONMENT_PATTERN_test environment)
  then Some {|
    statusCode := 400;
    errorCode := JString (lit "INVALID_ENVIRONMENT");
    message :=
      Str (lit "Invalid environment name " ++ [34%N] ++ environment
           ++ [34%N]
           ++ lit ". Must start with a letter and contain only letters, numbers, underscores, and hyphens.");
    isRetryable := false
  |}
  else None.

(** The bytes that the serializer of [URLSearchParams] leaves as they
    are. *)
Definition form_plain (b : N) : bool :=
  N.eqb b 0x2A || N.eqb b 0x2D || N.eqb b 0x2E || in_range 0x30 0x39 b
  || in_range 0x41 0x5A b || N.eqb b 0x5F || in_range 0x61 0x7A b.

Definition form_byte (b : N) : jsstring :=
  if N.eqb b 0x20 then [43%N]
  else if form_plain b then [b]
  else percent b.

(** One name or value as [URLSearchParams.prototype.toString] writes it. *)
Definition form_encode (s : jsstring) : jsstring :=
  flat_map form_byte (utf8_encode s).

(** [new URLSearchParams({ repo, environment }).toString()] *)
Definition pull_params (repository environment : jsstring) : jsstring :=
  lit "repo=" ++ form_encode repository
  ++ lit "&environment=" ++ form_encode environment.

Definition pull_request (base repository environment token : jsstring)
  : Request := {|
  url := base ++ lit "/v1/secrets/pull?" ++ pull_params repository environment;
  method := lit "GET";
  headers :=
    [(lit "Content-Type", lit "application/json");
     (lit "User-Agent", USER_AGENT);
     (lit "Authorization", lit "Bearer " ++ token)]
|}.

Definition INVALID_RESPONSE : APIError := {|
  statusCode := 500;
  errorCode := JString (lit "INVALID_RESPONSE");
  message := Str (lit "Invalid response format from API");
  isRetryable := false
|}.

(** [pullSecrets]; [base] is [API_BASE_URL]. *)
Definition pullSecrets (P : Platform) (net : nat -> FetchOutcome)
  (base repository environment token : jsstring)
  : list Event * (Thrown + jsstring) :=
  match validateEnvironment environment with
  | Some e => ([], inl (ThrowAPIError e))
  | None =>
      let (events, fetched) :=
        fetchWithRetry P net (pull_request base repository environment token)
          DEFAULT_TIMEOUT_MS in
      (events,
       match fetched with
       | inl e => inl e
       | inr response =>
           match handleResponse P response with
           | inl e => inl e
           | inr result =>
               match get (Some result) (lit "data") with
               | None => inl (ThrowError (lit "TypeError") (null_read_message P))
               | Some data =>
                   if negb (truthy_value data)
                   then inl (ThrowAPIError INVALID_RESPONSE)
                   else
                     match get data (lit "content") with
                     | Some (Some (JString content)) => inr content
                     | _ => inl (ThrowAPIError INVALID_RESPONSE)
                     end
               end
           end
       end)
  end.

End Api.

(** ** Vocabulary of the properties *)

(** [p] occurs in [s] as a contiguous substring. *)
Definition occurs (p s : jsstring) : Prop := exists l r, s = l ++ p ++ r.

(** Some non-empty suffix of [a] is a prefix of [b]. *)
Fixpoint has_border (a b : jsstring) : bool :=
  match a with
  | [] => false
  | _ :: a' => startsWith b a || has_border a' b
  end.

(** Two strings can share code units in some text: an end of one is a
    beginning of the other, or one lies inside the other. *)
Definition overlaps (p q : jsstring) : bool :=
  has_border p q || has_border q p || includes p q || includes q p.

(** Every occurrence of [p] in [x ++ z] lies in [x] or in [z]. *)
Definition nostraddle (p x z : jsstring) : Prop :=
  forall l r, x ++ z = l ++ p ++ r ->
    (exists r', x = l ++ p ++ r') \/ (exists l', z = l' ++ p ++ r /\ l = x ++ l').

(** In [b ++ q] the leftmost occurrence of [q] is the final one. *)
Definition first_at (q b : jsstring) : Prop := find (b ++ q) q = Some (b, []).

(** One [replaceAll] of [maskSecrets]. *)
Definition replace_step (m p : jsstring) : jsstring := replaceAll m p REDACTED.

(** The search strings that [maskValue] replaces for one value, in order. *)
Definition patterns (value : jsstring) : list jsstring :=
  if negb (truthy value) then []
  else
    value ::
    (if (4 <=? length value)%nat then
       match encodeURIComponent value with
       | Some urlEncoded =>
           if negb (eqb urlEncoded value) then [urlEncoded] else []
       | None => []
       end ++ [base64 (utf8_encode value)]
     else []).

(** The text fits the room that [truncateOutput] leaves before its notice. *)
Definition fits (maxBytes : Z) (s : jsstring) : Prop :=
  (byteLength s <= maxBytes - byteLength TRUNCATION_MESSAGE)%Z.

(** The text without its last [1000 * k] code units: what [k] iterations
    of the loop of [truncateOutput] keep. *)
Definition kept (text : jsstring) (k : nat) : jsstring :=
  firstn (length text - 1000 * k) text.

(** U+1F600 as its surrogate pair. *)
Definition emoji : jsstring := [0xD83D%N; 0xDE00%N].

(** [m] copies of U+1F600. *)
Definition emojis (m : nat) : jsstring := concat (repeat emoji m).

(** No search string of the value can overlap the marker. *)
Definition marker_safe (v : jsstring) : bool :=
  forallb (fun p => negb (overlaps p REDACTED)) (patterns v).

(** A search string of [v] can overlap a search string of [w]. *)
Definition interferes (v w : jsstring) : bool :=
  existsb (fun p => existsb (fun q => overlaps p q) (patterns w)) (patterns v).

(** Values whose search strings cannot overlap the marker and, for two
    different values, cannot overlap each other. *)
Definition independent (vs : list jsstring) : bool :=
  forallb
    (fun v => marker_safe v
              && forallb (fun w => eqb v w || negb (interferes v w)) vs)
    vs.

(** The timeout as the specification words it:
    [min(timeoutMs ?? defaultTimeoutMs, hardTimeoutCeilingMs)]. *)
Definition nullish_timeout (timeoutMs : option Z) : Z :=
  Z.min
    match timeoutMs with Some t => t | None => DEFAULT_TIMEOUT_MS end
    DEFAULT_TIMEOUT_MS.

(** The count as the specification words it: the secrets whose value is
    not empty. *)
Definition nonempty_count (secrets : SecretMap) : nat :=
  length (filter truthy (values secrets)).

(** The calls a run made and how it completed. *)
Definition calls_of (w : World) (a : Args) : list Call := fst (injectRun w a).
Definition completion_of (w : World) (a : Args) : Completion CallToolResult :=
  snd (injectRun w a).

(** The child process of a run that fetched [content]. *)
Definition process_of (w : World) (a : Args) (content : jsstring) : ProcessRun :=
  spawn w (command a) (args_of a)
    (spread (process_env w) (parseEnvContent w content)) (timeout_of a).

(** [code ?? 1] *)
Definition exit_code_of (code : option Z) : Z :=
  match code with Some c => c | None => 1%Z end.

(** *** The fixtures of [__tests__/inject-run.test.ts] *)

Definition test_secrets : SecretMap :=
  [(lit "SECRET_KEY", lit "mysecretvalue123");
   (lit "API_TOKEN", lit "sk-abc123xyz")].

(** A child that behaves like [echo], or like [false] when so named. *)
Definition test_process (command : jsstring) (args : list jsstring) : ProcessRun :=
  if eqb command (lit "false") then Closes (Some 1%Z) [] []
  else
    let line := concat args ++ [10%N] in
    Closes (Some 0%Z)
      [{| chunk_text := line; chunk_length := byteLength line |}] [].

Definition test_world (secrets : SecretMap) : World := {|
  getToken := inr (lit "mock-token");
  getRepository := inr (lit "owner/repo");
  pullSecrets := fun _ _ _ => inr (lit "SECRET_KEY=mysecretvalue123");
  parseEnvContent := fun _ => secrets;
  process_env := [(lit "PATH", lit "/usr/bin")];
  spawn := fun command args _ _ => test_process command args
|}.

Definition test_args (command : jsstring) (args : list jsstring) : Args := {|
  command := command;
  args := Some args;
  environment := None;
  timeout := None
|}.

(** What every byte of a UTF-8 encoding satisfies: it is a byte, and it is
    not [0xC0]. *)
Definition utf8_byte (b : N) : bool := (b <? 256)%N && negb (b =? 0xC0)%N.

(** The numbers below [n]. *)
Definition below (n : nat) : list N := map N.of_nat (seq 0 n).

(** *** Vocabulary of the further properties *)

(** [o[k]] on a record: the value of the entry named [k]. *)
Fixpoint lookup (o : SecretMap) (k : jsstring) : option jsstring :=
  match o with
  | [] => None
  | (k', v) :: o' => if eqb k k' then Some v else lookup o' k
  end.

(** The text and the number of bytes of a sequence of [data] events. *)
Definition text_of (chunks : list Chunk) : jsstring :=
  concat (map chunk_text chunks).
Definition bytes_of (chunks : list Chunk) : Z :=
  fold_right (fun d n => (chunk_length d + n)%Z) 0%Z chunks.

(** No code unit of the text is a surrogate. *)
Definition no_surrogates (s : jsstring) : bool :=
  forallb (fun c => negb (is_high c || is_low c)) s.

(** *** Vocabulary of the properties of the client *)

(** How the [k]-th attempt of [fetchWithRetry] ends. *)
Definition attempt_of (P : Api.Platform) (net : nat -> Api.FetchOutcome)
  (timeoutMs : Z) (k : nat) : Api.Thrown + Api.Response :=
  Api.fetchWithTimeout P (net k) timeoutMs.

(** The [k]-th attempt threw an error that [isRetryableError] accepts. *)
Definition retryable_at (P : Api.Platform) (net : nat -> Api.FetchOutcome)
  (timeoutMs : Z) (k : nat) : bool :=
  match attempt_of P net timeoutMs k with
  | inl e => Api.isRetryableError P e
  | inr _ => false
  end.

(** The requests among the events. *)
Definition requests (events : list Api.Event) : list Api.Request :=
  flat_map (fun e => match e with Api.Fetch r => [r] | Api.Sleep _ => [] end)
    events.

(** [response.headers.get('content-type') || ''] mentions JSON. *)
Definition is_json (r : Api.Response) : bool :=
  match Api.content_type r with
  | Some c => includes c (lit "application/json")
  | None => false
  end.

(** The [pullSecrets] of a world is the one of [utils/api.ts] over the
    network [net]: it returns what that returns and fails when that
    throws. *)
Definition uses_api (w : World) (P : Api.Platform)
  (net : nat -> Api.FetchOutcome) (base : jsstring) : Prop :=
  forall repository environment token,
    match snd (Api.pullSecrets P net base repository environment token) with
    | inr content => pullSecrets w repository environment token = inr content
    | inl _ =>
        exists m, pullSecrets w repository environment token
                  = inl (Propagated m)
    end.

(** *** Fixtures of the client *)

(** Lowering of the ASCII letters, which is what [toLowerCase] does on
    ASCII text. *)
Definition ascii_lower (s : jsstring) : jsstring :=
  map (fun c => if in_range 65 90 c then (c + 32)%N else c) s.

Definition quote : jsstring := [34%N].

(** The body [{"data":{"content":"SECRET_KEY=mysecretvalue123"}}]. *)
Definition test_body : jsstring :=
  lit "{" ++ quote ++ lit "data" ++ quote ++ lit ":{" ++ quote
  ++ lit "content" ++ quote ++ lit ":" ++ quote
  ++ lit "SECRET_KEY=mysecretvalue123" ++ quote ++ lit "}}".

(** A platform that parses [test_body] and nothing else. *)
Definition test_platform : Api.Platform := {|
  Api.toLowerCase := ascii_lower;
  Api.JSON_parse := fun text =>
    if eqb text test_body
    then inr (Api.JObject
                [(lit "data",
                  Api.JObject
                    [(lit "content",
                      Api.JString (lit "SECRET_KEY=mysecretvalue123"))])])
    else inl (lit "Unexpected token");
  Api.null_read_message :=
    lit "Cannot read properties of null (reading 'data')";
  Api.seconds_text := fun ms => Api.decimal (Z.to_N (ms / 1000))
|}.

Definition test_response : Api.Response := {|
  Api.status := 200;
  Api.content_type := Some (lit "application/json; charset=utf-8");
  Api.body := inr test_body
|}.

Definition test_unavailable : Api.Response := {|
  Api.status := 503;
  Api.content_type := Some (lit "text/plain");
  Api.body := inr (lit "Service Unavailable")
|}.

Definition test_base : jsstring := lit "https://api.keyway.sh".

(** A network that answers the first request. *)
Definition test_net (k : nat) : Api.FetchOutcome := Api.Responds test_response.

(** A network on which every request runs into the timer. *)
Definition slow_net (k : nat) : Api.FetchOutcome :=
  Api.Rejects (Api.ThrowError (lit "AbortError")
                 (lit "This operation was aborted")).

(** The world of the tests with the client of [utils/api.ts] in it. *)
Definition api_world : World :=
  let w := test_world test_secrets in {|
  getToken := getToken w;
  getRepository := getRepository w;
  pullSecrets := fun repository environment token =>
    match snd (Api.pullSecrets test_platform test_net test_base
                 repository environment token) with
    | inr content => inr content
    | inl _ => inl (Propagated (lit "Invalid environment name"))
    end;
  parseEnvContent := parseEnvContent w;
  process_env := process_env w;
  spawn := spawn w
|}.

(** *** The events of a child *)

(** What Node reports of a child, and the timer of [injectRun]: [data] on
    either stream, [exit] when the process has ended, [close] when it has
    ended and both streams are closed, [error], and the timer firing. *)
Inductive ChildEvent : Type :=
| StdoutData (data : Chunk)
| StderrData (data : Chunk)
| ExitEvent (code : option Z)
| CloseEvent (code : option Z)
| ErrorEvent (message : jsstring)
| TimerFires.

(** What the handlers of [injectRun] make of the events of a child, [out]
    and [err] being the [data] events seen so far.  There are handlers
    for [data], [close] and [error], and none for [exit]; the first
    [close], [error] or firing of the timer settles the promise, and a
    timer that neither [close] nor [error] has cleared fires in the end. *)
Fixpoint observe (events : list ChildEvent) (out err : list Chunk)
  : ProcessRun :=
  match events with
  | [] => OutlivesTimer
  | StdoutData data :: events' => observe events' (out ++ [data]) err
  | StderrData data :: events' => observe events' out (err ++ [data])
  | ExitEvent _ :: events' => observe events' out err
  | CloseEvent code :: _ => Closes code out err
  | ErrorEvent message :: _ => EmitsError message
  | TimerFires :: _ => OutlivesTimer
  end.

(** The world of the tests with a child that emits [events]. *)
Definition world_of (events : list ChildEvent) : World :=
  let w := test_world test_secrets in {|
  getToken := getToken w;
  getRepository := getRepository w;
  pullSecrets := pullSecrets w;
  parseEnvContent := parseEnvContent w;
  process_env := process_env w;
  spawn := fun _ _ _ _ => observe events [] []
|}.

Definition line (s : string) : Chunk :=
  {| chunk_text := lit s ++ [10%N];
     chunk_length := byteLength (lit s ++ [10%N]) |}.

(** A child that prints a secret, fails with exit code 3 and closes. *)
Definition failing_events : list ChildEvent :=
  [StdoutData (line "API_TOKEN=sk-abc123xyz");
   StderrData (line "fatal: mysecretvalue123 rejected");
   ExitEvent (Some 3%Z);
   CloseEvent (Some 3%Z)].

(** [sh -c 'sleep 1000 & exit 3']: the shell ends with exit code 3 while
    [sleep] holds both streams open, so that no [close] follows. *)
Definition orphan_events : list ChildEvent :=
  [StdoutData (line "started"); ExitEvent (Some 3%Z)].

Definition orphan_args : Args :=
  test_args (lit "sh") [lit "-c"; lit "sleep 1000 & exit 3"].

(** ** Sanity checks of the embedding *)

Example replaceAll_abc :
  replaceAll (lit "a.b.c") (lit ".") (lit "--") = lit "a--b--c".
Proof. reflexivity. Qed.

Example replaceAll_overlap :
  replaceAll (lit "aaa") (lit "aa") (lit "X") = lit "Xa".
Proof. reflexivity. Qed.

Example base64_secret :
  base64 (utf8_encode (lit "mysecretvalue123")) = lit "bXlzZWNyZXR2YWx1ZTEyMw==".
Proof. reflexivity. Qed.

Example encodeURIComponent_plain :
  encodeURIComponent (lit "a b&c=d/e") = Some (lit "a%20b%26c%3Dd%2Fe").
Proof. reflexivity. Qed.

Example encodeURIComponent_euro :
  encodeURIComponent [0x20AC%N] = Some (lit "%E2%82%AC").
Proof. reflexivity. Qed.

Example encodeURIComponent_lone :
  encodeURIComponent [0xD83D%N; 97%N] = None.
Proof. reflexivity. Qed.

Example byteLength_emoji :
  byteLength [97%N; 0xD83D%N; 0xDE00%N; 0xE9%N; 0x20AC%N] = 10%Z.
Proof. reflexivity. Qed.

Example trim_spaces : trim (lit "  npm test ") = lit "npm test".
Proof. reflexivity. Qed.

Example maskSecrets_raw :
  maskSecrets (lit "Keys: mysecretvalue123 and sk-abc123xyz") test_secrets
  = lit "Keys: ***REDACTED*** and ***REDACTED***".
Proof. reflexivity. Qed.

Example maskSecrets_base64 :
  maskSecrets (lit "Encoded: bXlzZWNyZXR2YWx1ZTEyMw==") test_secrets
  = lit "Encoded: ***REDACTED***".
Proof. reflexivity. Qed.

Example maskSecrets_url_encoded :
  maskSecrets (lit "u=p%40ss%2Fw0rd&x") [(lit "DB", lit "p@ss/w0rd")]
  = lit "u=***REDACTED***&x".
Proof. reflexivity. Qed.

Example truncateOutput_short :
  truncateOutput (lit "hello") MAX_OUTPUT_BYTES = Some (lit "hello", false).
Proof. reflexivity. Qed.

Example truncateOutput_small_ceiling :
  truncateOutput (repeat 97%N 2500) 1100
  = Some (repeat 97%N 500 ++ TRUNCATION_MESSAGE, true).
Proof. reflexivity. Qed.

Example truncateOutput_no_room : truncateOutput (lit "hello") 3 = None.
Proof. reflexivity. Qed.

Example injectRun_blank_command :
  injectRun (test_world test_secrets) (test_args (lit "   ") [])
  = ([], Value {| content := Text (lit "Error: command is required");
                  isError := true |}).
Proof. reflexivity. Qed.

Example injectRun_false :
  completion_of (test_world test_secrets) (test_args (lit "false") [])
  = Value {|
      content := Json {|
        response_exitCode := 1;
        response_stdout := [];
        response_stderr := [];
        secretsInjected := 2;
        warnings := None
      |};
      isError := true
    |}.
Proof. reflexivity. Qed.

Example environment_names :
  map Api.ENVIRONMENT_PATTERN_test
    [lit "development"; lit "pre-prod_2"; lit "2fast"; lit "my env"; []]
  = [true; true; false; false; false].
Proof. reflexivity. Qed.

Example form_encode_repository :
  Api.form_encode (lit "owner/my repo*") = lit "owner%2Fmy+repo*".
Proof. reflexivity. Qed.

Example decimal_status : Api.decimal 404 = lit "404".
Proof. reflexivity. Qed.

Example field_last_wins :
  Api.field [(lit "data", Api.JNull); (lit "data", Api.JBool true)] (lit "data")
  = Some (Api.JBool true).
Proof. reflexivity. Qed.

Example pullSecrets_test_response :
  Api.pullSecrets test_platform test_net test_base (lit "owner/repo")
    (lit "development") (lit "mock-token")
  = ([Api.Fetch (Api.pull_request test_base (lit "owner/repo")
                   (lit "development") (lit "mock-token"))],
     inr (lit "SECRET_KEY=mysecretvalue123")).
Proof. reflexivity. Qed.

Example observe_failing :
  observe failing_events [] []
  = Closes (Some 3%Z) [line "API_TOKEN=sk-abc123xyz"]
      [line "fatal: mysecretvalue123 rejected"].
Proof. reflexivity. Qed.

Example observe_timer_first :
  observe [StdoutData (line "started"); TimerFires; CloseEvent None] [] []
  = OutlivesTimer.
Proof. reflexivity. Qed.

Example observe_error :
  observe [ErrorEvent (lit "spawn nosuch ENOENT"); CloseEvent (Some (-2)%Z)]
    [] []
  = EmitsError (lit "spawn nosuch ENOENT").
Proof. reflexivity. Qed.

(** ** Occurrences and [find] *)

(** Equations between concatenations, up to associativity. *)
Ltac list_eq :=
  repeat rewrite <- app_assoc; simpl; repeat rewrite app_nil_r;
  repeat rewrite <- app_assoc; try reflexivity; auto.

Section Find.

Lemma startsWith_iff (s p : jsstring) :
  startsWith s p = true <-> exists r, s = p ++ r.
Proof.
  revert s; induction p as [|x p IH]; intros s; simpl.
  - split; [intros _; now exists s | reflexivity].
  - destruct s as [|y s].
    + split; [discriminate | intros [r H]; discriminate].
    + rewrite andb_true_iff, N.eqb_eq, IH. split.
      * intros [-> [r ->]]. now exists r.
      * intros [r H]. injection H as -> ->. split; [reflexivity | now exists r].
Qed.

Lemma startsWith_app (p r : jsstring) : startsWith (p ++ r) p = true.
Proof. apply startsWith_iff. now exists r. Qed.

Lemma skipn_length_app (p r : jsstring) : skipn (length p) (p ++ r) = r.
Proof. induction p; simpl; auto. Qed.

Lemma find_eq (s p : jsstring) :
  find s p =
  if startsWith s p then Some ([], skipn (length p) s)
  else match s with
       | [] => None
       | c :: s' =>
           match find s' p with
           | Some (b, a) => Some (c :: b, a)
           | None => None
           end
       end.
Proof. destruct s; reflexivity. Qed.

Lemma startsWith_skipn (s p : jsstring) :
  startsWith s p = true -> s = p ++ skipn (length p) s.
Proof.
  intros H. apply startsWith_iff in H as [r ->].
  now rewrite skipn_length_app.
Qed.

Lemma find_Some (s p b a : jsstring) :
  find s p = Some (b, a) -> s = b ++ p ++ a.
Proof.
  revert b a; induction s as [|c s IH]; intros b a; rewrite find_eq.
  - destruct (startsWith [] p) eqn:E; [|discriminate].
    intros H; injection H as <- <-. now apply startsWith_skipn.
  - destruct (startsWith (c :: s) p) eqn:E.
    + intros H; injection H as <- <-. now apply startsWith_skipn.
    + destruct (find s p) as [[b' a']|] eqn:F; [|discriminate].
      intros H; injection H as <- <-. simpl. f_equal. now apply IH.
Qed.

(** [find] returns the leftmost occurrence. *)
Lemma find_leftmost (p l r : jsstring) :
  exists b a, find (l ++ p ++ r) p = Some (b, a) /\ length b <= length l.
Proof.
  induction l as [|c l IH].
  - simpl app. rewrite find_eq, startsWith_app.
    eexists _, _; split; [reflexivity | simpl; lia].
  - rewrite find_eq. destruct (startsWith ((c :: l) ++ p ++ r) p).
    + eexists _, _; split; [reflexivity | simpl; lia].
    + simpl app. destruct IH as (b & a & -> & Hle).
      eexists _, _; split; [reflexivity | simpl; lia].
Qed.

Lemma find_None (s p : jsstring) : find s p = None -> ~ occurs p s.
Proof.
  intros H (l & r & ->).
  destruct (find_leftmost p l r) as (b & a & E & _). congruence.
Qed.

Lemma find_occurs (s p b a : jsstring) : find s p = Some (b, a) -> occurs p s.
Proof. intros H. exists b, a. now apply find_Some. Qed.

Lemma includes_iff (s p : jsstring) : includes s p = true <-> occurs p s.
Proof.
  unfold includes. destruct (find s p) as [[b a]|] eqn:E.
  - split; [intros _; eapply find_occurs; eauto | reflexivity].
  - split; [discriminate | intros H; now apply find_None in E].
Qed.

Lemma includes_false (s p : jsstring) : includes s p = false <-> ~ occurs p s.
Proof.
  rewrite <- includes_iff. destruct (includes s p); split; congruence.
Qed.

(** The text before the leftmost occurrence holds no occurrence. *)
Lemma find_before (s p b a : jsstring) :
  p <> [] -> find s p = Some (b, a) -> ~ occurs p b.
Proof.
  intros Hp H (l & r & Hb).
  pose proof (find_Some _ _ _ _ H) as Hs. subst b.
  replace ((l ++ p ++ r) ++ p ++ a) with (l ++ p ++ (r ++ p ++ a)) in Hs
    by now rewrite <- !app_assoc.
  destruct (find_leftmost p l (r ++ p ++ a)) as (b' & a' & E & Hle).
  rewrite <- Hs, H in E. injection E as <- <-.
  rewrite !length_app in Hle.
  destruct p; [congruence | simpl in Hle; lia].
Qed.

End Find.

(** ** [replaceAll] *)

Section ReplaceAll.

Lemma replaceAll_from_enough (p r : jsstring) :
  p <> [] ->
  forall n m s, length s <= n -> length s <= m ->
  replaceAll_from n s p r = replaceAll_from m s p r.
Proof.
  intros Hp. induction n as [|n IH]; intros m s Hn Hm.
  - destruct s; [|simpl in Hn; lia]. destruct m; simpl; [reflexivity|].
    destruct p; [congruence | reflexivity].
  - destruct m as [|m].
    + destruct s; [|simpl in Hm; lia]. simpl.
      destruct p; [congruence | reflexivity].
    + simpl. destruct (find s p) as [[b a]|] eqn:E; [|reflexivity].
      apply find_Some in E. subst s. rewrite !length_app in Hn, Hm.
      f_equal; f_equal.
      apply IH; destruct p; simpl in *; try congruence; lia.
Qed.

(** The equation that [replaceAll] satisfies for a non-empty search string. *)
Lemma replaceAll_eq (s p r : jsstring) :
  p <> [] ->
  replaceAll s p r =
  match find s p with
  | None => s
  | Some (b, a) => b ++ r ++ replaceAll a p r
  end.
Proof.
  intros Hp. unfold replaceAll. destruct p as [|x p]; [congruence|].
  destruct s as [|c s]; [reflexivity|].
  change (length (c :: s)) with (S (length s)). cbn [replaceAll_from].
  destruct (find (c :: s) (x :: p)) as [[b a]|] eqn:E; [|reflexivity].
  f_equal; f_equal. apply replaceAll_from_enough; [discriminate| |lia].
  apply find_Some in E. apply (f_equal (@length N)) in E.
  rewrite !length_app in E. simpl in E. lia.
Qed.

Lemma replaceAll_absent (s p r : jsstring) :
  p <> [] -> ~ occurs p s -> replaceAll s p r = s.
Proof.
  intros Hp H. rewrite replaceAll_eq by assumption.
  destruct (find s p) as [[b a]|] eqn:E; [|reflexivity].
  exfalso. apply H. eapply find_occurs; eauto.
Qed.

(** Induction along the rounds of [replaceAll]. *)
Lemma find_ind (p : jsstring) (P : jsstring -> Prop) :
  p <> [] ->
  (forall s, find s p = None -> P s) ->
  (forall s b a, find s p = Some (b, a) -> P a -> P s) ->
  forall s, P s.
Proof.
  intros Hp H0 H1 s. remember (length s) as n eqn:Hn. revert s Hn.
  induction n as [n IH] using lt_wf_ind. intros s ->.
  destruct (find s p) as [[b a]|] eqn:E; [|now apply H0].
  apply (H1 s b a E). apply (IH (length a)); [|reflexivity].
  apply find_Some in E. subst s. rewrite !length_app.
  destruct p; [congruence | simpl; lia].
Qed.

End ReplaceAll.

(** ** Strings that cannot overlap *)

Section Overlap.

Lemma has_border_false (a b : jsstring) :
  has_border a b = false ->
  forall x y z, a = x ++ y -> b = y ++ z -> y = [].
Proof.
  induction a as [|c a IH]; intros H x y z Ha Hb.
  - symmetry in Ha. now apply app_eq_nil in Ha.
  - cbn [has_border] in H. apply orb_false_iff in H as [H1 H2].
    destruct x as [|c' x].
    + simpl in Ha. subst y b.
      pose proof (startsWith_app (c :: a) z) as E. congruence.
    + injection Ha as _ Ha. now apply (IH H2 x y z).
Qed.

Lemma overlaps_sym (p q : jsstring) : overlaps p q = overlaps q p.
Proof.
  unfold overlaps.
  destruct (has_border p q), (has_border q p), (includes p q), (includes q p);
    reflexivity.
Qed.

Lemma overlaps_false (p q : jsstring) :
  overlaps p q = false ->
  has_border p q = false /\ has_border q p = false
  /\ ~ occurs q p /\ ~ occurs p q.
Proof.
  unfold overlaps. intros H.
  apply orb_false_iff in H as [H H4]. apply orb_false_iff in H as [H H3].
  apply orb_false_iff in H as [H1 H2].
  rewrite includes_false in H3, H4. auto.
Qed.

Lemma overlaps_nonempty (p q : jsstring) : overlaps p q = false -> p <> [].
Proof.
  intros H. apply overlaps_false in H as (_ & _ & _ & H). intros ->.
  apply H. now exists [], q.
Qed.

(** An occurrence of [p] in a text around [q] lies before [q] or after it. *)
Lemma no_overlap_split (p q l r x y : jsstring) :
  overlaps p q = false ->
  l ++ p ++ r = x ++ q ++ y ->
  (exists r', x = l ++ p ++ r' /\ r = r' ++ q ++ y)
  \/ (exists l', y = l' ++ p ++ r /\ l = x ++ q ++ l').
Proof.
  intros H E. apply overlaps_false in H as (B1 & B2 & I1 & I2).
  apply app_eq_app in E as [t [[-> E]|[-> E]]].
  - (* [p] starts at or after the start of [q] *)
    apply app_eq_app in E as [u [[-> E]|[-> ->]]].
    + apply app_eq_app in E as [w [[-> ->]|[-> ->]]].
      * assert (u = []) by (eapply (has_border_false _ _ B2 t u w); reflexivity).
        subst u. right. exists []. split; list_eq.
      * exfalso. apply I2. now exists t, w.
    + right. exists u. split; list_eq.
  - (* [p] starts before [q] *)
    apply app_eq_app in E as [u [[-> E]|[-> ->]]].
    + apply app_eq_app in E as [w [[-> ->]|[-> ->]]].
      * assert (u = []) by (eapply (has_border_false _ _ B1 t u w); reflexivity).
        subst u. left. exists []. split; list_eq.
      * exfalso. apply I1. now exists t, w.
    + left. exists u. split; list_eq.
Qed.

Lemma occurs_app_l (p x y : jsstring) : occurs p x -> occurs p (x ++ y).
Proof.
  intros (l & r & ->). exists l, (r ++ y). list_eq.
Qed.

Lemma occurs_app_r (p x y : jsstring) : occurs p y -> occurs p (x ++ y).
Proof.
  intros (l & r & ->). exists (x ++ l), r. list_eq.
Qed.

Lemma no_overlap_occurs (p q x y : jsstring) :
  overlaps p q = false ->
  occurs p (x ++ q ++ y) -> occurs p x \/ occurs p y.
Proof.
  intros H (l & r & E). symmetry in E.
  destruct (no_overlap_split _ _ _ _ _ _ H E) as [[r' [-> _]]|[l' [-> _]]].
  - left. now exists l, r'.
  - right. now exists l', r.
Qed.

(** Replacing [q] by a text that [v] cannot overlap creates no [v]. *)
Lemma replaceAll_preserves_absent (v q m s : jsstring) :
  q <> [] -> overlaps v m = false ->
  ~ occurs v s -> ~ occurs v (replaceAll s q m).
Proof.
  intros Hq Hv. revert s.
  apply (find_ind q (fun s => ~ occurs v s -> ~ occurs v (replaceAll s q m)) Hq).
  - intros s E H. rewrite replaceAll_eq, E by assumption. exact H.
  - intros s b a E IH H. rewrite replaceAll_eq, E by assumption.
    apply find_Some in E. subst s. intros Ho.
    apply no_overlap_occurs in Ho; [|assumption].
    destruct Ho as [Ho|Ho].
    + apply H. now apply occurs_app_l.
    + revert Ho. apply IH. intros Ho. apply H.
      now apply occurs_app_r, occurs_app_r.
Qed.

(** Replacing [v] by a text that [v] cannot overlap leaves no [v]. *)
Lemma replaceAll_removes (v m s : jsstring) :
  overlaps v m = false -> ~ occurs v (replaceAll s v m).
Proof.
  intros Hv. pose proof (overlaps_nonempty _ _ Hv) as Hne. revert s.
  apply (find_ind v (fun s => ~ occurs v (replaceAll s v m)) Hne).
  - intros s E. rewrite replaceAll_eq, E by assumption. now apply find_None.
  - intros s b a E IH. rewrite replaceAll_eq, E by assumption. intros Ho.
    apply no_overlap_occurs in Ho; [|assumption].
    destruct Ho as [Ho|Ho]; [|contradiction].
    now apply (find_before _ _ _ _ Hne E).
Qed.

End Overlap.

Create HintDb occurs.
#[global] Hint Resolve occurs_app_l occurs_app_r : occurs.

(** ** The search strings of [maskValue] *)

Section Patterns.

Lemma eqb_eq (a b : jsstring) : eqb a b = true <-> a = b.
Proof.
  revert b; induction a as [|x a IH]; intros [|y b]; simpl;
    try (split; [discriminate | discriminate]); try tauto.
  rewrite andb_true_iff, N.eqb_eq, IH. split.
  - intros [-> ->]; reflexivity.
  - intros H; injection H as -> ->; auto.
Qed.

Lemma maskValue_patterns (masked value : jsstring) :
  maskValue masked value =
  fold_left (fun m p => replaceAll m p REDACTED) (patterns value) masked.
Proof.
  unfold maskValue, patterns.
  destruct (negb (truthy value)); [reflexivity|].
  destruct (4 <=? length value)%nat; [|reflexivity].
  destruct (encodeURIComponent value) as [u|]; [|reflexivity].
  destruct (negb (eqb u value)); reflexivity.
Qed.

Lemma utf8_of_cp_nonempty (cp : N) : utf8_of_cp cp <> [].
Proof.
  unfold utf8_of_cp.
  destruct (cp <? 0x80)%N; [discriminate|].
  destruct (cp <? 0x800)%N; [discriminate|].
  destruct (cp <? 0x10000)%N; discriminate.
Qed.

Lemma app_nonempty (a b : jsstring) : a <> [] -> a ++ b <> [].
Proof. destruct a; [congruence | discriminate]. Qed.

Lemma utf8_encode_nonempty (s : jsstring) : s <> [] -> utf8_encode s <> [].
Proof.
  destruct s as [|c s]; [congruence|]. intros _. cbn [utf8_encode].
  destruct (is_high c).
  - destruct s as [|d s]; [apply utf8_of_cp_nonempty|].
    destruct (is_low d); apply app_nonempty, utf8_of_cp_nonempty.
  - destruct (is_low c); apply app_nonempty, utf8_of_cp_nonempty.
Qed.

Lemma base64_nonempty (bs : list N) : bs <> [] -> base64 bs <> [].
Proof.
  destruct bs as [|a [|b [|c rest]]]; [congruence | discriminate ..].
Qed.

Lemma percent_all_nonempty (bs : list N) : bs <> [] -> percent_all bs <> [].
Proof. destruct bs; [congruence | discriminate]. Qed.

Lemma encodeURIComponent_nonempty (s u : jsstring) :
  s <> [] -> encodeURIComponent s = Some u -> u <> [].
Proof.
  destruct s as [|c s]; [congruence|]. intros _. cbn [encodeURIComponent].
  destruct (uri_unescaped c).
  { destruct (encodeURIComponent s); [|discriminate].
    intros H; injection H as <-. discriminate. }
  destruct (is_low c); [discriminate|].
  destruct (is_high c).
  - destruct s as [|d s]; [discriminate|].
    destruct (is_low d); [|discriminate].
    destruct (encodeURIComponent s); [|discriminate].
    intros H; injection H as <-.
    apply app_nonempty, percent_all_nonempty, utf8_of_cp_nonempty.
  - destruct (encodeURIComponent s); [|discriminate].
    intros H; injection H as <-.
    apply app_nonempty, percent_all_nonempty, utf8_of_cp_nonempty.
Qed.

Lemma patterns_nonempty (value p : jsstring) :
  In p (patterns value) -> p <> [].
Proof.
  unfold patterns. destruct value as [|c v] eqn:Ev; [contradiction|].
  rewrite <- Ev. assert (Hne : value <> []) by (subst; discriminate).
  replace (negb (truthy value)) with false by (subst; reflexivity).
  clear Ev. intros [<-|H]; [assumption|].
  destruct (4 <=? length value)%nat; [|contradiction].
  apply in_app_or in H as [H|[<-|[]]].
  - destruct (encodeURIComponent value) as [u|] eqn:E; [|contradiction].
    destruct (negb (eqb u value)); [|contradiction].
    destruct H as [<-|[]]. eapply encodeURIComponent_nonempty; eauto.
  - now apply base64_nonempty, utf8_encode_nonempty.
Qed.

(** A secret is the first of its own search strings. *)
Lemma patterns_value (value : jsstring) :
  value <> [] -> exists ps, patterns value = value :: ps.
Proof.
  intros H. unfold patterns. destruct value; [congruence|].
  simpl negb. cbv iota. eexists; reflexivity.
Qed.

End Patterns.

(** ** What one pass of [maskSecrets] keeps true *)

Section Absent.

(** A string that cannot overlap the marker. *)
Variable v : jsstring.
Hypothesis v_clear : overlaps v REDACTED = false.

Lemma fold_preserves_absent (ps : list jsstring) :
  (forall p, In p ps -> p <> []) ->
  forall s, ~ occurs v s -> ~ occurs v (fold_left replace_step ps s).
Proof.
  induction ps as [|p ps IH]; intros Hps s H; [exact H|].
  simpl. apply IH; [intros q Hq; apply Hps; now right|].
  apply replaceAll_preserves_absent; auto. apply Hps. now left.
Qed.

Lemma maskValue_preserves_absent (w s : jsstring) :
  ~ occurs v s -> ~ occurs v (maskValue s w).
Proof.
  intros H. rewrite maskValue_patterns.
  apply (fold_preserves_absent (patterns w)); [|exact H].
  intros p. apply patterns_nonempty.
Qed.

Lemma maskValues_preserve_absent (ws : list jsstring) :
  forall s, ~ occurs v s -> ~ occurs v (fold_left maskValue ws s).
Proof.
  induction ws as [|w ws IH]; intros s H; [exact H|].
  simpl. apply IH. now apply maskValue_preserves_absent.
Qed.

(** After the round of a value that has [v] among its search strings, [v]
    is gone. *)
Lemma maskValue_removes (w s : jsstring) :
  In v (patterns w) -> ~ occurs v (maskValue s w).
Proof.
  intros Hin. rewrite maskValue_patterns.
  pose proof (patterns_nonempty w) as Hne.
  revert s Hin Hne. generalize (patterns w) as ps.
  induction ps as [|q ps IH]; intros s Hin Hne; [contradiction|].
  simpl. destruct Hin as [->|Hin].
  - apply fold_preserves_absent.
    + intros q' Hq. apply Hne. now right.
    + now apply replaceAll_removes.
  - apply IH; [assumption|]. intros q' Hq. apply Hne. now right.
Qed.

Lemma maskValues_remove (w : jsstring) (ws : list jsstring) :
  In w ws -> In v (patterns w) ->
  forall s, ~ occurs v (fold_left maskValue ws s).
Proof.
  induction ws as [|w' ws IH]; intros Hw Hin s; [contradiction|].
  simpl. destruct Hw as [->|Hw].
  - apply maskValues_preserve_absent. now apply maskValue_removes.
  - now apply IH.
Qed.

End Absent.

Section Marker.

(** A [replaceAll] that changes the text writes the marker into it. *)
Lemma replaceAll_changed (s p m : jsstring) :
  p <> [] ->
  (replaceAll s p m = s /\ ~ occurs p s)
  \/ (occurs p s /\ occurs m (replaceAll s p m)).
Proof.
  intros Hp. rewrite replaceAll_eq by assumption.
  destruct (find s p) as [[b a]|] eqn:E.
  - right. split; [eapply find_occurs; eauto|].
    now exists b, (replaceAll a p m).
  - left. split; [reflexivity | now apply find_None].
Qed.

Lemma replaceAll_keeps_marker (s p : jsstring) :
  p <> [] -> occurs REDACTED s -> occurs REDACTED (replaceAll s p REDACTED).
Proof.
  intros Hp H. destruct (replaceAll_changed s p REDACTED Hp) as [[-> _]|[_ H']];
    assumption.
Qed.

Lemma fold_keeps_marker (ps : list jsstring) :
  (forall p, In p ps -> p <> []) ->
  forall s, occurs REDACTED s -> occurs REDACTED (fold_left replace_step ps s).
Proof.
  induction ps as [|p ps IH]; intros Hps s H; [exact H|].
  simpl. apply IH; [intros q Hq; apply Hps; now right|].
  apply replaceAll_keeps_marker; [apply Hps; now left | exact H].
Qed.

Lemma maskValue_keeps_marker (w s : jsstring) :
  occurs REDACTED s -> occurs REDACTED (maskValue s w).
Proof.
  intros H. rewrite maskValue_patterns.
  apply (fold_keeps_marker (patterns w)); [|exact H].
  intros p. apply patterns_nonempty.
Qed.

Lemma maskValues_keep_marker (ws : list jsstring) (s : jsstring) :
  occurs REDACTED s -> occurs REDACTED (fold_left maskValue ws s).
Proof.
  revert s; induction ws as [|w ws IH]; intros s H; [exact H|].
  simpl. apply IH. now apply maskValue_keeps_marker.
Qed.

(** The round of a value that occurs in the text writes the marker. *)
Lemma maskValue_marks (v s : jsstring) :
  v <> [] -> occurs v s -> occurs REDACTED (maskValue s v).
Proof.
  intros Hv H. rewrite maskValue_patterns.
  destruct (patterns_value v Hv) as [ps E].
  pose proof (patterns_nonempty v) as Hne. rewrite E in *. simpl.
  apply (fold_keeps_marker ps).
  - intros q Hq. apply Hne. now right.
  - destruct (replaceAll_changed s v REDACTED Hv) as [[_ H']|[_ H']];
      [contradiction | exact H'].
Qed.

(** A round either leaves the text as it is or writes the marker. *)
Lemma maskValue_changed (w s : jsstring) :
  maskValue s w = s \/ occurs REDACTED (maskValue s w).
Proof.
  rewrite maskValue_patterns.
  pose proof (patterns_nonempty w) as Hne.
  revert s Hne. generalize (patterns w) as ps.
  induction ps as [|p ps IH]; intros s Hne; [now left|].
  simpl.
  assert (Hp : p <> []) by (apply Hne; now left).
  assert (Hps : forall q, In q ps -> q <> []) by (intros q Hq; apply Hne; now right).
  destruct (replaceAll_changed s p REDACTED Hp) as [[E _]|[_ H]].
  - rewrite E. now apply IH.
  - right. now apply (fold_keeps_marker ps).
Qed.

Lemma maskValues_mark (v : jsstring) (ws : list jsstring) :
  v <> [] -> In v ws ->
  forall s, occurs v s -> occurs REDACTED (fold_left maskValue ws s).
Proof.
  intros Hv. induction ws as [|w ws IH]; intros Hin s H; [contradiction|].
  simpl. destruct Hin as [->|Hin].
  - apply maskValues_keep_marker. now apply maskValue_marks.
  - destruct (maskValue_changed w s) as [E|Hm].
    + rewrite E. now apply IH.
    + now apply maskValues_keep_marker.
Qed.

End Marker.

(** ** [truncateOutput] *)

Section Truncate.

Lemma byteLength_notice : byteLength TRUNCATION_MESSAGE = 41%Z.
Proof. reflexivity. Qed.

Lemma max_output_bytes : MAX_OUTPUT_BYTES = 1048576%Z.
Proof. reflexivity. Qed.

Lemma byteLength_nonneg (s : jsstring) : (0 <= byteLength s)%Z.
Proof. unfold byteLength. lia. Qed.

Lemma length_slice (s : jsstring) (n : nat) :
  length (slice_to_minus s n) = length s - n.
Proof. unfold slice_to_minus. rewrite length_firstn. lia. Qed.

Lemma kept_slice (s : jsstring) (k : nat) :
  kept (slice_to_minus s 1000) k = kept s (S k).
Proof.
  unfold kept. rewrite length_slice. unfold slice_to_minus.
  rewrite firstn_firstn. f_equal. lia.
Qed.

Lemma kept_0 (s : jsstring) : kept s 0 = s.
Proof. unfold kept. apply firstn_all2. lia. Qed.

Section Loop.

(** The ceiling [truncateOutput] is called with. *)
Variable maxBytes : Z.

Lemma shrink_eq (n : nat) (s : jsstring) :
  shrink n s maxBytes =
  if (byteLength s >? maxBytes - byteLength TRUNCATION_MESSAGE)%Z then
    match n with
    | O => None
    | S n' => shrink n' (slice_to_minus s 1000) maxBytes
    end
  else Some s.
Proof. destruct n; reflexivity. Qed.

Lemma shrink_fits (n : nat) (s : jsstring) :
  fits maxBytes s -> shrink n s maxBytes = Some s.
Proof.
  unfold fits. intros H. rewrite shrink_eq.
  destruct (Z.gtb_spec (byteLength s) (maxBytes - byteLength TRUNCATION_MESSAGE));
    [lia | reflexivity].
Qed.

Lemma shrink_step (n : nat) (s : jsstring) :
  ~ fits maxBytes s ->
  shrink (S n) s maxBytes = shrink n (slice_to_minus s 1000) maxBytes.
Proof.
  unfold fits. intros H. rewrite shrink_eq.
  destruct (Z.gtb_spec (byteLength s) (maxBytes - byteLength TRUNCATION_MESSAGE));
    [reflexivity | lia].
Qed.

Lemma shrink_stuck (s : jsstring) :
  ~ fits maxBytes s -> shrink 0 s maxBytes = None.
Proof.
  unfold fits. intros H. rewrite shrink_eq.
  destruct (Z.gtb_spec (byteLength s) (maxBytes - byteLength TRUNCATION_MESSAGE));
    [reflexivity | lia].
Qed.

Lemma fits_dec (s : jsstring) : {fits maxBytes s} + {~ fits maxBytes s}.
Proof. unfold fits. apply Z_le_dec. Qed.

(** When the room before the notice is not negative the loop ends. *)
Lemma shrink_total :
  (byteLength TRUNCATION_MESSAGE <= maxBytes)%Z ->
  forall n s, length s <= n -> exists t, shrink n s maxBytes = Some t.
Proof.
  intros Hmax. induction n as [|n IH]; intros s Hn.
  - destruct s; [|simpl in Hn; lia]. exists []. apply shrink_fits.
    unfold fits. change (byteLength []) with 0%Z. lia.
  - destruct (fits_dec s) as [F|F].
    + exists s. now apply shrink_fits.
    + rewrite shrink_step by assumption. apply IH.
      rewrite length_slice. lia.
Qed.

(** The loop stops at the first text of the sequence [kept s 0],
    [kept s 1], ... that fits. *)
Lemma shrink_spec (n : nat) :
  forall s t, shrink n s maxBytes = Some t ->
  exists k, t = kept s k /\ fits maxBytes t
            /\ forall j, j < k -> ~ fits maxBytes (kept s j).
Proof.
  induction n as [|n IH]; intros s t H; destruct (fits_dec s) as [F|F].
  - rewrite shrink_fits in H by assumption. injection H as <-.
    exists 0. rewrite kept_0. repeat split; auto. intros j Hj; lia.
  - rewrite shrink_stuck in H by assumption. discriminate.
  - rewrite shrink_fits in H by assumption. injection H as <-.
    exists 0. rewrite kept_0. repeat split; auto. intros j Hj; lia.
  - rewrite shrink_step in H by assumption.
    apply IH in H as (k & -> & Hk & Hj).
    exists (S k). rewrite kept_slice. repeat split; auto.
    + now rewrite <- kept_slice.
    + intros [|j] Hlt; [now rewrite kept_0|].
      rewrite <- kept_slice. apply Hj. lia.
Qed.

(** When there is no room for the notice, the loop never ends on a text
    beyond the ceiling. *)
Lemma shrink_diverges :
  (maxBytes < byteLength TRUNCATION_MESSAGE)%Z ->
  forall n s, length s <= n -> shrink n s maxBytes = None.
Proof.
  intros Hmax.
  assert (Hno : forall s, ~ fits maxBytes s).
  { intros s. unfold fits. pose proof (byteLength_nonneg s). lia. }
  induction n as [|n IH]; intros s Hn.
  - now apply shrink_stuck.
  - rewrite shrink_step by apply Hno. apply IH. rewrite length_slice. lia.
Qed.

Lemma truncateOutput_small (text : jsstring) :
  (byteLength text <= maxBytes)%Z ->
  truncateOutput text maxBytes = Some (text, false).
Proof.
  intros H. unfold truncateOutput.
  destruct (Z.leb_spec (byteLength text) maxBytes); [reflexivity | lia].
Qed.

Lemma truncateOutput_large (text : jsstring) :
  (maxBytes < byteLength text)%Z ->
  truncateOutput text maxBytes =
  match shrink (length text) text maxBytes with
  | Some truncated => Some (truncated ++ TRUNCATION_MESSAGE, true)
  | None => None
  end.
Proof.
  intros H. unfold truncateOutput.
  destruct (Z.leb_spec (byteLength text) maxBytes); [lia | reflexivity].
Qed.

End Loop.

(** With the ceiling of the tool the truncation always returns. *)
Lemma truncateOutput_total (text : jsstring) :
  exists t flag, truncateOutput text MAX_OUTPUT_BYTES = Some (t, flag)
    /\ ((byteLength text <= MAX_OUTPUT_BYTES)%Z -> t = text /\ flag = false).
Proof.
  destruct (Z_le_dec (byteLength text) MAX_OUTPUT_BYTES) as [H|H].
  - exists text, false. split; [now apply truncateOutput_small | auto].
  - rewrite truncateOutput_large by lia.
    destruct (shrink_total MAX_OUTPUT_BYTES) with (n := length text) (s := text)
      as [t E]; [rewrite byteLength_notice, max_output_bytes; lia | lia |].
    rewrite E. eexists _, _. split; [reflexivity | lia].
Qed.

End Truncate.

(** ** Texts beyond the ceiling *)

Section LargeTexts.

Lemma utf8_encode_ascii (c : N) (s : jsstring) :
  (c < 0x80)%N -> utf8_encode (c :: s) = c :: utf8_encode s.
Proof.
  intros H. cbn [utf8_encode]. unfold is_high, is_low, utf8_of_cp.
  destruct (N.leb_spec 0xD800 c); [lia|].
  destruct (N.leb_spec 0xDC00 c); [lia|]. simpl andb. cbv iota.
  destruct (N.ltb_spec c 0x80); [reflexivity | lia].
Qed.

Lemma utf8_encode_repeat (c : N) (n : nat) :
  (c < 0x80)%N -> utf8_encode (repeat c n) = repeat c n.
Proof.
  intros H. induction n as [|n IH]; [reflexivity|].
  cbn [repeat]. rewrite utf8_encode_ascii by assumption. now rewrite IH.
Qed.

Lemma byteLength_repeat (c : N) (n : nat) :
  (c < 0x80)%N -> byteLength (repeat c n) = Z.of_nat n.
Proof.
  intros H. unfold byteLength.
  now rewrite utf8_encode_repeat, repeat_length by assumption.
Qed.

Lemma firstn_repeat_le (c : N) (k n : nat) :
  k <= n -> firstn k (repeat c n) = repeat c k.
Proof.
  revert n; induction k as [|k IH]; intros n H; [reflexivity|].
  destruct n as [|n]; [lia|]. cbn [repeat firstn]. f_equal. apply IH. lia.
Qed.

Lemma emojis_S (m : nat) : emojis (S m) = emoji ++ emojis m.
Proof. reflexivity. Qed.

Lemma utf8_encode_emoji (s : jsstring) :
  utf8_encode (emoji ++ s) = [0xF0; 0x9F; 0x98; 0x80]%N ++ utf8_encode s.
Proof. reflexivity. Qed.

Lemma length_emojis (m : nat) : length (emojis m) = 2 * m.
Proof.
  induction m as [|m IH]; [reflexivity|].
  rewrite emojis_S, length_app, IH. simpl length. lia.
Qed.

Lemma byteLength_emojis (m : nat) (rest : jsstring) :
  byteLength (emojis m ++ rest) = (4 * Z.of_nat m + byteLength rest)%Z.
Proof.
  unfold byteLength. induction m as [|m IH]; [simpl app; lia|].
  rewrite emojis_S, <- app_assoc, utf8_encode_emoji, length_app.
  simpl length at 1. lia.
Qed.

Lemma isWellFormed_emojis (m : nat) (rest : jsstring) :
  isWellFormed (emojis m ++ rest) = isWellFormed rest.
Proof.
  induction m as [|m IH]; [reflexivity|].
  rewrite emojis_S, <- app_assoc. exact IH.
Qed.

(** Cutting a run of pairs at an odd length leaves half a pair. *)
Lemma firstn_emojis_odd (j m : nat) (rest : jsstring) :
  j < m ->
  firstn (2 * j + 1) (emojis m ++ rest) = emojis j ++ [0xD83D%N].
Proof.
  revert m; induction j as [|j IH]; intros m H.
  - destruct m as [|m]; [lia|]. reflexivity.
  - destruct m as [|m]; [lia|].
    replace (2 * S j + 1) with (S (S (2 * j + 1))) by lia.
    rewrite !emojis_S, <- !app_assoc.
    change (emoji ++ emojis m ++ rest)
      with (0xD83D%N :: 0xDE00%N :: emojis m ++ rest).
    change (emoji ++ emojis j ++ [0xD83D%N])
      with (0xD83D%N :: 0xDE00%N :: emojis j ++ [0xD83D%N]).
    cbn [firstn]. do 2 f_equal. apply IH. lia.
Qed.

End LargeTexts.

(** ** Replacements that commute *)

Section Commute.

Lemma startsWith_app_l (x z p : jsstring) :
  length p <= length x -> startsWith (x ++ z) p = startsWith x p.
Proof.
  revert x; induction p as [|a p IH]; intros x H; [reflexivity|].
  destruct x as [|y x]; [simpl in H; lia|].
  simpl. f_equal. apply IH. simpl in H. lia.
Qed.

Lemma find_app_l (x z p b a : jsstring) :
  find x p = Some (b, a) -> find (x ++ z) p = Some (b, a ++ z).
Proof.
  revert b a; induction x as [|c x IH]; intros b a H.
  - rewrite find_eq in H. destruct (startsWith [] p) eqn:E; [|discriminate].
    destruct p; [|discriminate]. injection H as <- <-. simpl.
    rewrite find_eq. reflexivity.
  - pose proof (find_Some _ _ _ _ H) as Hx.
    rewrite find_eq in H. rewrite find_eq.
    assert (Hlen : length p <= length (c :: x)).
    { rewrite Hx, !length_app. lia. }
    rewrite startsWith_app_l by assumption.
    destruct (startsWith (c :: x) p) eqn:E.
    + injection H as <- <-. f_equal. f_equal.
      rewrite skipn_app.
      replace (length p - length (c :: x)) with 0 by lia. reflexivity.
    + destruct (find x p) as [[b' a']|] eqn:F; [|discriminate].
      injection H as <- <-. cbn [app]. now rewrite (IH b' a' eq_refl).
Qed.

Lemma occurs_cons (p x : jsstring) (c : N) : occurs p x -> occurs p (c :: x).
Proof. intros (l & r & ->). now exists (c :: l), r. Qed.

Lemma nostraddle_cons (p x z : jsstring) (c : N) :
  nostraddle p (c :: x) z -> nostraddle p x z.
Proof.
  intros H l r E.
  destruct (H (c :: l) r) as [[r' Hx]|[l' [Hz Hl]]].
  - simpl. now rewrite E.
  - left. exists r'. now injection Hx.
  - right. exists l'. split; [assumption | now injection Hl].
Qed.

(** A search skips a text that no occurrence starts in. *)
Lemma find_skip (p x z : jsstring) :
  ~ occurs p x -> nostraddle p x z ->
  find (x ++ z) p =
  match find z p with
  | Some (b, a) => Some (x ++ b, a)
  | None => None
  end.
Proof.
  induction x as [|c x IH]; intros Hx Hn.
  - simpl. now destruct (find z p) as [[b a]|].
  - rewrite find_eq. destruct (startsWith ((c :: x) ++ z) p) eqn:E.
    + exfalso. apply startsWith_iff in E as [r E].
      destruct (Hn [] r E) as [[r' H]|[l' [_ H]]]; [|discriminate].
      apply Hx. now exists [], r'.
    + cbn [app]. rewrite IH.
      * now destruct (find z p) as [[b a]|].
      * intros H. apply Hx. now apply occurs_cons.
      * now apply nostraddle_cons in Hn.
Qed.

Lemma find_drop_prefix (p x z b a : jsstring) :
  find (x ++ z) p = Some (x ++ b, a) -> p <> [] -> find z p = Some (b, a).
Proof.
  intros H Hp. induction x as [|c x IH]; [exact H|].
  rewrite find_eq in H. destruct (startsWith ((c :: x) ++ z) p).
  - discriminate.
  - cbn [app] in H. destruct (find (x ++ z) p) as [[b' a']|]; [|discriminate].
    injection H as -> ->. now apply IH.
Qed.

(** Whether an occurrence is the leftmost does not depend on what follows it. *)
Lemma find_tail (q b a z : jsstring) :
  find (b ++ q ++ a) q = Some (b, a) -> find (b ++ q ++ z) q = Some (b, z).
Proof.
  induction b as [|c b IH]; intros H.
  - simpl. rewrite find_eq, startsWith_app, skipn_length_app. reflexivity.
  - rewrite find_eq in H. rewrite find_eq.
    assert (Hl : length q <= length ((c :: b) ++ q)) by (rewrite length_app; lia).
    replace ((c :: b) ++ q ++ a) with (((c :: b) ++ q) ++ a) in H by list_eq.
    replace ((c :: b) ++ q ++ z) with (((c :: b) ++ q) ++ z) by list_eq.
    rewrite startsWith_app_l in H by assumption.
    rewrite startsWith_app_l by assumption.
    destruct (startsWith ((c :: b) ++ q) q); [discriminate|].
    replace (((c :: b) ++ q) ++ a) with (c :: b ++ q ++ a) in H by list_eq.
    replace (((c :: b) ++ q) ++ z) with (c :: b ++ q ++ z) by list_eq.
    destruct (find (b ++ q ++ a) q) as [[b' a']|]; [|discriminate].
    injection H as -> ->. now rewrite IH.
Qed.

Lemma first_at_of_find (q s b a : jsstring) :
  find s q = Some (b, a) -> first_at q b.
Proof.
  intros H. pose proof (find_Some _ _ _ _ H) as E. subst s.
  unfold first_at. apply find_tail with (z := []) in H.
  now rewrite app_nil_r in H.
Qed.

Lemma first_at_find (q b z : jsstring) :
  first_at q b -> find (b ++ q ++ z) q = Some (b, z).
Proof.
  unfold first_at. intros H. apply find_tail with (a := []).
  now rewrite app_nil_r.
Qed.

Lemma first_at_absent (q b : jsstring) : q <> [] -> first_at q b -> ~ occurs q b.
Proof. intros Hq H. eapply find_before; eauto. Qed.

(** [replaceAll] works on the two sides of a place that no occurrence
    crosses independently. *)
Lemma replaceAll_app (p m x z : jsstring) :
  p <> [] -> nostraddle p x z ->
  replaceAll (x ++ z) p m = replaceAll x p m ++ replaceAll z p m.
Proof.
  intros Hp. revert x.
  apply (find_ind p
    (fun x => nostraddle p x z ->
       replaceAll (x ++ z) p m = replaceAll x p m ++ replaceAll z p m) Hp).
  - intros x E Hn.
    rewrite (replaceAll_eq (x ++ z)), (replaceAll_eq x), (replaceAll_eq z), E
      by assumption.
    rewrite find_skip; [|now apply find_None | assumption].
    destruct (find z p) as [[b a]|]; list_eq.
  - intros x b a E IH Hn.
    rewrite (replaceAll_eq (x ++ z)), (replaceAll_eq x), E by assumption.
    rewrite (find_app_l _ _ _ _ _ E). rewrite IH; [list_eq|].
    apply find_Some in E. subst x. intros l r H.
    destruct (Hn ((b ++ p) ++ l) r) as [[r' Hx]|[l' [Hz Hl]]].
    + rewrite <- !app_assoc. do 2 f_equal. exact H.
    + left. exists r'. rewrite <- !app_assoc in Hx.
      now apply app_inv_head, app_inv_head in Hx.
    + right. exists l'. split; [assumption|].
      rewrite <- !app_assoc in Hl.
      now apply app_inv_head, app_inv_head in Hl.
Qed.

(** [replaceAll] of [p] passes over a text that [p] cannot overlap. *)
Lemma replaceAll_around (p q m x y : jsstring) :
  overlaps p q = false ->
  replaceAll (x ++ q ++ y) p m = replaceAll x p m ++ q ++ replaceAll y p m.
Proof.
  intros H. pose proof (overlaps_nonempty _ _ H) as Hp.
  pose proof (overlaps_false _ _ H) as (_ & _ & _ & Hq).
  assert (N1 : nostraddle p x (q ++ y)).
  { intros l r E. symmetry in E.
    destruct (no_overlap_split p q l r x y H E) as [[r' [Hx _]]|[l' [Hy Hl]]].
    - left. now exists r'.
    - right. exists (q ++ l'). split; [rewrite Hy; list_eq | exact Hl]. }
  assert (N2 : nostraddle p q y).
  { intros l r E. symmetry in E.
    destruct (no_overlap_split p q l r [] y H E) as [[r' [Hx _]]|[l' [Hy Hl]]].
    - exfalso. symmetry in Hx. apply app_eq_nil in Hx as [_ Hx].
      apply app_eq_nil in Hx as [Hx _]. contradiction.
    - right. exists l'. auto. }
  rewrite (replaceAll_app p m x (q ++ y) Hp N1), (replaceAll_app p m q y Hp N2).
  now rewrite (replaceAll_absent q).
Qed.

(** Replacing [p] before the leftmost [q] leaves that [q] the leftmost. *)
Lemma first_at_replaceAll (p q m : jsstring) :
  p <> [] -> q <> [] -> overlaps q m = false ->
  forall b, first_at q b -> first_at q (replaceAll b p m).
Proof.
  intros Hp Hq Hm.
  apply (find_ind p
    (fun b => first_at q b -> first_at q (replaceAll b p m)) Hp).
  - intros b E H. now rewrite replaceAll_eq, E.
  - intros s b a E IH H. rewrite replaceAll_eq, E by assumption.
    apply find_Some in E. subst s.
    assert (Ha : first_at q a).
    { unfold first_at in *.
      apply (find_drop_prefix q (b ++ p)); [|assumption].
      rewrite <- !app_assoc. rewrite <- !app_assoc in H. exact H. }
    specialize (IH Ha).
    assert (Hb : ~ occurs q b).
    { intros Ho. apply (first_at_absent _ _ Hq H). auto with occurs. }
    unfold first_at.
    replace ((b ++ m ++ replaceAll a p m) ++ q)
      with ((b ++ m) ++ (replaceAll a p m ++ q)) by list_eq.
    rewrite find_skip.
    + unfold first_at in IH. rewrite IH. f_equal. f_equal. list_eq.
    + intros Ho. replace (b ++ m) with (b ++ m ++ []) in Ho by list_eq.
      apply no_overlap_occurs in Ho as [Ho|(l & r & Ho)]; [contradiction| |assumption].
      symmetry in Ho. apply app_eq_nil in Ho as [_ Ho].
      apply app_eq_nil in Ho as [Ho _]. contradiction.
    + intros l r Ho. rewrite <- app_assoc in Ho. symmetry in Ho.
      destruct (no_overlap_split q m l r b _ Hm Ho) as [[r' [Hx _]]|[l' [Hy Hl]]].
      * exfalso. apply Hb. now exists l, r'.
      * right. exists l'. split; [assumption | rewrite Hl; list_eq].
Qed.

(** One round of the argument: the leftmost [q] is replaced in both orders. *)
Lemma commute_round (p q m s b a : jsstring) :
  overlaps p q = false -> overlaps p m = false -> overlaps q m = false ->
  find s q = Some (b, a) ->
  replaceAll (replaceAll a p m) q m = replaceAll (replaceAll a q m) p m ->
  replaceAll (replaceAll s p m) q m = replaceAll (replaceAll s q m) p m.
Proof.
  intros Hpq Hpm Hqm E IH.
  pose proof (overlaps_nonempty _ _ Hpm) as Hp.
  pose proof (overlaps_nonempty _ _ Hqm) as Hq.
  pose proof (first_at_of_find _ _ _ _ E) as Hf.
  rewrite (replaceAll_eq s q), E by assumption.
  apply find_Some in E. subst s.
  rewrite (replaceAll_around p q m b a Hpq).
  rewrite (replaceAll_around p m m b (replaceAll a q m) Hpm).
  rewrite (replaceAll_eq _ q) by assumption.
  rewrite (first_at_find q (replaceAll b p m)).
  - now rewrite IH.
  - now apply first_at_replaceAll.
Qed.

Lemma replaceAll_commute (p q m : jsstring) :
  overlaps p q = false -> overlaps p m = false -> overlaps q m = false ->
  forall s,
  replaceAll (replaceAll s p m) q m = replaceAll (replaceAll s q m) p m.
Proof.
  intros Hpq Hpm Hqm s.
  pose proof (overlaps_nonempty _ _ Hpm) as Hp.
  pose proof (overlaps_nonempty _ _ Hqm) as Hq.
  remember (length s) as n eqn:Hn. revert s Hn.
  induction n as [n IH] using lt_wf_ind. intros s ->.
  assert (Hshort : forall x b a, x <> [] -> find s x = Some (b, a) ->
                                 length a < length s).
  { intros x b a Hx E. apply find_Some in E. subst s.
    rewrite !length_app. destruct x; [congruence | simpl; lia]. }
  destruct (find s q) as [[b a]|] eqn:Eq.
  - apply (commute_round p q m s b a); auto.
    apply (IH (length a)); [exact (Hshort q b a Hq Eq) | reflexivity].
  - destruct (find s p) as [[b a]|] eqn:Ep.
    + symmetry. apply (commute_round q p m s b a); auto.
      * now rewrite overlaps_sym.
      * symmetry.
        apply (IH (length a)); [exact (Hshort p b a Hp Ep) | reflexivity].
    + now rewrite (replaceAll_eq s p), Ep, (replaceAll_eq s q), Eq,
        (replaceAll_eq s p), Ep by assumption.
Qed.

End Commute.

(** ** The order of the secrets *)

Section Order.

Lemma fold_step_commute (q : jsstring) (ps : list jsstring) :
  (forall p, In p ps ->
     forall s, replace_step (replace_step s p) q
               = replace_step (replace_step s q) p) ->
  forall s,
  fold_left replace_step ps (replace_step s q)
  = replace_step (fold_left replace_step ps s) q.
Proof.
  induction ps as [|p ps IH]; intros H s; [reflexivity|].
  simpl. rewrite <- (H p (or_introl eq_refl)).
  apply IH. intros p' Hp'. apply H. now right.
Qed.

Lemma fold_fold_commute (ps qs : list jsstring) :
  (forall p q, In p ps -> In q qs ->
     forall s, replace_step (replace_step s p) q
               = replace_step (replace_step s q) p) ->
  forall s,
  fold_left replace_step qs (fold_left replace_step ps s)
  = fold_left replace_step ps (fold_left replace_step qs s).
Proof.
  revert ps; induction qs as [|q qs IH]; intros ps H s; [reflexivity|].
  simpl. rewrite <- fold_step_commute.
  - apply IH. intros p q' Hp Hq'. apply H; [assumption | now right].
  - intros p Hp. apply H; [assumption | now left].
Qed.

Lemma marker_safe_spec (v p : jsstring) :
  marker_safe v = true -> In p (patterns v) -> overlaps p REDACTED = false.
Proof.
  unfold marker_safe. rewrite forallb_forall. intros H Hp.
  apply H in Hp. now apply negb_true_iff in Hp.
Qed.

Lemma interferes_spec (v w p q : jsstring) :
  interferes v w = false ->
  In p (patterns v) -> In q (patterns w) -> overlaps p q = false.
Proof.
  unfold interferes. intros H Hp Hq.
  destruct (overlaps p q) eqn:E; [|reflexivity].
  assert (existsb (fun p => existsb (fun q => overlaps p q) (patterns w))
            (patterns v) = true); [|congruence].
  apply existsb_exists. exists p. split; [assumption|].
  apply existsb_exists. now exists q.
Qed.

(** The rounds of two values commute when the values are equal or their
    search strings cannot overlap each other or the marker. *)
Lemma maskValue_commute (v w s : jsstring) :
  marker_safe v = true -> marker_safe w = true ->
  eqb v w || negb (interferes v w) = true ->
  maskValue (maskValue s v) w = maskValue (maskValue s w) v.
Proof.
  intros Hv Hw H. apply orb_true_iff in H as [H|H].
  - apply eqb_eq in H. now subst.
  - apply negb_true_iff in H. rewrite !maskValue_patterns.
    apply (fold_fold_commute (patterns v) (patterns w)).
    intros p q Hp Hq s'. unfold replace_step. apply replaceAll_commute.
    + exact (interferes_spec v w p q H Hp Hq).
    + exact (marker_safe_spec v p Hv Hp).
    + exact (marker_safe_spec w q Hw Hq).
Qed.

Lemma fold_left_permutation {A B : Type} (f : A -> B -> A) (l l' : list B) :
  Permutation l l' ->
  (forall x y, In x l -> In y l -> forall a, f (f a x) y = f (f a y) x) ->
  forall a, fold_left f l a = fold_left f l' a.
Proof.
  induction 1 as [|x l l' HP IH|x y l|l l' l'' HP1 IH1 HP2 IH2]; intros H a.
  - reflexivity.
  - simpl. apply IH. intros u v Hu Hv. apply H; now right.
  - simpl. rewrite (H y x); [reflexivity | now left | now right; left].
  - rewrite IH1 by assumption. apply IH2. intros u v Hu Hv.
    apply H; eapply Permutation_in; try eassumption; now apply Permutation_sym.
Qed.

Lemma independent_spec (vs : list jsstring) (v w : jsstring) :
  independent vs = true -> In v vs -> In w vs ->
  marker_safe v = true /\ marker_safe w = true
  /\ eqb v w || negb (interferes v w) = true.
Proof.
  unfold independent. rewrite forallb_forall. intros H Hv Hw.
  pose proof (H v Hv) as Hv'. pose proof (H w Hw) as Hw'.
  apply andb_true_iff in Hv' as [Sv Pv]. apply andb_true_iff in Hw' as [Sw _].
  rewrite forallb_forall in Pv. auto.
Qed.

End Order.

(** ** The control flow of [injectRun] *)

Section Flow.

Lemma trim_nil : trim [] = [].
Proof. reflexivity. Qed.

Lemma validation_fails (a : Args) :
  trim (command a) = [] ->
  negb (truthy (command a)) || negb (truthy (trim (command a))) = true.
Proof. intros H. rewrite H. apply orb_true_r. Qed.

Lemma validation_passes (a : Args) :
  trim (command a) <> [] ->
  negb (truthy (command a)) || negb (truthy (trim (command a))) = false.
Proof.
  intros H. destruct (command a) as [|c s] eqn:E; [now rewrite trim_nil in H|].
  destruct (trim (c :: s)); [congruence | reflexivity].
Qed.

Lemma injectRun_invalid (w : World) (a : Args) :
  trim (command a) = [] ->
  injectRun w a =
  ([], Value {| content := Text (lit "Error: command is required");
                isError := true |}).
Proof. intros H. unfold injectRun. now rewrite validation_fails. Qed.

(** A run that passes validation starts by asking for the token. *)
Lemma injectRun_valid (w : World) (a : Args) :
  trim (command a) <> [] ->
  exists rest, calls_of w a = GetToken :: rest.
Proof.
  intros H. unfold calls_of, injectRun. rewrite validation_passes by assumption.
  unfold bind at 1. unfold call at 1.
  destruct (settle (getToken w)) as [token|e|].
  - match goal with
    | |- context [let (t', c) := ?k in _] => destruct k as [t' c]
    end.
    now exists t'.
  - now exists [].
  - now exists [].
Qed.

Lemma on_close_returns (secrets : SecretMap) (code : option Z)
  (out err : list Chunk) :
  exists t1 f1 t2 f2,
    truncateOutput (fst (capture out)) MAX_OUTPUT_BYTES = Some (t1, f1)
    /\ truncateOutput (fst (capture err)) MAX_OUTPUT_BYTES = Some (t2, f2)
    /\ on_close secrets code out err =
       Value {|
         exitCode := exit_code_of code;
         stdout := maskSecrets t1 secrets;
         stderr := maskSecrets t2 secrets;
         stdoutTruncated :=
           f1 || (MAX_OUTPUT_BYTES <=? snd (capture out))%Z;
         stderrTruncated :=
           f2 || (MAX_OUTPUT_BYTES <=? snd (capture err))%Z
       |}.
Proof.
  unfold on_close.
  destruct (capture out) as [so bo], (capture err) as [se be]. simpl fst; simpl snd.
  destruct (truncateOutput_total so) as (t1 & f1 & E1 & _).
  destruct (truncateOutput_total se) as (t2 & f2 & E2 & _).
  exists t1, f1, t2, f2. rewrite E1, E2. auto.
Qed.

(** A run whose collaborators answer reaches [spawn], with these calls. *)
Lemma injectRun_calls (w : World) (a : Args) (token repository content : jsstring) :
  trim (command a) <> [] ->
  getToken w = inr token ->
  getRepository w = inr repository ->
  pullSecrets w repository (environment_of a) token = inr content ->
  calls_of w a =
  [GetToken; GetRepository;
   PullSecrets repository (environment_of a) token;
   Spawn (command a) (args_of a)
     (spread (process_env w) (parseEnvContent w content)) (timeout_of a)].
Proof.
  intros Hc Ht Hr Hp. unfold calls_of, injectRun.
  rewrite validation_passes by assumption.
  unfold bind, call, run_command. rewrite Ht, Hr. simpl settle. cbv iota beta.
  rewrite Hp. simpl settle. cbv iota beta.
  destruct (spawn w (command a) (args_of a)
              (spread (process_env w) (parseEnvContent w content))
              (timeout_of a)) as [m| |code out err]; try reflexivity.
  destruct (on_close_returns (parseEnvContent w content) code out err)
    as (t1 & f1 & t2 & f2 & _ & _ & ->).
  reflexivity.
Qed.

(** The result of a run whose child closes. *)
Lemma injectRun_closes (w : World) (a : Args) (token repository content : jsstring)
  (code : option Z) (out err : list Chunk) :
  trim (command a) <> [] ->
  getToken w = inr token ->
  getRepository w = inr repository ->
  pullSecrets w repository (environment_of a) token = inr content ->
  process_of w a content = Closes code out err ->
  exists t1 f1 t2 f2 ws,
    truncateOutput (fst (capture out)) MAX_OUTPUT_BYTES = Some (t1, f1)
    /\ truncateOutput (fst (capture err)) MAX_OUTPUT_BYTES = Some (t2, f2)
    /\ completion_of w a =
       Value {|
         content := Json {|
           response_exitCode := exit_code_of code;
           response_stdout := maskSecrets t1 (parseEnvContent w content);
           response_stderr := maskSecrets t2 (parseEnvContent w content);
           secretsInjected := length (keys (parseEnvContent w content));
           warnings := ws
         |};
         isError := negb (exit_code_of code =? 0)%Z
       |}.
Proof.
  intros Hc Ht Hr Hp Hs. unfold process_of in Hs.
  destruct (on_close_returns (parseEnvContent w content) code out err)
    as (t1 & f1 & t2 & f2 & E1 & E2 & E).
  exists t1, f1, t2, f2. eexists. split; [exact E1|]. split; [exact E2|].
  unfold completion_of, injectRun. rewrite validation_passes by assumption.
  unfold bind, call, run_command. rewrite Ht, Hr. simpl settle. cbv iota beta.
  rewrite Hp. simpl settle. cbv iota beta. rewrite Hs, E. reflexivity.
Qed.

End Flow.

(** ** Characters that rule an occurrence out *)

Section Characters.

Lemma occurs_In (p s : jsstring) (c : N) : occurs p s -> In c p -> In c s.
Proof.
  intros (l & r & ->) H. apply in_or_app. right. apply in_or_app. now left.
Qed.

Lemma absent_char (c : N) (p s : jsstring) :
  In c p -> ~ In c s -> ~ occurs p s.
Proof. intros Hp Hs Ho. apply Hs. eapply occurs_In; eauto. Qed.

Lemma In_existsb (c : N) (s : jsstring) :
  existsb (N.eqb c) s = false -> ~ In c s.
Proof.
  intros H Hin. assert (existsb (N.eqb c) s = true); [|congruence].
  apply existsb_exists. exists c. split; [assumption | apply N.eqb_refl].
Qed.

Lemma utf8_encode_repeat_app (c : N) (n : nat) (rest : jsstring) :
  (c < 0x80)%N ->
  utf8_encode (repeat c n ++ rest) = repeat c n ++ utf8_encode rest.
Proof.
  intros H. induction n as [|n IH]; [reflexivity|].
  cbn [repeat app]. rewrite utf8_encode_ascii by assumption. now rewrite IH.
Qed.

Lemma byteLength_repeat_app (c : N) (n : nat) (rest : jsstring) :
  (c < 0x80)%N ->
  byteLength (repeat c n ++ rest) = (Z.of_nat n + byteLength rest)%Z.
Proof.
  intros H. unfold byteLength.
  rewrite utf8_encode_repeat_app, length_app, repeat_length by assumption. lia.
Qed.

Lemma truthy_app_r (x y : jsstring) : truthy y = true -> truthy (x ++ y) = true.
Proof. destruct x; [auto | reflexivity]. Qed.

End Characters.

(** ** The base64 form and the marker *)

Section Base64.

Lemma below_spec (n : nat) (P : N -> bool) :
  forallb P (below n) = true ->
  forall y, (y < N.of_nat n)%N -> P y = true.
Proof.
  intros H y Hy. rewrite forallb_forall in H. apply H.
  unfold below. apply in_map_iff. exists (N.to_nat y).
  split; [apply N2Nat.id | apply in_seq; lia].
Qed.

Lemma land_63_lt (x : N) : (N.land x 63 < 64)%N.
Proof.
  change 63%N with (N.ones 6). rewrite N.land_ones.
  apply N.mod_lt. discriminate.
Qed.

Lemma land_7_lt (x : N) : (N.land x 7 < 8)%N.
Proof.
  change 7%N with (N.ones 3). rewrite N.land_ones.
  apply N.mod_lt. discriminate.
Qed.

Lemma continuation_byte (y : N) : (y < 64)%N -> utf8_byte (N.lor 0x80 y) = true.
Proof.
  apply (below_spec 64 (fun y => utf8_byte (N.lor 0x80 y))). reflexivity.
Qed.

Lemma lead2_byte (y : N) :
  (2 <= y)%N -> (y < 32)%N -> utf8_byte (N.lor 0xC0 y) = true.
Proof.
  intros H2 H32.
  pose proof (below_spec 32
    (fun y => (y <? 2)%N || utf8_byte (N.lor 0xC0 y)) eq_refl y H32) as H.
  cbv beta in H. apply orb_true_iff in H as [H|H]; [|exact H].
  apply N.ltb_lt in H. lia.
Qed.

Lemma lead3_byte (y : N) : (y < 16)%N -> utf8_byte (N.lor 0xE0 y) = true.
Proof.
  apply (below_spec 16 (fun y => utf8_byte (N.lor 0xE0 y))). reflexivity.
Qed.

Lemma lead4_byte (y : N) : (y < 8)%N -> utf8_byte (N.lor 0xF0 y) = true.
Proof.
  apply (below_spec 8 (fun y => utf8_byte (N.lor 0xF0 y))). reflexivity.
Qed.

Lemma utf8_of_cp_bytes (cp : N) :
  Forall (fun b => utf8_byte b = true) (utf8_of_cp cp).
Proof.
  unfold utf8_of_cp.
  destruct (N.ltb_spec cp 0x80) as [H1|H1].
  { repeat constructor. unfold utf8_byte.
    destruct (N.ltb_spec cp 256); [|lia].
    destruct (N.eqb_spec cp 0xC0); [lia | reflexivity]. }
  destruct (N.ltb_spec cp 0x800) as [H2|H2].
  { repeat constructor.
    - apply lead2_byte; rewrite N.shiftr_div_pow2; change (2 ^ 6)%N with 64%N.
      + apply N.div_le_lower_bound; lia.
      + apply N.Div0.div_lt_upper_bound; lia.
    - apply continuation_byte, land_63_lt. }
  destruct (N.ltb_spec cp 0x10000) as [H3|H3].
  { repeat constructor.
    - apply lead3_byte. rewrite N.shiftr_div_pow2. change (2 ^ 12)%N with 4096%N.
      apply N.Div0.div_lt_upper_bound; lia.
    - apply continuation_byte, land_63_lt.
    - apply continuation_byte, land_63_lt. }
  repeat constructor.
  - apply lead4_byte, land_7_lt.
  - apply continuation_byte, land_63_lt.
  - apply continuation_byte, land_63_lt.
  - apply continuation_byte, land_63_lt.
Qed.

Lemma utf8_of_cp_pair (c d : N) : length (utf8_of_cp (pair_cp c d)) = 4.
Proof.
  unfold utf8_of_cp, pair_cp.
  destruct (N.ltb_spec (0x10000 + (c - 0xD800) * 0x400 + (d - 0xDC00)) 0x80);
    [lia|].
  destruct (N.ltb_spec (0x10000 + (c - 0xD800) * 0x400 + (d - 0xDC00)) 0x800);
    [lia|].
  destruct (N.ltb_spec (0x10000 + (c - 0xD800) * 0x400 + (d - 0xDC00)) 0x10000);
    [lia | reflexivity].
Qed.

Lemma utf8_of_cp_length (cp : N) : 1 <= length (utf8_of_cp cp).
Proof.
  pose proof (utf8_of_cp_nonempty cp).
  destruct (utf8_of_cp cp); [congruence | simpl; lia].
Qed.

(** Induction on a string one code unit or one pair at a time. *)
Lemma utf8_encode_facts (n : nat) :
  forall s, length s <= n ->
    Forall (fun b => utf8_byte b = true) (utf8_encode s)
    /\ length s <= length (utf8_encode s).
Proof.
  induction n as [|n IH]; intros s Hn.
  - destruct s; [|simpl in Hn; lia]. split; [constructor | reflexivity].
  - destruct s as [|c s]; [split; [constructor | reflexivity]|].
    simpl in Hn.
    destruct (IH s ltac:(lia)) as [IHb IHl].
    cbn [utf8_encode].
    destruct (is_high c).
    + destruct s as [|d s].
      * split; [apply utf8_of_cp_bytes | simpl; lia].
      * destruct (is_low d).
        -- simpl in Hn. destruct (IH s ltac:(lia)) as [IHb' IHl'].
           split; [apply Forall_app; split; [apply utf8_of_cp_bytes | exact IHb']|].
           rewrite length_app, utf8_of_cp_pair. cbn [length] in *. lia.
        -- split; [apply Forall_app; split; [apply utf8_of_cp_bytes | exact IHb]|].
           rewrite length_app. pose proof (utf8_of_cp_length 0xFFFD).
           cbn [length] in *. lia.
    + destruct (is_low c).
      * split; [apply Forall_app; split; [apply utf8_of_cp_bytes | exact IHb]|].
        rewrite length_app. pose proof (utf8_of_cp_length 0xFFFD).
        cbn [length] in *. lia.
      * split; [apply Forall_app; split; [apply utf8_of_cp_bytes | exact IHb]|].
        rewrite length_app. pose proof (utf8_of_cp_length c).
        cbn [length] in *. lia.
Qed.

Lemma utf8_encode_bytes (s : jsstring) :
  Forall (fun b => utf8_byte b = true) (utf8_encode s).
Proof. now apply (utf8_encode_facts (length s)). Qed.

Lemma utf8_encode_length (s : jsstring) : length s <= length (utf8_encode s).
Proof. now apply (utf8_encode_facts (length s)). Qed.

(** The base64 alphabet has no [*]. *)
Lemma b64_char_not_star (i : N) : b64_char i <> 42%N.
Proof.
  unfold b64_char.
  destruct (nth_in_or_default (N.to_nat (N.land i 63)) b64_alphabet b64_pad)
    as [H | ->]; [|discriminate].
  intros E. rewrite E in H. revert H. apply In_existsb. reflexivity.
Qed.

Lemma base64_no_star (bs : list N) : ~ In 42%N (base64 bs).
Proof.
  remember (length bs) as n eqn:Hn. revert bs Hn.
  induction n as [n IH] using lt_wf_ind. intros bs ->.
  destruct bs as [|a [|b [|c rest]]]; cbn [base64 In].
  - tauto.
  - intros [H|[H|[H|[H|[]]]]];
      try (now apply b64_char_not_star in H); discriminate.
  - intros [H|[H|[H|[H|[]]]]];
      try (now apply b64_char_not_star in H); discriminate.
  - intros [H|[H|[H|[H|H]]]];
      try (now apply b64_char_not_star in H).
    revert H. apply (IH (length rest)); [simpl; lia | reflexivity].
Qed.

Lemma base64_length (bs : list N) : 4 <= length bs -> 8 <= length (base64 bs).
Proof.
  destruct bs as [|a [|b [|c [|d rest]]]]; simpl length; try lia.
  intros _. cbn [base64]. simpl length.
  destruct rest as [|e [|f rest]]; simpl; lia.
Qed.

(** In the base64 form that reads [..D A] at the end of a group, the
    third byte of the group is [0xC0]. *)
Lemma base64_DA (b c : N) :
  (b < 256)%N -> (c < 256)%N ->
  b64_char (N.lor (N.shiftl (N.land b 15) 2) (N.shiftr c 6)) = 68%N ->
  b64_char (N.land c 63) = 65%N ->
  c = 0xC0%N.
Proof.
  intros Hb Hc H1 H2.
  assert (Hall : forallb
    (fun b => forallb
       (fun c =>
          negb ((b64_char (N.lor (N.shiftl (N.land b 15) 2) (N.shiftr c 6))
                 =? 68)%N
                && (b64_char (N.land c 63) =? 65)%N)
          || (c =? 0xC0)%N)
       (below 256)) (below 256) = true) by (vm_compute; reflexivity).
  pose proof (below_spec 256 _ Hall b Hb) as H.
  cbv beta in H. pose proof (below_spec 256 _ H c Hc) as H'.
  cbv beta in H'. rewrite H1, H2 in H'. simpl in H'. now apply N.eqb_eq.
Qed.

Lemma utf8_byte_lt (b : N) : utf8_byte b = true -> (b < 256)%N /\ b <> 0xC0%N.
Proof.
  unfold utf8_byte. intros H. apply andb_true_iff in H as [H1 H2].
  apply N.ltb_lt in H1. apply negb_true_iff, N.eqb_neq in H2. auto.
Qed.

(** No UTF-8 text has the base64 form [REDACTED]. *)
Lemma base64_not_REDACTED (s : jsstring) :
  base64 (utf8_encode s) <> lit "REDACTED".
Proof.
  pose proof (utf8_encode_bytes s) as Hb.
  destruct (utf8_encode s) as [|a [|b [|c rest]]]; try discriminate.
  cbn [base64]. intros H.
  change (lit "REDACTED") with [82; 69; 68; 65; 67; 84; 69; 68]%N in H.
  injection H as _ _ H3 H4 _.
  inversion Hb as [|? ? _ Hb1]; subst.
  inversion Hb1 as [|? ? Pb Hb2]; subst.
  inversion Hb2 as [|? ? Pc _]; subst.
  apply utf8_byte_lt in Pb as [Hlb _]. apply utf8_byte_lt in Pc as [Hlc Hne].
  apply Hne. now apply (base64_DA b c).
Qed.

Lemma has_border_head (a b : jsstring) :
  has_border a b = true -> exists c r, b = c :: r /\ In c a.
Proof.
  induction a as [|x a IH]; [discriminate|].
  cbn [has_border]. intros H. apply orb_true_iff in H as [H|H].
  - apply startsWith_iff in H as [r ->]. exists x, (a ++ r). split; [reflexivity | now left].
  - destruct (IH H) as (c & r & -> & Hc). exists c, r. split; [reflexivity | now right].
Qed.

Lemma has_border_last (a b : jsstring) :
  has_border a b = true -> In (last a 0%N) b.
Proof.
  induction a as [|x a IH]; [discriminate|].
  cbn [has_border]. intros H. apply orb_true_iff in H as [H|H].
  - apply startsWith_iff in H as [r ->]. apply in_or_app. left.
    destruct (exists_last (l := x :: a) ltac:(discriminate)) as (l' & y & E).
    rewrite E, last_last. apply in_or_app. right. now left.
  - destruct a as [|y a]; [discriminate|]. now apply IH.
Qed.

Lemma occurs_split_char (b x y : jsstring) (c : N) :
  occurs b (x ++ c :: y) -> ~ In c b -> occurs b x \/ occurs b y.
Proof.
  intros (l & r & E) Hc. apply app_eq_app in E as [t [[-> E]|[-> E]]].
  - apply app_eq_app in E as [u [[-> E]|[-> ->]]].
    + destruct u as [|c' u].
      * simpl in E. rewrite app_nil_r in Hc. left.
        exists l, []. now rewrite !app_nil_r.
      * injection E as -> _. exfalso. apply Hc. apply in_or_app. right. now left.
    + left. exists l, u. list_eq.
  - destruct t as [|c' t].
    + simpl in E. destruct b as [|c' b].
      * left. exists x, []. list_eq.
      * injection E as -> _. exfalso. apply Hc. now left.
    + injection E as _ ->. right. now exists t, r.
Qed.

Lemma occurs_full (b s : jsstring) :
  occurs b s -> length s <= length b -> b = s.
Proof.
  intros (l & r & ->) H. rewrite !length_app in H.
  destruct l; [|simpl in H; lia]. destruct r; [|simpl in H; lia].
  simpl. now rewrite app_nil_r.
Qed.

Lemma occurs_short (b s : jsstring) : occurs b s -> length b <= length s.
Proof. intros (l & r & ->). rewrite !length_app. lia. Qed.

(** The base64 form of a value of four code units or more cannot overlap
    the marker. *)
Lemma base64_clear_of_marker (v : jsstring) :
  4 <= length v -> overlaps (base64 (utf8_encode v)) REDACTED = false.
Proof.
  intros Hv. set (b := base64 (utf8_encode v)).
  assert (Hstar : ~ In 42%N b) by apply base64_no_star.
  assert (Hlen : 8 <= length b).
  { apply base64_length. pose proof (utf8_encode_length v). lia. }
  unfold overlaps.
  destruct (has_border b REDACTED) eqn:B1.
  { apply has_border_head in B1 as (c & r & E & Hc).
    injection E as <- _. contradiction. }
  destruct (has_border REDACTED b) eqn:B2.
  { apply has_border_last in B2. contradiction. }
  destruct (includes b REDACTED) eqn:I1.
  { apply includes_iff in I1. exfalso. revert I1.
    apply (absent_char 42%N); [now left | assumption]. }
  destruct (includes REDACTED b) eqn:I2; [|reflexivity].
  apply includes_iff in I2. exfalso.
  change REDACTED with ([] ++ 42 :: [] ++ 42 :: [] ++ 42 :: lit "REDACTED"
                           ++ 42 :: [] ++ 42 :: [] ++ 42 :: [])%N in I2.
  repeat match goal with
  | H : occurs b (_ ++ 42%N :: _) |- _ =>
      apply occurs_split_char in H; [destruct H as [H|H] | assumption]
  | H : occurs b [] |- _ => apply occurs_short in H; simpl in H; lia
  end.
  apply occurs_full in I2; [|simpl; lia].
  now apply (base64_not_REDACTED v).
Qed.

End Base64.

(** ** The properties of the tool *)

(** *** C1: secret values in the sanitized output *)

(** C1 (amended).  For every secret value [v] of the SecretMap that cannot
    overlap the marker [***REDACTED***] (so [v] is not empty, is no part of
    the marker, does not contain it, and no end of [v] is a beginning of
    the marker or the reverse): the truncation pass returns a text [t],
    which is the raw text when that is within the ceiling; [v] does not
    occur in the sanitized text; and if [v] occurs in [t] then the marker
    occurs in the sanitized text. *)
Theorem maskSecrets_removes_secret
  (raw : jsstring) (secrets : SecretMap) (v : jsstring) :
  In v (values secrets) ->
  overlaps v REDACTED = false ->
  exists t flag,
    truncateOutput raw MAX_OUTPUT_BYTES = Some (t, flag)
    /\ ((byteLength raw <= MAX_OUTPUT_BYTES)%Z -> t = raw)
    /\ ~ occurs v (maskSecrets t secrets)
    /\ (occurs v t -> occurs REDACTED (maskSecrets t secrets)).
Proof.
  intros Hin Hv. pose proof (overlaps_nonempty _ _ Hv) as Hne.
  destruct (truncateOutput_total raw) as (t & flag & E & Hsmall).
  exists t, flag. split; [exact E|]. split; [intros H; now apply Hsmall|].
  unfold maskSecrets. destruct t as [|c t]; simpl negb; cbv iota.
  - split.
    + intros (l & r & H). destruct l; [destruct v|]; simpl in H; congruence.
    + intros (l & r & H). destruct l; [destruct v|]; simpl in H; congruence.
  - split.
    + apply (maskValues_remove v Hv v); auto.
      destruct (patterns_value v Hne) as [ps ->]. now left.
    + now apply maskValues_mark.
Qed.

Lemma maskSecrets_removes_secret_witness :
  In (lit "mysecretvalue123") (values test_secrets)
  /\ overlaps (lit "mysecretvalue123") REDACTED = false
  /\ exists t flag,
       truncateOutput (lit "The secret is mysecretvalue123") MAX_OUTPUT_BYTES
       = Some (t, flag)
       /\ ((byteLength (lit "The secret is mysecretvalue123")
            <= MAX_OUTPUT_BYTES)%Z
           -> t = lit "The secret is mysecretvalue123")
       /\ ~ occurs (lit "mysecretvalue123") (maskSecrets t test_secrets)
       /\ (occurs (lit "mysecretvalue123") t
           -> occurs REDACTED (maskSecrets t test_secrets)).
Proof.
  assert (H1 : In (lit "mysecretvalue123") (values test_secrets))
    by (left; reflexivity).
  assert (H2 : overlaps (lit "mysecretvalue123") REDACTED = false)
    by reflexivity.
  exact (conj H1 (conj H2
    (maskSecrets_removes_secret (lit "The secret is mysecretvalue123")
       test_secrets (lit "mysecretvalue123") H1 H2))).
Defined.

(** C1 as stated fails twice over.  A secret that is part of the marker
    comes back with the marker: for the secret [E] and the output [E] the
    sanitized text is the marker, which contains [E].  And a secret that
    occurs only in what the truncation pass cuts off leaves no marker: for a
    raw text of 1048577 letters [a] followed by the secret [k3y], the
    sanitized text is 1047580 letters [a] and the notice. *)
Lemma maskSecrets_leaves_secret :
  (truncateOutput (lit "E") MAX_OUTPUT_BYTES = Some (lit "E", false)
   /\ maskSecrets (lit "E") [(lit "K", lit "E")] = lit "***REDACTED***"
   /\ occurs (lit "E") (lit "***REDACTED***"))
  /\ (occurs (lit "k3y") (repeat 97%N (N.to_nat 1048577) ++ lit "k3y")
      /\ truncateOutput (repeat 97%N (N.to_nat 1048577) ++ lit "k3y")
           MAX_OUTPUT_BYTES
         = Some (repeat 97%N (N.to_nat 1047580) ++ TRUNCATION_MESSAGE, true)
      /\ maskSecrets (repeat 97%N (N.to_nat 1047580) ++ TRUNCATION_MESSAGE)
           [(lit "K", lit "k3y")]
         = repeat 97%N (N.to_nat 1047580) ++ TRUNCATION_MESSAGE
      /\ ~ occurs REDACTED
             (repeat 97%N (N.to_nat 1047580) ++ TRUNCATION_MESSAGE)).
Proof.
  split.
  - split; [reflexivity|]. split; [reflexivity|].
    apply includes_iff. reflexivity.
  - remember (N.to_nat 1048577) as n eqn:Hn.
    remember (N.to_nat 1047580) as m eqn:Hm.
    assert (Hnm : n = m + 997) by lia.
    assert (Hz : Z.of_nat m = 1047580%Z) by lia.
    clear Hn Hm.
    assert (Hno : forall c, c <> 97%N ->
              existsb (N.eqb c) TRUNCATION_MESSAGE = false ->
              ~ In c (repeat 97%N m ++ TRUNCATION_MESSAGE)).
    { intros c Hc He Hin. apply in_app_or in Hin as [Hin|Hin].
      - apply repeat_spec in Hin. congruence.
      - now apply In_existsb in He. }
    split; [|split; [|split]].
    + now exists (repeat 97%N n), [].
    + rewrite truncateOutput_large.
      2:{ rewrite byteLength_repeat_app, max_output_bytes by reflexivity.
          change (byteLength (lit "k3y")) with 3%Z. lia. }
      rewrite length_app, repeat_length.
      replace (n + length (lit "k3y")) with (S (n + 2)) by (simpl; lia).
      rewrite shrink_step.
      2:{ unfold fits.
          rewrite byteLength_repeat_app, byteLength_notice, max_output_bytes
            by reflexivity.
          change (byteLength (lit "k3y")) with 3%Z. lia. }
      assert (Hs : slice_to_minus (repeat 97%N n ++ lit "k3y") 1000
                   = repeat 97%N m).
      { unfold slice_to_minus. rewrite length_app, repeat_length, firstn_app.
        rewrite repeat_length.
        replace (n + length (lit "k3y") - 1000) with m by (simpl; lia).
        replace (m - n) with 0 by lia.
        rewrite firstn_repeat_le by lia. simpl. now rewrite app_nil_r. }
      rewrite Hs, shrink_fits; [reflexivity|].
      unfold fits.
      rewrite byteLength_repeat, byteLength_notice, max_output_bytes
        by reflexivity.
      lia.
    + unfold maskSecrets. rewrite truthy_app_r by reflexivity.
      simpl negb. cbv iota. cbn [values map snd fold_left].
      unfold maskValue. simpl negb. cbv iota.
      change (4 <=? length (lit "k3y"))%nat with false. cbv iota.
      apply replaceAll_absent; [discriminate|].
      apply (absent_char 107%N); [left; reflexivity|].
      apply Hno; [discriminate | reflexivity].
    + apply (absent_char 42%N); [left; reflexivity|].
      apply Hno; [discriminate | reflexivity].
Qed.

(** *** C2: encoded forms in the sanitized output *)

Lemma patterns_base64 (v : jsstring) :
  4 <= length v -> In (base64 (utf8_encode v)) (patterns v).
Proof.
  intros H. unfold patterns. destruct v as [|c v]; [simpl in H; lia|].
  simpl negb. cbv iota. right.
  destruct (Nat.leb_spec 4 (length (c :: v))); [|lia].
  apply in_or_app. right. now left.
Qed.

Lemma patterns_url (v u : jsstring) :
  4 <= length v -> encodeURIComponent v = Some u -> In u (patterns v).
Proof.
  intros H E. unfold patterns. destruct v as [|c v]; [simpl in H; lia|].
  simpl negb. cbv iota.
  destruct (Nat.leb_spec 4 (length (c :: v))); [|lia].
  rewrite E. destruct (eqb u (c :: v)) eqn:Eu.
  - apply eqb_eq in Eu. subst u. now left.
  - right. apply in_or_app. left. now left.
Qed.

Lemma maskSecrets_removes_pattern (text : jsstring) (secrets : SecretMap)
  (v p : jsstring) :
  In v (values secrets) -> In p (patterns v) ->
  overlaps p REDACTED = false ->
  ~ occurs p (maskSecrets text secrets).
Proof.
  intros Hv Hp Ho. unfold maskSecrets.
  destruct text as [|c text]; simpl negb; cbv iota.
  - intros H. apply occurs_short in H. pose proof (overlaps_nonempty _ _ Ho).
    destruct p; [congruence | simpl in H; lia].
  - now apply (maskValues_remove p Ho v).
Qed.

(** C2 (amended).  For every secret value [v] of at least 4 code units and
    every text handed to the redaction pass: the base64 form of [v] does not
    occur in the sanitized text; the URL-encoded form of [v] does not occur
    in it either, provided that form cannot overlap the marker
    [***REDACTED***]; and when [encodeURIComponent] throws for [v], the
    round of [v] still replaces the literal value and then the base64 form.
    This holds for each secret whatever the other secrets are. *)
Theorem maskSecrets_removes_encoded
  (text : jsstring) (secrets : SecretMap) (v : jsstring) :
  In v (values secrets) ->
  4 <= length v ->
  ~ occurs (base64 (utf8_encode v)) (maskSecrets text secrets)
  /\ (forall u, encodeURIComponent v = Some u ->
                overlaps u REDACTED = false ->
                ~ occurs u (maskSecrets text secrets))
  /\ (encodeURIComponent v = None ->
      forall masked,
        maskValue masked v
        = replaceAll (replaceAll masked v REDACTED)
            (base64 (utf8_encode v)) REDACTED).
Proof.
  intros Hv Hlen. split; [|split].
  - apply (maskSecrets_removes_pattern text secrets v); auto.
    + now apply patterns_base64.
    + now apply base64_clear_of_marker.
  - intros u Eu Ho.
    apply (maskSecrets_removes_pattern text secrets v); auto.
    now apply patterns_url.
  - intros E masked. unfold maskValue. rewrite E.
    destruct v as [|c v]; [simpl in Hlen; lia|]. simpl negb. cbv iota.
    destruct (Nat.leb_spec 4 (length (c :: v))); [reflexivity | lia].
Qed.

Lemma maskSecrets_removes_encoded_witness :
  In (lit "mysecretvalue123") (values test_secrets)
  /\ 4 <= length (lit "mysecretvalue123")
  /\ (~ occurs (base64 (utf8_encode (lit "mysecretvalue123")))
        (maskSecrets (lit "Encoded: bXlzZWNyZXR2YWx1ZTEyMw==") test_secrets)
      /\ (forall u, encodeURIComponent (lit "mysecretvalue123") = Some u ->
                    overlaps u REDACTED = false ->
                    ~ occurs u
                        (maskSecrets (lit "Encoded: bXlzZWNyZXR2YWx1ZTEyMw==")
                           test_secrets))
      /\ (encodeURIComponent (lit "mysecretvalue123") = None ->
          forall masked,
            maskValue masked (lit "mysecretvalue123")
            = replaceAll (replaceAll masked (lit "mysecretvalue123") REDACTED)
                (base64 (utf8_encode (lit "mysecretvalue123"))) REDACTED)).
Proof.
  assert (H1 : In (lit "mysecretvalue123") (values test_secrets))
    by (left; reflexivity).
  assert (H2 : 4 <= length (lit "mysecretvalue123")) by (simpl; lia).
  exact (conj H1 (conj H2
    (maskSecrets_removes_encoded (lit "Encoded: bXlzZWNyZXR2YWx1ZTEyMw==")
       test_secrets (lit "mysecretvalue123") H1 H2))).
Defined.

(** C2 as stated fails for the URL-encoded form: the secret [* a!] has the
    form [*%20a!], and in the text [*%20a!%20a!] the replacement of its one
    occurrence puts the marker, which ends in [*], in front of [%20a!]. *)
Lemma maskSecrets_url_form_survives :
  4 <= length (lit "* a!")
  /\ encodeURIComponent (lit "* a!") = Some (lit "*%20a!")
  /\ maskSecrets (lit "*%20a!%20a!") [(lit "K", lit "* a!")]
     = lit "***REDACTED***%20a!"
  /\ occurs (lit "*%20a!") (lit "***REDACTED***%20a!").
Proof.
  split; [simpl; lia|]. split; [reflexivity|]. split; [reflexivity|].
  apply includes_iff. reflexivity.
Qed.

(** *** C3: the order of the secrets *)

(** C3 (amended).  For every input text and every SecretMap whose values
    are [independent] (no search string of a value, that is the value, its
    URL-encoded form or its base64 form, can overlap the marker, and the
    search strings of two different values cannot overlap each other):
    the redaction pass gives the same text for every order of the
    entries. *)
Theorem maskSecrets_order_independent
  (text : jsstring) (secrets secrets' : SecretMap) :
  Permutation secrets secrets' ->
  independent (values secrets) = true ->
  maskSecrets text secrets = maskSecrets text secrets'.
Proof.
  intros HP Hind. unfold maskSecrets.
  destruct (negb (truthy text)); [reflexivity|].
  apply fold_left_permutation.
  - unfold values. now apply Permutation_map.
  - intros v w Hv Hw s.
    destruct (independent_spec _ v w Hind Hv Hw) as (Sv & Sw & Hvw).
    now apply maskValue_commute.
Qed.

Lemma maskSecrets_order_independent_witness :
  Permutation test_secrets (rev test_secrets)
  /\ independent (values test_secrets) = true
  /\ maskSecrets (lit "Keys: mysecretvalue123 and sk-abc123xyz") test_secrets
     = maskSecrets (lit "Keys: mysecretvalue123 and sk-abc123xyz")
         (rev test_secrets).
Proof.
  assert (H1 : Permutation test_secrets (rev test_secrets))
    by apply Permutation_rev.
  assert (H2 : independent (values test_secrets) = true) by reflexivity.
  exact (conj H1 (conj H2
    (maskSecrets_order_independent
       (lit "Keys: mysecretvalue123 and sk-abc123xyz")
       test_secrets (rev test_secrets) H1 H2))).
Defined.

(** C3 as stated fails: with the secrets [ab] and [bc] the text [abc]
    becomes [***REDACTED***c] in one order and [a***REDACTED***] in the
    other. *)
Lemma maskSecrets_order_matters :
  Permutation [(lit "A", lit "ab"); (lit "B", lit "bc")]
              [(lit "B", lit "bc"); (lit "A", lit "ab")]
  /\ maskSecrets (lit "abc") [(lit "A", lit "ab"); (lit "B", lit "bc")]
     = lit "***REDACTED***c"
  /\ maskSecrets (lit "abc") [(lit "B", lit "bc"); (lit "A", lit "ab")]
     = lit "a***REDACTED***".
Proof.
  split; [apply perm_swap|]. split; reflexivity.
Qed.

(** *** C4: what the truncation pass returns *)

(** C4 (amended).  A text within 1048576 bytes is returned unchanged and
    not flagged.  A longer text is returned flagged, as a prefix followed by
    the notice once: the prefix is the text without its last [1000 * k]
    code units, for the least [k] for which that prefix fits in
    [1048576 - 41] bytes, and [k] is at least 1. *)
Theorem truncateOutput_spec (text : jsstring) :
  ((byteLength text <= MAX_OUTPUT_BYTES)%Z ->
   truncateOutput text MAX_OUTPUT_BYTES = Some (text, false))
  /\ ((MAX_OUTPUT_BYTES < byteLength text)%Z ->
      exists k,
        1 <= k
        /\ truncateOutput text MAX_OUTPUT_BYTES
           = Some (kept text k ++ TRUNCATION_MESSAGE, true)
        /\ fits MAX_OUTPUT_BYTES (kept text k)
        /\ forall j, j < k -> ~ fits MAX_OUTPUT_BYTES (kept text j)).
Proof.
  split; [apply truncateOutput_small|].
  intros H. rewrite truncateOutput_large by assumption.
  destruct (shrink_total MAX_OUTPUT_BYTES) with (n := length text) (s := text)
    as [t E]; [rewrite byteLength_notice, max_output_bytes; lia | lia |].
  rewrite E. apply shrink_spec in E as (k & -> & Hk & Hj).
  exists k. repeat split; auto.
  destruct k; [|lia]. exfalso. rewrite kept_0 in Hk. unfold fits in Hk.
  pose proof (byteLength_nonneg TRUNCATION_MESSAGE). lia.
Qed.

(** C4 as stated fails: of 1048577 letters [a] the pass keeps 1047577,
    although the first 1048535 fit before the notice as well. *)
Lemma truncateOutput_not_largest_prefix :
  truncateOutput (repeat 97%N (N.to_nat 1048577)) MAX_OUTPUT_BYTES
  = Some (repeat 97%N (N.to_nat 1047577) ++ TRUNCATION_MESSAGE, true)
  /\ fits MAX_OUTPUT_BYTES
       (firstn (N.to_nat 1048535) (repeat 97%N (N.to_nat 1048577)))
  /\ length (repeat 97%N (N.to_nat 1047577))
     < length (firstn (N.to_nat 1048535) (repeat 97%N (N.to_nat 1048577))).
Proof.
  remember (N.to_nat 1048577) as n eqn:Hn.
  remember (N.to_nat 1047577) as m eqn:Hm.
  remember (N.to_nat 1048535) as b eqn:Hb.
  assert (Hnm : n = m + 1000) by lia.
  assert (Hz : Z.of_nat m = 1047577%Z) by lia.
  assert (Hbz : Z.of_nat b = 1048535%Z) by lia.
  clear Hn Hm Hb.
  split; [|split].
  - rewrite truncateOutput_large
      by (rewrite byteLength_repeat, max_output_bytes by reflexivity; lia).
    rewrite repeat_length. replace n with (S (m + 999)) at 1 by lia.
    rewrite shrink_step.
    2:{ unfold fits.
        rewrite byteLength_repeat, byteLength_notice, max_output_bytes
          by reflexivity. lia. }
    assert (Hs : slice_to_minus (repeat 97%N n) 1000 = repeat 97%N m).
    { unfold slice_to_minus. rewrite repeat_length.
      replace (n - 1000) with m by lia. apply firstn_repeat_le. lia. }
    rewrite Hs, shrink_fits; [reflexivity|].
    unfold fits.
    rewrite byteLength_repeat, byteLength_notice, max_output_bytes
      by reflexivity. lia.
  - unfold fits. rewrite firstn_repeat_le by lia.
    rewrite byteLength_repeat, byteLength_notice, max_output_bytes
      by reflexivity. lia.
  - rewrite firstn_repeat_le by lia. rewrite !repeat_length. lia.
Qed.

(** *** C5: surrogate pairs at the cut *)

(** C5 (the code at a failing input).  The text of 262144 copies of U+1F600
    followed by [a] is well formed and 1048577 bytes long; the truncation
    pass cuts it after the high surrogate of a pair, so what it returns is
    not well formed. *)
Theorem truncateOutput_splits_surrogate_pair :
  isWellFormed (emojis (N.to_nat 262144) ++ [97%N]) = true
  /\ truncateOutput (emojis (N.to_nat 262144) ++ [97%N]) MAX_OUTPUT_BYTES
     = Some (emojis (N.to_nat 261644) ++ [0xD83D%N] ++ TRUNCATION_MESSAGE,
             true)
  /\ isWellFormed
       (emojis (N.to_nat 261644) ++ [0xD83D%N] ++ TRUNCATION_MESSAGE)
     = false.
Proof.
  remember (N.to_nat 262144) as n eqn:Hn.
  remember (N.to_nat 261644) as m eqn:Hm.
  assert (Hnm : n = m + 500) by lia.
  assert (Hz : Z.of_nat m = 261644%Z) by lia.
  clear Hn Hm.
  split; [|split].
  - now rewrite isWellFormed_emojis.
  - change (byteLength [97%N]) with 1%Z.
    rewrite truncateOutput_large.
    2:{ rewrite byteLength_emojis, max_output_bytes.
        change (byteLength [97%N]) with 1%Z. lia. }
    rewrite length_app, length_emojis.
    replace (2 * n + length [97%N]) with (S (2 * n)) by (simpl; lia).
    rewrite shrink_step.
    2:{ unfold fits. rewrite byteLength_emojis, byteLength_notice,
          max_output_bytes.
        change (byteLength [97%N]) with 1%Z. lia. }
    assert (Hs : slice_to_minus (emojis n ++ [97%N]) 1000
                 = emojis m ++ [0xD83D%N]).
    { unfold slice_to_minus. rewrite length_app, length_emojis.
      replace (2 * n + length [97%N] - 1000) with (2 * m + 1) by (simpl; lia).
      apply firstn_emojis_odd. lia. }
    rewrite Hs, shrink_fits; [now rewrite <- app_assoc|].
    unfold fits. rewrite byteLength_emojis, byteLength_notice, max_output_bytes.
    change (byteLength [0xD83D%N]) with 3%Z. lia.
  - now rewrite isWellFormed_emojis.
Qed.

(** *** C6: the effective timeout *)

Lemma calls_of_cases (w : World) (a : Args) (c : Call) :
  In c (calls_of w a) ->
  c = GetToken \/ c = GetRepository
  \/ (exists repository token,
        c = PullSecrets repository (environment_of a) token)
  \/ (exists env, c = Spawn (command a) (args_of a) env (timeout_of a)).
Proof.
  unfold calls_of, injectRun.
  destruct (negb (truthy (command a)) || negb (truthy (trim (command a))));
    [intros []|].
  unfold bind, call, run_command.
  destruct (getToken w) as [e|token]; simpl settle; cbv iota beta;
    [simpl; intuition|].
  destruct (getRepository w) as [e|repository]; simpl settle; cbv iota beta;
    [simpl; intuition|].
  destruct (pullSecrets w repository (environment_of a) token) as [e|content];
    simpl settle; cbv iota beta.
  { simpl. intros [H|[H|[H|[]]]]; subst; eauto 6. }
  set (env := spread (process_env w) (parseEnvContent w content)).
  assert (Hall : forall d,
    In d [GetToken; GetRepository;
          PullSecrets repository (environment_of a) token;
          Spawn (command a) (args_of a) env (timeout_of a)] ->
    d = GetToken \/ d = GetRepository
    \/ (exists repository token,
          d = PullSecrets repository (environment_of a) token)
    \/ (exists env, d = Spawn (command a) (args_of a) env (timeout_of a))).
  { simpl. intros d [H|[H|[H|[H|[]]]]]; subst; eauto 7. }
  destruct (spawn w (command a) (args_of a) env (timeout_of a))
    as [m| |code out err]; try apply Hall.
  destruct (on_close (parseEnvContent w content) code out err); apply Hall.
Qed.

(** C6 (amended).  The effective timeout, which is the one every [spawn]
    of the run is started with, is [min(timeoutMs || 300000, 300000)]: it is
    300000 when [timeoutMs] is absent or 0, and [min(timeoutMs, 300000)]
    for every other integer; so it is
    [min(timeoutMs ?? 300000, 300000)] except when [timeoutMs] is 0. *)
Theorem timeout_of_spec (w : World) (a : Args) :
  timeout_of a =
    match timeout a with
    | None => 300000%Z
    | Some t => if (t =? 0)%Z then 300000%Z else Z.min t 300000
    end
  /\ (timeout a = Some 0%Z \/ timeout_of a = nullish_timeout (timeout a))
  /\ forall c l env t,
       In (Spawn c l env t) (calls_of w a) -> t = timeout_of a.
Proof.
  split; [|split].
  - unfold timeout_of, DEFAULT_TIMEOUT_MS.
    destruct (timeout a) as [t|]; [|reflexivity].
    destruct (t =? 0)%Z; reflexivity.
  - unfold timeout_of, nullish_timeout.
    destruct (timeout a) as [t|]; [|now right].
    destruct (Z.eqb_spec t 0); [left; now subst | now right].
  - intros c l env t H.
    apply calls_of_cases in H as [H|[H|[(r & k & H)|(e & H)]]];
      try discriminate.
    now injection H.
Qed.

(** C6 as stated fails at [timeoutMs = 0]: the code runs with 300000 ms
    where [min(timeoutMs ?? 300000, 300000)] is 0. *)
Lemma timeout_zero_is_default :
  timeout_of {| command := lit "echo"; args := None;
                environment := None; timeout := Some 0%Z |} = 300000%Z
  /\ nullish_timeout (Some 0%Z) = 0%Z.
Proof. split; reflexivity. Qed.

(** *** C7: the count of injected secrets *)

(** C7 (amended).  For every run that returns the result of a closed
    child, [secretsInjected] is the number of entries of the fetched
    SecretMap, whatever their values; for an empty SecretMap it is 0 and
    both streams are returned as the truncation pass left them. *)
Theorem secretsInjected_counts_entries
  (w : World) (a : Args) (token repository content : jsstring)
  (code : option Z) (out err : list Chunk) :
  trim (command a) <> [] ->
  getToken w = inr token ->
  getRepository w = inr repository ->
  pullSecrets w repository (environment_of a) token = inr content ->
  process_of w a content = Closes code out err ->
  exists t1 f1 t2 f2 r resp,
    truncateOutput (fst (capture out)) MAX_OUTPUT_BYTES = Some (t1, f1)
    /\ truncateOutput (fst (capture err)) MAX_OUTPUT_BYTES = Some (t2, f2)
    /\ completion_of w a = Value r
    /\ InjectRun.content r = Json resp
    /\ secretsInjected resp = length (parseEnvContent w content)
    /\ (parseEnvContent w content = [] ->
        secretsInjected resp = 0
        /\ response_stdout resp = t1 /\ response_stderr resp = t2).
Proof.
  intros Hc Ht Hr Hp Hs.
  destruct (injectRun_closes w a token repository content code out err
              Hc Ht Hr Hp Hs) as (t1 & f1 & t2 & f2 & ws & E1 & E2 & E).
  exists t1, f1, t2, f2. eexists. eexists.
  split; [exact E1|]. split; [exact E2|]. split; [exact E|].
  split; [reflexivity|]. cbn [secretsInjected response_stdout response_stderr].
  split; [unfold keys; apply length_map|].
  intros ->. unfold maskSecrets. cbn [values map fold_left keys length].
  repeat split; [destruct (negb (truthy t1)) | destruct (negb (truthy t2))];
    reflexivity.
Qed.

Lemma secretsInjected_counts_entries_witness :
  exists t1 f1 t2 f2 r resp,
    truncateOutput (fst (capture [{| chunk_text := lit "hello" ++ [10%N];
                                     chunk_length := 6 |}]))
      MAX_OUTPUT_BYTES = Some (t1, f1)
    /\ truncateOutput (fst (capture [])) MAX_OUTPUT_BYTES = Some (t2, f2)
    /\ completion_of (test_world test_secrets)
         (test_args (lit "echo") [lit "hello"]) = Value r
    /\ InjectRun.content r = Json resp
    /\ secretsInjected resp = length test_secrets
    /\ (test_secrets = [] ->
        secretsInjected resp = 0
        /\ response_stdout resp = t1 /\ response_stderr resp = t2).
Proof.
  refine (secretsInjected_counts_entries (test_world test_secrets)
            (test_args (lit "echo") [lit "hello"])
            (lit "mock-token") (lit "owner/repo")
            (lit "SECRET_KEY=mysecretvalue123")
            (Some 0%Z)
            [{| chunk_text := lit "hello" ++ [10%N]; chunk_length := 6 |}] []
            _ eq_refl eq_refl eq_refl eq_refl).
  discriminate.
Defined.

(** C7 as stated fails: when the only secret has an empty value, the run
    reports one injected secret, and no secret has a non-empty value. *)
Lemma secretsInjected_counts_empty_values :
  completion_of (test_world [(lit "EMPTY", [])])
    (test_args (lit "echo") [lit "hello"])
  = Value {|
      content := Json {|
        response_exitCode := 0;
        response_stdout := lit "hello" ++ [10%N];
        response_stderr := [];
        secretsInjected := 1;
        warnings := None
      |};
      isError := false
    |}
  /\ nonempty_count [(lit "EMPTY", [])] = 0.
Proof. split; reflexivity. Qed.

(** *** C8: validation of the command *)

(** C8.  A call whose command is empty after trimming returns the
    validation failure without any call to a collaborator: no token is
    read, no secret is fetched, no process is spawned.  A call whose
    trimmed command is not empty goes on to read the token. *)
Theorem injectRun_validation (w : World) (a : Args) :
  (trim (command a) = [] ->
   injectRun w a =
   ([], Value {| content := Text (lit "Error: command is required");
                 isError := true |}))
  /\ (trim (command a) <> [] -> exists rest, calls_of w a = GetToken :: rest).
Proof.
  split; [apply injectRun_invalid | apply injectRun_valid].
Qed.

(** *** C9: exit codes *)

(** C9.  For every child that is spawned and emits [close] (it has ended
    and both its streams are closed) before the timer fires and before any
    [error], with whatever exit code, the call returns a result and throws
    nothing: the result carries the exit code (1 when the child closed
    without one) and both streams after truncation and redaction, and its
    [isError] flag is set exactly when the exit code is not 0. *)
Theorem injectRun_nonzero_exit
  (w : World) (a : Args) (token repository content : jsstring)
  (code : option Z) (out err : list Chunk) :
  trim (command a) <> [] ->
  getToken w = inr token ->
  getRepository w = inr repository ->
  pullSecrets w repository (environment_of a) token = inr content ->
  process_of w a content = Closes code out err ->
  exists t1 f1 t2 f2 r resp,
    truncateOutput (fst (capture out)) MAX_OUTPUT_BYTES = Some (t1, f1)
    /\ truncateOutput (fst (capture err)) MAX_OUTPUT_BYTES = Some (t2, f2)
    /\ completion_of w a = Value r
    /\ InjectRun.content r = Json resp
    /\ response_exitCode resp = exit_code_of code
    /\ response_stdout resp = maskSecrets t1 (parseEnvContent w content)
    /\ response_stderr resp = maskSecrets t2 (parseEnvContent w content)
    /\ (isError r = true <-> response_exitCode resp <> 0%Z).
Proof.
  intros Hc Ht Hr Hp Hs.
  destruct (injectRun_closes w a token repository content code out err
              Hc Ht Hr Hp Hs) as (t1 & f1 & t2 & f2 & ws & E1 & E2 & E).
  exists t1, f1, t2, f2. eexists. eexists.
  split; [exact E1|]. split; [exact E2|]. split; [exact E|].
  cbn [InjectRun.content isError response_exitCode response_stdout
       response_stderr].
  repeat split; try reflexivity.
  - intros H. apply negb_true_iff in H. now apply Z.eqb_neq.
  - intros H. apply negb_true_iff. now apply Z.eqb_neq.
Qed.

Lemma injectRun_nonzero_exit_witness :
  exists t1 f1 t2 f2 r resp,
    truncateOutput
      (fst (capture [line "API_TOKEN=sk-abc123xyz"])) MAX_OUTPUT_BYTES
    = Some (t1, f1)
    /\ truncateOutput
         (fst (capture [line "fatal: mysecretvalue123 rejected"]))
         MAX_OUTPUT_BYTES
       = Some (t2, f2)
    /\ completion_of (world_of failing_events)
         (test_args (lit "deploy") []) = Value r
    /\ InjectRun.content r = Json resp
    /\ response_exitCode resp = exit_code_of (Some 3%Z)
    /\ response_stdout resp = maskSecrets t1 test_secrets
    /\ response_stderr resp = maskSecrets t2 test_secrets
    /\ (isError r = true <-> response_exitCode resp <> 0%Z).
Proof.
  refine (injectRun_nonzero_exit (world_of failing_events)
            (test_args (lit "deploy") [])
            (lit "mock-token") (lit "owner/repo")
            (lit "SECRET_KEY=mysecretvalue123")
            (Some 3%Z) [line "API_TOKEN=sk-abc123xyz"]
            [line "fatal: mysecretvalue123 rejected"]
            _ eq_refl eq_refl eq_refl eq_refl).
  discriminate.
Defined.

(** C9 as stated fails: a child that ends with exit code 3 while a
    descendant holds its streams open has run to completion, but no
    [close] follows its [exit], for which [injectRun] has no handler; the
    timer fires and the call throws the timeout error instead of
    returning a result. *)
Lemma injectRun_exit_without_close :
  In (ExitEvent (Some 3%Z)) orphan_events
  /\ process_of (world_of orphan_events) orphan_args
       (lit "SECRET_KEY=mysecretvalue123")
     = OutlivesTimer
  /\ injectRun (world_of orphan_events) orphan_args
     = ([GetToken; GetRepository;
         PullSecrets (lit "owner/repo") (lit "development")
           (lit "mock-token");
         Spawn (lit "sh") [lit "-c"; lit "sleep 1000 & exit 3"]
           (spread [(lit "PATH", lit "/usr/bin")] test_secrets) 300000],
        Throw (TimedOut 300000)).
Proof.
  split; [cbn; auto|]. split; reflexivity.
Qed.

(** *** C10: the empty environment name *)

(** C10.  A call with the empty string as environment name behaves as the
    same call without an environment name: the environment is
    [development], and that is the name every fetch of secrets is made
    with. *)
Theorem injectRun_empty_environment
  (w : World) (c : jsstring) (l : option (list jsstring)) (t : option Z) :
  environment_of {| command := c; args := l;
                    environment := Some []; timeout := t |}
  = lit "development"
  /\ injectRun w {| command := c; args := l;
                    environment := Some []; timeout := t |}
     = injectRun w {| command := c; args := l;
                      environment := None; timeout := t |}
  /\ forall repository name token,
       In (PullSecrets repository name token)
          (calls_of w {| command := c; args := l;
                         environment := Some []; timeout := t |}) ->
       name = lit "development".
Proof.
  split; [reflexivity|]. split; [reflexivity|].
  intros repository name token H.
  apply calls_of_cases in H as [H|[H|[(r & k & H)|(e & H)]]];
    try discriminate.
  now injection H.
Qed.

(** ** Further properties of [inject-run.ts] *)

(** *** The order of the calls and the failures *)

(** X1.  [spawn] is reached only by a call whose command is not blank and
    whose token, repository and secrets were all obtained; the child is
    started with the command and the argument list as given (never joined
    into one string), with the environment that overlays the fetched secrets
    on the ambient one, and with the capped timeout. *)
Theorem spawn_only_after_fetch
  (w : World) (a : Args) (c : jsstring) (l : list jsstring)
  (env : SecretMap) (t : Z) :
  In (Spawn c l env t) (calls_of w a) ->
  trim (command a) <> []
  /\ exists token repository content,
       getToken w = inr token
       /\ getRepository w = inr repository
       /\ pullSecrets w repository (environment_of a) token = inr content
       /\ c = command a /\ l = args_of a
       /\ env = spread (process_env w) (parseEnvContent w content)
       /\ t = timeout_of a /\ (t <= 300000)%Z.
Proof.
  unfold calls_of, injectRun.
  destruct (negb (truthy (command a)) || negb (truthy (trim (command a))))
    eqn:V; [intros []|].
  assert (Hc : trim (command a) <> []).
  { intros E. rewrite validation_fails in V by assumption. discriminate. }
  unfold bind, call, run_command.
  destruct (getToken w) as [e|token]; simpl settle; cbv iota beta.
  { simpl. intros [H|[]]. discriminate. }
  destruct (getRepository w) as [e|repository]; simpl settle; cbv iota beta.
  { simpl. intros [H|[H|[]]]; discriminate. }
  destruct (pullSecrets w repository (environment_of a) token)
    as [e|content] eqn:Hp; simpl settle; cbv iota beta.
  { simpl. intros [H|[H|[H|[]]]]; discriminate. }
  intros H.
  assert (Hin : In (Spawn c l env t)
            [GetToken; GetRepository;
             PullSecrets repository (environment_of a) token;
             Spawn (command a) (args_of a)
               (spread (process_env w) (parseEnvContent w content))
               (timeout_of a)]).
  { destruct (spawn w (command a) (args_of a)
                (spread (process_env w) (parseEnvContent w content))
                (timeout_of a)) as [m| |code out err]; try exact H.
    destruct (on_close (parseEnvContent w content) code out err); exact H. }
  clear H. simpl in Hin.
  destruct Hin as [H|[H|[H|[H|[]]]]]; try discriminate.
  injection H as <- <- <- <-.
  split; [exact Hc|]. exists token, repository, content.
  repeat split; auto.
  unfold timeout_of, DEFAULT_TIMEOUT_MS. apply Z.le_min_r.
Qed.

Lemma spawn_only_after_fetch_witness :
  exists c l env t,
    In (Spawn c l env t)
       (calls_of (test_world test_secrets)
          (test_args (lit "echo") [lit "hello"]))
    /\ trim (command (test_args (lit "echo") [lit "hello"])) <> []
    /\ exists token repository content,
         getToken (test_world test_secrets) = inr token
         /\ getRepository (test_world test_secrets) = inr repository
         /\ pullSecrets (test_world test_secrets) repository
              (environment_of (test_args (lit "echo") [lit "hello"])) token
            = inr content
         /\ c = command (test_args (lit "echo") [lit "hello"])
         /\ l = args_of (test_args (lit "echo") [lit "hello"])
         /\ env = spread (process_env (test_world test_secrets))
                    (parseEnvContent (test_world test_secrets) content)
         /\ t = timeout_of (test_args (lit "echo") [lit "hello"])
         /\ (t <= 300000)%Z.
Proof.
  exists (lit "echo"), [lit "hello"],
    (spread [(lit "PATH", lit "/usr/bin")] test_secrets), 300000%Z.
  assert (H : In (Spawn (lit "echo") [lit "hello"]
                    (spread [(lit "PATH", lit "/usr/bin")] test_secrets)
                    300000%Z)
                 (calls_of (test_world test_secrets)
                    (test_args (lit "echo") [lit "hello"])))
    by (vm_compute; auto).
  exact (conj H
    (spawn_only_after_fetch (test_world test_secrets)
       (test_args (lit "echo") [lit "hello"]) _ _ _ _ H)).
Defined.

(** X2.  For a call that passes validation: the error of the first
    collaborator that fails is thrown as it is, after the calls up to that
    collaborator and no other; when all three answer, the call throws
    [Failed to execute command] for a child that emits [error], throws the
    timeout error with the capped timeout for a child that outlives the
    timer, and returns a result only for a child that closes. *)
Theorem injectRun_failures (w : World) (a : Args) :
  trim (command a) <> [] ->
  match getToken w with
  | inl e => injectRun w a = ([GetToken], Throw e)
  | inr token =>
      match getRepository w with
      | inl e => injectRun w a = ([GetToken; GetRepository], Throw e)
      | inr repository =>
          match pullSecrets w repository (environment_of a) token with
          | inl e =>
              injectRun w a =
              ([GetToken; GetRepository;
                PullSecrets repository (environment_of a) token], Throw e)
          | inr content =>
              match process_of w a content with
              | EmitsError message =>
                  completion_of w a = Throw (FailedToExecute message)
              | OutlivesTimer =>
                  completion_of w a = Throw (TimedOut (timeout_of a))
              | Closes code out err =>
                  exists r, completion_of w a = Value r
              end
          end
      end
  end.
Proof.
  intros Hc. unfold completion_of, process_of, injectRun.
  rewrite validation_passes by assumption.
  unfold bind, call, run_command.
  destruct (getToken w) as [e|token]; simpl settle; cbv iota beta;
    [reflexivity|].
  destruct (getRepository w) as [e|repository]; simpl settle; cbv iota beta;
    [reflexivity|].
  destruct (pullSecrets w repository (environment_of a) token)
    as [e|content]; simpl settle; cbv iota beta; [reflexivity|].
  destruct (spawn w (command a) (args_of a)
              (spread (process_env w) (parseEnvContent w content))
              (timeout_of a)) as [m| |code out err]; try reflexivity.
  destruct (on_close_returns (parseEnvContent w content) code out err)
    as (t1 & f1 & t2 & f2 & _ & _ & ->).
  eexists. reflexivity.
Qed.

Lemma injectRun_failures_witness :
  trim (command (test_args (lit "false") [])) <> []
  /\ match getToken (test_world test_secrets) with
     | inl e =>
         injectRun (test_world test_secrets) (test_args (lit "false") [])
         = ([GetToken], Throw e)
     | inr token =>
         match getRepository (test_world test_secrets) with
         | inl e =>
             injectRun (test_world test_secrets) (test_args (lit "false") [])
             = ([GetToken; GetRepository], Throw e)
         | inr repository =>
             match pullSecrets (test_world test_secrets) repository
                     (environment_of (test_args (lit "false") [])) token with
             | inl e =>
                 injectRun (test_world test_secrets)
                   (test_args (lit "false") [])
                 = ([GetToken; GetRepository;
                     PullSecrets repository
                       (environment_of (test_args (lit "false") [])) token],
                    Throw e)
             | inr content =>
                 match process_of (test_world test_secrets)
                         (test_args (lit "false") []) content with
                 | EmitsError message =>
                     completion_of (test_world test_secrets)
                       (test_args (lit "false") [])
                     = Throw (FailedToExecute message)
                 | OutlivesTimer =>
                     completion_of (test_world test_secrets)
                       (test_args (lit "false") [])
                     = Throw (TimedOut
                                (timeout_of (test_args (lit "false") [])))
                 | Closes code out err =>
                     exists r,
                       completion_of (test_world test_secrets)
                         (test_args (lit "false") []) = Value r
                 end
             end
         end
     end.
Proof.
  assert (H : trim (command (test_args (lit "false") [])) <> [])
    by discriminate.
  exact (conj H
    (injectRun_failures (test_world test_secrets)
       (test_args (lit "false") []) H)).
Defined.

(** *** The capture of a stream *)

Section Capture.

Lemma on_data_full (chunks : list Chunk) (acc : jsstring * Z) :
  (MAX_OUTPUT_BYTES <= snd acc)%Z -> fold_left on_data chunks acc = acc.
Proof.
  intros H. induction chunks as [|d chunks IH]; [reflexivity|].
  simpl. unfold on_data at 2.
  destruct (Z.ltb_spec (snd acc) MAX_OUTPUT_BYTES); [lia | exact IH].
Qed.

Lemma fold_on_data (chunks : list Chunk) :
  forall acc,
  exists k,
    k <= length chunks
    /\ fold_left on_data chunks acc
       = (fst acc ++ text_of (firstn k chunks),
          (snd acc + bytes_of (firstn k chunks))%Z)
    /\ (forall j, j < k ->
          (snd acc + bytes_of (firstn j chunks) < MAX_OUTPUT_BYTES)%Z)
    /\ (k < length chunks ->
          (MAX_OUTPUT_BYTES <= snd acc + bytes_of (firstn k chunks))%Z).
Proof.
  induction chunks as [|d chunks IH]; intros [t b].
  - exists 0. simpl. rewrite app_nil_r, Z.add_0_r.
    repeat split; auto; intros; lia.
  - destruct (Z.ltb_spec b MAX_OUTPUT_BYTES) as [Hb|Hb].
    + destruct (IH (t ++ chunk_text d, (b + chunk_length d)%Z))
        as (k & Hk & E & Hlt & Hge).
      exists (S k). cbn [fst snd] in *. split; [simpl; lia|]. split; [|split].
      * cbn [fold_left]. unfold on_data at 2. cbn [fst snd].
        destruct (Z.ltb_spec b MAX_OUTPUT_BYTES); [|lia].
        rewrite E. unfold text_of. cbn [firstn map concat bytes_of fold_right].
        f_equal; [now rewrite <- app_assoc | fold (bytes_of (firstn k chunks)); lia].
      * intros [|j] Hj; [simpl; lia|].
        cbn [firstn bytes_of fold_right]. fold (bytes_of (firstn j chunks)).
        specialize (Hlt j ltac:(lia)). lia.
      * intros Hlen. cbn [firstn bytes_of fold_right].
        fold (bytes_of (firstn k chunks)).
        specialize (Hge ltac:(simpl in Hlen; lia)). lia.
    + exists 0. cbn [fst snd]. split; [simpl; lia|]. split; [|split].
      * rewrite on_data_full by (cbn [snd]; lia). simpl.
        now rewrite app_nil_r, Z.add_0_r.
      * intros j Hj; lia.
      * intros _. simpl. lia.
Qed.

End Capture.

(** X3.  The text captured from a stream is the text of its first [k]
    [data] events, each kept whole, and the byte count is the number of
    their bytes; [k] is the number of events that arrive while fewer than
    1048576 bytes were counted: before each kept event the count is below
    the ceiling, and if an event is dropped the count has reached it. *)
Theorem capture_keeps_a_prefix (chunks : list Chunk) :
  exists k,
    k <= length chunks
    /\ capture chunks
       = (text_of (firstn k chunks), bytes_of (firstn k chunks))
    /\ (forall j, j < k ->
          (bytes_of (firstn j chunks) < MAX_OUTPUT_BYTES)%Z)
    /\ (k < length chunks ->
          (MAX_OUTPUT_BYTES <= bytes_of (firstn k chunks))%Z).
Proof.
  destruct (fold_on_data chunks ([], 0%Z)) as (k & Hk & E & Hlt & Hge).
  exists k. unfold capture. rewrite E. cbn [fst snd app] in *.
  repeat split; auto.
Qed.

(** *** The environment of the child *)

Section Spread.

Lemma eqb_refl (k : jsstring) : eqb k k = true.
Proof. now apply eqb_eq. Qed.

Lemma lookup_assign (o : SecretMap) (k v k' : jsstring) :
  lookup (assign o k v) k' = if eqb k' k then Some v else lookup o k'.
Proof.
  induction o as [|[k0 v0] o IH]; simpl.
  - reflexivity.
  - destruct (eqb k k0) eqn:E.
    + apply eqb_eq in E. subst k0. simpl. now destruct (eqb k' k).
    + simpl. destruct (eqb k' k0) eqn:E0.
      * apply eqb_eq in E0. subst k0.
        destruct (eqb k' k) eqn:E1; [|reflexivity].
        apply eqb_eq in E1. subst k'. rewrite eqb_refl in E. discriminate.
      * exact IH.
Qed.

Lemma lookup_absent (o : SecretMap) (k : jsstring) :
  ~ In k (keys o) -> lookup o k = None.
Proof.
  induction o as [|[k0 v0] o IH]; intros H; [reflexivity|].
  simpl in *. destruct (eqb k k0) eqn:E.
  - apply eqb_eq in E. subst. tauto.
  - apply IH. tauto.
Qed.

Lemma lookup_spread (over : SecretMap) :
  NoDup (keys over) ->
  forall base k,
  lookup (spread base over) k =
  match lookup over k with
  | Some v => Some v
  | None => lookup base k
  end.
Proof.
  unfold spread.
  induction over as [|[k0 v0] over IH]; intros Hnd base k; [reflexivity|].
  simpl in Hnd. inversion Hnd as [|? ? Hnotin Hnd']; subst.
  cbn [fold_left fst snd lookup]. rewrite (IH Hnd'), lookup_assign.
  destruct (eqb k k0) eqn:E; [|reflexivity].
  apply eqb_eq in E. subst k0. now rewrite lookup_absent.
Qed.

Lemma keys_assign (o : SecretMap) (k v : jsstring) :
  keys (assign o k v) = if existsb (eqb k) (keys o) then keys o else keys o ++ [k].
Proof.
  induction o as [|[k0 v0] o IH]; [reflexivity|].
  simpl. destruct (eqb k k0) eqn:E.
  - apply eqb_eq in E. now subst.
  - simpl. rewrite IH. now destruct (existsb (eqb k) (keys o)).
Qed.

Lemma existsb_eqb_In (k : jsstring) (l : list jsstring) :
  existsb (eqb k) l = true <-> In k l.
Proof.
  rewrite existsb_exists. split.
  - intros (x & Hx & E). apply eqb_eq in E. now subst.
  - intros H. exists k. split; [assumption | apply eqb_refl].
Qed.

Lemma NoDup_assign (o : SecretMap) (k v : jsstring) :
  NoDup (keys o) -> NoDup (keys (assign o k v)).
Proof.
  intros H. rewrite keys_assign.
  destruct (existsb (eqb k) (keys o)) eqn:E; [assumption|].
  apply NoDup_app; [assumption | repeat constructor; auto |].
  intros x Hx [<-|[]].
  apply existsb_eqb_In in Hx. congruence.
Qed.

Lemma NoDup_spread (over base : SecretMap) :
  NoDup (keys base) -> NoDup (keys (spread base over)).
Proof.
  unfold spread. revert base.
  induction over as [|[k0 v0] over IH]; intros base H; [exact H|].
  cbn [fold_left fst snd]. apply IH. now apply NoDup_assign.
Qed.

End Spread.

(** X4.  The environment built for the child, [{ ...process.env,
    ...secrets }], for secrets with distinct names: every name of a secret
    is set to the value of that secret, overriding an ambient variable of
    the same name; every other name has the value it has in the ambient
    environment; and names stay distinct when they are distinct in the
    ambient environment. *)
Theorem spread_overlays_secrets (ambient secrets : SecretMap) :
  NoDup (keys secrets) ->
  (forall k v, lookup secrets k = Some v ->
               lookup (spread ambient secrets) k = Some v)
  /\ (forall k, lookup secrets k = None ->
                lookup (spread ambient secrets) k = lookup ambient k)
  /\ (NoDup (keys ambient) -> NoDup (keys (spread ambient secrets))).
Proof.
  intros Hnd. split; [|split].
  - intros k v H. now rewrite lookup_spread, H.
  - intros k H. now rewrite lookup_spread, H.
  - apply NoDup_spread.
Qed.

Lemma spread_overlays_secrets_witness :
  NoDup (keys test_secrets)
  /\ (forall k v, lookup test_secrets k = Some v ->
        lookup (spread [(lit "PATH", lit "/usr/bin");
                        (lit "API_TOKEN", lit "ambient")] test_secrets) k
        = Some v)
  /\ (forall k, lookup test_secrets k = None ->
        lookup (spread [(lit "PATH", lit "/usr/bin");
                        (lit "API_TOKEN", lit "ambient")] test_secrets) k
        = lookup [(lit "PATH", lit "/usr/bin");
                  (lit "API_TOKEN", lit "ambient")] k)
  /\ (NoDup (keys [(lit "PATH", lit "/usr/bin");
                   (lit "API_TOKEN", lit "ambient")]) ->
      NoDup (keys (spread [(lit "PATH", lit "/usr/bin");
                           (lit "API_TOKEN", lit "ambient")] test_secrets))).
Proof.
  assert (H : NoDup (keys test_secrets)).
  { simpl. repeat constructor; simpl; intuition discriminate. }
  exact (conj H
    (spread_overlays_secrets
       [(lit "PATH", lit "/usr/bin"); (lit "API_TOKEN", lit "ambient")]
       test_secrets H)).
Defined.

(** *** Texts the redaction pass leaves alone *)

Section Unchanged.

Lemma fold_replace_absent (ps : list jsstring) (s : jsstring) :
  (forall p, In p ps -> p <> [] /\ ~ occurs p s) ->
  fold_left replace_step ps s = s.
Proof.
  induction ps as [|p ps IH]; intros H; [reflexivity|].
  simpl. unfold replace_step at 2.
  destruct (H p (or_introl eq_refl)) as [Hp Ho].
  rewrite replaceAll_absent by assumption.
  apply IH. intros q Hq. apply H. now right.
Qed.

Lemma maskValue_absent (v s : jsstring) :
  (forall p, In p (patterns v) -> ~ occurs p s) -> maskValue s v = s.
Proof.
  intros H. rewrite maskValue_patterns. apply fold_replace_absent.
  intros p Hp. split; [eapply patterns_nonempty; eauto | now apply H].
Qed.

Lemma maskValues_absent (vs : list jsstring) (s : jsstring) :
  (forall v p, In v vs -> In p (patterns v) -> ~ occurs p s) ->
  fold_left maskValue vs s = s.
Proof.
  induction vs as [|v vs IH]; intros H; [reflexivity|].
  simpl. rewrite maskValue_absent.
  - apply IH. intros w p Hw. apply H. now right.
  - intros p. apply H. now left.
Qed.

Lemma maskSecrets_absent (text : jsstring) (secrets : SecretMap) :
  (forall v p, In v (values secrets) -> In p (patterns v) ->
               ~ occurs p text) ->
  maskSecrets text secrets = text.
Proof.
  intros H. unfold maskSecrets. destruct (negb (truthy text)); [reflexivity|].
  now apply maskValues_absent.
Qed.

End Unchanged.

(** X5.  A text in which no search string of any secret occurs (the value
    itself, and for a value of 4 code units or more its URL-encoded form,
    when that differs from the value, and its base64 form) is returned by
    the redaction pass as it is: nothing is redacted by mistake. *)
Theorem maskSecrets_leaves_clean_text (text : jsstring) (secrets : SecretMap) :
  (forall v p, In v (values secrets) -> In p (patterns v) ->
               includes text p = false) ->
  maskSecrets text secrets = text.
Proof.
  intros H. apply maskSecrets_absent. intros v p Hv Hp.
  apply includes_false. exact (H v p Hv Hp).
Qed.

Lemma maskSecrets_leaves_clean_text_witness :
  (forall v p, In v (values test_secrets) -> In p (patterns v) ->
               includes (lit "no secrets here") p = false)
  /\ maskSecrets (lit "no secrets here") test_secrets = lit "no secrets here".
Proof.
  assert (H : forall v p, In v (values test_secrets) -> In p (patterns v) ->
                          includes (lit "no secrets here") p = false).
  { intros v p [<-|[<-|[]]] Hp; vm_compute in Hp;
      repeat (destruct Hp as [<-|Hp]; [reflexivity|]); destruct Hp. }
  exact (conj H
    (maskSecrets_leaves_clean_text (lit "no secrets here") test_secrets H)).
Defined.

(** X6.  When no search string of the secrets can overlap the marker, the
    redaction pass is idempotent: a text that went through it is not changed
    by going through it again. *)
Theorem maskSecrets_idempotent (text : jsstring) (secrets : SecretMap) :
  forallb marker_safe (values secrets) = true ->
  maskSecrets (maskSecrets text secrets) secrets = maskSecrets text secrets.
Proof.
  intros H. apply maskSecrets_absent. intros v p Hv Hp.
  apply (maskSecrets_removes_pattern text secrets v p Hv Hp).
  rewrite forallb_forall in H. exact (marker_safe_spec v p (H v Hv) Hp).
Qed.

Lemma maskSecrets_idempotent_witness :
  forallb marker_safe (values test_secrets) = true
  /\ maskSecrets
       (maskSecrets (lit "Keys: mysecretvalue123 and sk-abc123xyz")
          test_secrets) test_secrets
     = maskSecrets (lit "Keys: mysecretvalue123 and sk-abc123xyz")
         test_secrets.
Proof.
  assert (H : forallb marker_safe (values test_secrets) = true)
    by reflexivity.
  exact (conj H
    (maskSecrets_idempotent (lit "Keys: mysecretvalue123 and sk-abc123xyz")
       test_secrets H)).
Defined.

(** *** The size and shape of a truncated text *)

Section Bytes.

(** The encoding of a text followed by one that does not start with a low
    surrogate is the two encodings in a row. *)
Lemma utf8_encode_app_aux (t : jsstring) (n : nat) :
  match t with [] => True | c :: _ => is_low c = false end ->
  forall s, length s <= n ->
  utf8_encode (s ++ t) = utf8_encode s ++ utf8_encode t.
Proof.
  intros Ht. induction n as [|n IH]; intros s Hn.
  - destruct s; [reflexivity | simpl in Hn; lia].
  - destruct s as [|c s]; [reflexivity|]. simpl in Hn.
    cbn [app utf8_encode].
    destruct (is_high c).
    + destruct s as [|d s].
      * cbn [app]. destruct t as [|e t]; [now rewrite app_nil_r|].
        now rewrite Ht.
      * cbn [app]. destruct (is_low d).
        -- simpl in Hn. rewrite IH by lia. now rewrite app_assoc.
        -- rewrite <- app_assoc. f_equal.
           change (d :: s ++ t) with ((d :: s) ++ t). apply IH.
           simpl in *. lia.
    + destruct (is_low c); rewrite <- app_assoc; f_equal; apply IH; lia.
Qed.

Lemma byteLength_app_notice (s : jsstring) :
  byteLength (s ++ TRUNCATION_MESSAGE)
  = (byteLength s + byteLength TRUNCATION_MESSAGE)%Z.
Proof.
  unfold byteLength.
  rewrite (utf8_encode_app_aux TRUNCATION_MESSAGE (length s)); auto.
  - rewrite length_app. lia.
  - reflexivity.
Qed.

Lemma firstn_prefix (s : jsstring) (n : nat) : exists r, s = firstn n s ++ r.
Proof. exists (skipn n s). now rewrite firstn_skipn. Qed.

Lemma no_surrogates_wellformed (s : jsstring) :
  no_surrogates s = true -> isWellFormed s = true.
Proof.
  induction s as [|c s IH]; [reflexivity|].
  cbn [no_surrogates forallb]. intros H.
  apply andb_true_iff in H as [Hc Hs]. apply negb_true_iff in Hc.
  apply orb_false_iff in Hc as [Hh Hl]. cbn [isWellFormed].
  rewrite Hh, Hl. now apply IH.
Qed.

Lemma no_surrogates_app (s t : jsstring) :
  no_surrogates (s ++ t) = no_surrogates s && no_surrogates t.
Proof. apply forallb_app. Qed.

Lemma no_surrogates_firstn (s : jsstring) (n : nat) :
  no_surrogates s = true -> no_surrogates (firstn n s) = true.
Proof.
  intros H. destruct (firstn_prefix s n) as [r E]. rewrite E in H.
  rewrite no_surrogates_app in H. now apply andb_true_iff in H as [H _].
Qed.

End Bytes.

(** X7.  Whenever [truncateOutput(text, maxBytes)] returns, the text it
    returns is at most [maxBytes] bytes long, notice included; it is flagged
    exactly when the input is longer than [maxBytes] bytes; an unflagged
    text is the input, and a flagged one is a prefix of the input followed
    by the notice. *)
Theorem truncateOutput_within_ceiling
  (text : jsstring) (maxBytes : Z) (t : jsstring) (flag : bool) :
  truncateOutput text maxBytes = Some (t, flag) ->
  (byteLength t <= maxBytes)%Z
  /\ (flag = true <-> (maxBytes < byteLength text)%Z)
  /\ (flag = false -> t = text)
  /\ (flag = true ->
      exists pre rest, text = pre ++ rest /\ t = pre ++ TRUNCATION_MESSAGE).
Proof.
  intros H. destruct (Z_le_dec (byteLength text) maxBytes) as [Hle|Hgt].
  - rewrite truncateOutput_small in H by assumption. injection H as <- <-.
    repeat split; auto; try discriminate; intros; lia.
  - rewrite truncateOutput_large in H by lia.
    destruct (shrink (length text) text maxBytes) as [k0|] eqn:E;
      [|discriminate].
    injection H as <- <-. apply shrink_spec in E as (k & -> & Hk & _).
    rewrite byteLength_app_notice. unfold fits in Hk.
    repeat split; auto; try discriminate; try lia.
    intros _. unfold kept.
    destruct (firstn_prefix text (length text - 1000 * k)) as [r Hr].
    now exists (firstn (length text - 1000 * k) text), r.
Qed.

Lemma truncateOutput_within_ceiling_witness :
  truncateOutput (repeat 97%N 2500) 1100
  = Some (repeat 97%N 500 ++ TRUNCATION_MESSAGE, true)
  /\ (byteLength (repeat 97%N 500 ++ TRUNCATION_MESSAGE) <= 1100)%Z
  /\ (true = true <-> (1100 < byteLength (repeat 97%N 2500))%Z)
  /\ (true = false -> repeat 97%N 500 ++ TRUNCATION_MESSAGE = repeat 97%N 2500)
  /\ (true = true ->
      exists pre rest,
        repeat 97%N 2500 = pre ++ rest
        /\ repeat 97%N 500 ++ TRUNCATION_MESSAGE = pre ++ TRUNCATION_MESSAGE).
Proof.
  assert (H : truncateOutput (repeat 97%N 2500) 1100
              = Some (repeat 97%N 500 ++ TRUNCATION_MESSAGE, true))
    by reflexivity.
  exact (conj H
    (truncateOutput_within_ceiling (repeat 97%N 2500) 1100 _ _ H)).
Defined.

(** X8.  [truncateOutput(text, maxBytes)] fails to return in one case
    only: the text is longer than [maxBytes] bytes and [maxBytes] is less
    than the 41 bytes of the notice, so that not even the empty text
    fits and the loop runs for ever.  With a ceiling of 41 bytes or more, as
    the 1048576 of the tool, it returns for every text. *)
Theorem truncateOutput_loops_iff (text : jsstring) (maxBytes : Z) :
  truncateOutput text maxBytes = None
  <-> (maxBytes < byteLength text)%Z /\ (maxBytes < 41)%Z.
Proof.
  rewrite <- byteLength_notice. split.
  - intros H. destruct (Z_le_dec (byteLength text) maxBytes) as [Hle|Hgt].
    + rewrite truncateOutput_small in H by assumption. discriminate.
    + split; [lia|]. rewrite truncateOutput_large in H by lia.
      destruct (Z_le_dec (byteLength TRUNCATION_MESSAGE) maxBytes) as [Hn|Hn];
        [|lia].
      destruct (shrink_total maxBytes Hn (length text) text (le_n _)) as [t E].
      rewrite E in H. discriminate.
  - intros [Hgt Hn]. rewrite truncateOutput_large by assumption.
    now rewrite shrink_diverges.
Qed.

(** X9.  A text without surrogate code units, that is a text of characters
    of the Basic Multilingual Plane, of one to three bytes each, is never
    cut inside a character: what [truncateOutput] returns for it is well
    formed. *)
Theorem truncateOutput_keeps_bmp_whole
  (text : jsstring) (maxBytes : Z) (t : jsstring) (flag : bool) :
  no_surrogates text = true ->
  truncateOutput text maxBytes = Some (t, flag) ->
  no_surrogates t = true /\ isWellFormed t = true.
Proof.
  intros Hs H.
  assert (Ht : no_surrogates t = true).
  { destruct (Z_le_dec (byteLength text) maxBytes) as [Hle|Hgt].
    - rewrite truncateOutput_small in H by assumption. now injection H as <- <-.
    - rewrite truncateOutput_large in H by lia.
      destruct (shrink (length text) text maxBytes) as [k0|] eqn:E;
        [|discriminate].
      injection H as <- <-. apply shrink_spec in E as (k & -> & _ & _).
      rewrite no_surrogates_app. apply andb_true_iff. split; [|reflexivity].
      now apply no_surrogates_firstn. }
  split; [exact Ht | now apply no_surrogates_wellformed].
Qed.

Lemma truncateOutput_keeps_bmp_whole_witness :
  no_surrogates (repeat 0x20AC%N 2500) = true
  /\ truncateOutput (repeat 0x20AC%N 2500) 3500
     = Some (repeat 0x20AC%N 500 ++ TRUNCATION_MESSAGE, true)
  /\ no_surrogates (repeat 0x20AC%N 500 ++ TRUNCATION_MESSAGE) = true
  /\ isWellFormed (repeat 0x20AC%N 500 ++ TRUNCATION_MESSAGE) = true.
Proof.
  assert (H1 : no_surrogates (repeat 0x20AC%N 2500) = true) by reflexivity.
  assert (H2 : truncateOutput (repeat 0x20AC%N 2500) 3500
               = Some (repeat 0x20AC%N 500 ++ TRUNCATION_MESSAGE, true))
    by reflexivity.
  exact (conj H1 (conj H2
    (truncateOutput_keeps_bmp_whole (repeat 0x20AC%N 2500) 3500 _ _ H1 H2))).
Defined.

(** *** Warnings and the text returned *)

Section Warnings.

Lemma capture_whole (chunks : list Chunk) :
  (snd (capture chunks) < MAX_OUTPUT_BYTES)%Z ->
  capture chunks = (text_of chunks, bytes_of chunks).
Proof.
  intros H. unfold capture in *.
  destruct (fold_on_data chunks ([], 0%Z)) as (k & Hk & E & _ & Hge).
  rewrite E in *. cbn [fst snd app] in *.
  destruct (Nat.eq_dec k (length chunks)) as [->|Hne].
  - now rewrite firstn_all.
  - specialize (Hge ltac:(lia)). lia.
Qed.

Lemma truncateOutput_unflagged (text t : jsstring) (maxBytes : Z) :
  truncateOutput text maxBytes = Some (t, false) ->
  t = text /\ (byteLength text <= maxBytes)%Z.
Proof.
  unfold truncateOutput.
  destruct (Z.leb_spec (byteLength text) maxBytes) as [L|L].
  - intros [= ->]. now split.
  - destruct (shrink _ _ _); discriminate.
Qed.

Lemma warnings_of_cases (result : ProcessResult) :
  (stdoutTruncated result = false /\ stderrTruncated result = false
   /\ warnings_of result = None)
  \/ (stdoutTruncated result = true /\ stderrTruncated result = false
      /\ warnings_of result = Some [lit "stdout was truncated (exceeded 1MB)"])
  \/ (stdoutTruncated result = false /\ stderrTruncated result = true
      /\ warnings_of result = Some [lit "stderr was truncated (exceeded 1MB)"])
  \/ (stdoutTruncated result = true /\ stderrTruncated result = true
      /\ warnings_of result
         = Some [lit "stdout was truncated (exceeded 1MB)";
                 lit "stderr was truncated (exceeded 1MB)"]).
Proof.
  unfold warnings_of.
  destruct (stdoutTruncated result), (stderrTruncated result); cbn [orb app];
    auto 10.
Qed.

(** The result of a run whose child closes, with its warnings. *)
Lemma injectRun_closes_result (w : World) (a : Args)
  (token repository content : jsstring) (code : option Z)
  (out err : list Chunk) :
  trim (command a) <> [] ->
  getToken w = inr token ->
  getRepository w = inr repository ->
  pullSecrets w repository (environment_of a) token = inr content ->
  process_of w a content = Closes code out err ->
  exists result,
    on_close (parseEnvContent w content) code out err = Value result
    /\ completion_of w a =
       Value {|
         content := Json {|
           response_exitCode := exitCode result;
           response_stdout := stdout result;
           response_stderr := stderr result;
           secretsInjected := length (keys (parseEnvContent w content));
           warnings := warnings_of result
         |};
         isError := negb (exitCode result =? 0)%Z
       |}.
Proof.
  intros Hc Ht Hr Hp Hs. unfold process_of in Hs.
  destruct (on_close_returns (parseEnvContent w content) code out err)
    as (t1 & f1 & t2 & f2 & _ & _ & E).
  eexists. split; [exact E|].
  unfold completion_of, injectRun. rewrite validation_passes by assumption.
  unfold bind, call, run_command. rewrite Ht, Hr. simpl settle. cbv iota beta.
  rewrite Hp. simpl settle. cbv iota beta. rewrite Hs, E. reflexivity.
Qed.

End Warnings.

(** X10.  A run whose child closes never shortens a stream silently: when
    the result carries no [warnings], its [stdout] and [stderr] are the
    redaction of the whole text of every [data] event of the stream, and
    both texts are within 1048576 bytes.  When it carries [warnings], they
    are the warning of [stdout], that of [stderr], or both in this order,
    never an empty list. *)
Theorem injectRun_no_silent_truncation (w : World) (a : Args)
  (token repository content : jsstring) (code : option Z)
  (out err : list Chunk) :
  trim (command a) <> [] ->
  getToken w = inr token ->
  getRepository w = inr repository ->
  pullSecrets w repository (environment_of a) token = inr content ->
  process_of w a content = Closes code out err ->
  exists response,
    completion_of w a
    = Value {| content := Json response;
               isError := negb (exit_code_of code =? 0)%Z |}
    /\ (warnings response = None ->
        response_stdout response
        = maskSecrets (text_of out) (parseEnvContent w content)
        /\ response_stderr response
           = maskSecrets (text_of err) (parseEnvContent w content)
        /\ (byteLength (text_of out) <= MAX_OUTPUT_BYTES)%Z
        /\ (byteLength (text_of err) <= MAX_OUTPUT_BYTES)%Z)
    /\ (forall ws, warnings response = Some ws ->
        ws = [lit "stdout was truncated (exceeded 1MB)"]
        \/ ws = [lit "stderr was truncated (exceeded 1MB)"]
        \/ ws = [lit "stdout was truncated (exceeded 1MB)";
                 lit "stderr was truncated (exceeded 1MB)"]).
Proof.
  intros Hc Ht Hr Hp Hs.
  destruct (injectRun_closes_result w a token repository content code out err
              Hc Ht Hr Hp Hs) as (result & E & ->).
  destruct (on_close_returns (parseEnvContent w content) code out err)
    as (t1 & f1 & t2 & f2 & E1 & E2 & E').
  rewrite E' in E. injection E as <-. cbn [exitCode stdout stderr].
  eexists. split; [reflexivity|]. cbn [warnings response_stdout response_stderr].
  split.
  - intros W.
    match type of W with warnings_of ?r = _ =>
      destruct (warnings_of_cases r) as [(A & B & _)|[(_ & _ & X)|[(_ & _ & X)|(_ & _ & X)]]];
        try congruence
    end.
    cbn [stdoutTruncated stderrTruncated] in A, B.
    apply orb_false_elim in A as [-> A], B as [-> B].
    apply Z.leb_gt in A, B.
    rewrite (capture_whole out A) in E1. rewrite (capture_whole err B) in E2.
    cbn [fst] in E1, E2.
    apply truncateOutput_unflagged in E1 as [-> L1], E2 as [-> L2].
    auto.
  - intros ws W.
    match type of W with warnings_of ?r = _ =>
      destruct (warnings_of_cases r) as [(_ & _ & X)|[(_ & _ & X)|[(_ & _ & X)|(_ & _ & X)]]];
        rewrite X in W; [discriminate| | |]; injection W as <-; auto
    end.
Qed.

Lemma injectRun_no_silent_truncation_witness :
  exists response,
    completion_of (test_world test_secrets)
      (test_args (lit "echo") [lit "mysecretvalue123"])
    = Value {| content := Json response; isError := false |}
    /\ warnings response = None
    /\ response_stdout response = lit "***REDACTED***" ++ [10%N].
Proof.
  destruct (injectRun_no_silent_truncation (test_world test_secrets)
              (test_args (lit "echo") [lit "mysecretvalue123"])
              (lit "mock-token") (lit "owner/repo")
              (lit "SECRET_KEY=mysecretvalue123") (Some 0%Z)
              [{| chunk_text := lit "mysecretvalue123" ++ [10%N];
                  chunk_length := 17 |}] [])
    as (response & E & H & _);
    [discriminate|reflexivity|reflexivity|reflexivity|reflexivity|].
  exists response. split; [exact E|].
  assert (W : warnings response = None).
  { assert (E0 : completion_of (test_world test_secrets)
                   (test_args (lit "echo") [lit "mysecretvalue123"])
                 = Value {| content := Json {|
                     response_exitCode := 0;
                     response_stdout := lit "***REDACTED***" ++ [10%N];
                     response_stderr := [];
                     secretsInjected := 2;
                     warnings := None |};
                   isError := false |}) by (vm_compute; reflexivity).
    rewrite E0 in E. now injection E as <-. }
  split; [exact W|].
  destruct (H W) as (-> & _). vm_compute. reflexivity.
Defined.

(** *** The alphabet of the sanitized text *)

Section Alphabet.

Variable c : N.

Lemma replaceAll_from_In (p r : jsstring) (n : nat) :
  forall s, In c (replaceAll_from n s p r) -> In c s \/ In c r.
Proof.
  induction n as [|n IH]; intros s; cbn [replaceAll_from]; [auto|].
  destruct (find s p) as [[b a]|] eqn:F; [|auto].
  apply find_Some in F. subst s. rewrite !in_app_iff.
  intros [H|[H|H]]; auto.
  destruct (IH a H); auto.
Qed.

Lemma replaceAll_In (s p r : jsstring) :
  In c (replaceAll s p r) -> In c s \/ In c r.
Proof.
  destruct p as [|x p]; cbn [replaceAll]; [|apply replaceAll_from_In].
  rewrite in_app_iff, in_flat_map. intros [H|(y & Hy & [->|H])]; auto.
Qed.

Lemma maskValue_In (v s : jsstring) :
  In c (maskValue s v) -> In c s \/ In c REDACTED.
Proof.
  rewrite maskValue_patterns. revert s.
  induction (patterns v) as [|p ps IH]; intros s; cbn [fold_left]; [auto|].
  intros H. destruct (IH _ H) as [H'|H']; [|auto].
  destruct (replaceAll_In _ _ _ H'); auto.
Qed.

Lemma maskSecrets_In (text : jsstring) (secrets : SecretMap) :
  In c (maskSecrets text secrets) -> In c text \/ In c REDACTED.
Proof.
  unfold maskSecrets. destruct (negb (truthy text)); [auto|].
  revert text. induction (values secrets) as [|v vs IH]; intros s;
    cbn [fold_left]; [auto|].
  intros H. destruct (IH _ H) as [H'|H']; [|auto].
  destruct (maskValue_In _ _ H'); auto.
Qed.

End Alphabet.

(** X11.  The redaction pass writes nothing but the marker: every code
    unit of the sanitized text is a code unit of the input text or of
    [***REDACTED***]. *)
Theorem maskSecrets_writes_only_the_marker (text : jsstring)
  (secrets : SecretMap) (c : N) :
  In c (maskSecrets text secrets) -> In c text \/ In c REDACTED.
Proof. apply maskSecrets_In. Qed.

Lemma maskSecrets_writes_only_the_marker_witness :
  In 42%N (maskSecrets (lit "key=mysecretvalue123") test_secrets)
  /\ (In 42%N (lit "key=mysecretvalue123") \/ In 42%N REDACTED).
Proof.
  assert (H : In 42%N (maskSecrets (lit "key=mysecretvalue123") test_secrets)).
  { vm_compute. auto 10. }
  split; [exact H|].
  exact (maskSecrets_writes_only_the_marker _ _ _ H).
Defined.

(** ** Properties of the client in [utils/api.ts] *)

Section Client.

Variable P : Api.Platform.

Section Retry.

Variable net : nat -> Api.FetchOutcome.
Variable request : Api.Request.
Variable timeoutMs : Z.

Lemma retry_loop_cases :
  (retryable_at P net timeoutMs 0 = false
   /\ Api.fetchWithRetry P net request timeoutMs
      = ([Api.Fetch request], attempt_of P net timeoutMs 0))
  \/ (retryable_at P net timeoutMs 0 = true
      /\ retryable_at P net timeoutMs 1 = false
      /\ Api.fetchWithRetry P net request timeoutMs
         = ([Api.Fetch request; Api.Sleep 1000; Api.Fetch request],
            attempt_of P net timeoutMs 1))
  \/ (retryable_at P net timeoutMs 0 = true
      /\ retryable_at P net timeoutMs 1 = true
      /\ Api.fetchWithRetry P net request timeoutMs
         = ([Api.Fetch request; Api.Sleep 1000; Api.Fetch request;
             Api.Sleep 2000; Api.Fetch request],
            attempt_of P net timeoutMs 2)).
Proof.
  unfold Api.fetchWithRetry, retryable_at, attempt_of.
  cbn [Api.retry_loop Api.MAX_RETRIES].
  destruct (Api.fetchWithTimeout P (net 0) timeoutMs) as [e0|r0] eqn:E0.
  2: { left. now split. }
  destruct (Api.isRetryableError P e0) eqn:R0; cbn [negb orb Nat.eqb Nat.sub].
  2: { left. now split. }
  right.
  destruct (Api.fetchWithTimeout P (net 1) timeoutMs) as [e1|r1] eqn:E1.
  2: { left. now repeat split. }
  destruct (Api.isRetryableError P e1) eqn:R1; cbn [negb orb Nat.eqb Nat.sub].
  2: { left. now repeat split. }
  right.
  destruct (Api.fetchWithTimeout P (net 2) timeoutMs) as [e2|r2] eqn:E2.
  2: { now repeat split. }
  rewrite orb_true_r. now repeat split.
Qed.

(** A response ends the loop at once, whatever its status. *)
Lemma fetchWithRetry_responds (r : Api.Response) :
  net 0 = Api.Responds r ->
  Api.fetchWithRetry P net request timeoutMs = ([Api.Fetch request], inr r).
Proof.
  intros H. unfold Api.fetchWithRetry. cbn [Api.retry_loop Api.MAX_RETRIES].
  now rewrite H.
Qed.

Lemma attempt_responds (k : nat) (r : Api.Response) :
  attempt_of P net timeoutMs k = inr r -> net k = Api.Responds r.
Proof.
  unfold attempt_of, Api.fetchWithTimeout.
  destruct (net k) as [r'|[e|name m|]]; try discriminate.
  - now intros [= ->].
  - now destruct (eqb name (lit "AbortError")).
Qed.

Lemma fetchWithRetry_result (r : Api.Response) :
  snd (Api.fetchWithRetry P net request timeoutMs) = inr r ->
  exists k, k < 3 /\ net k = Api.Responds r.
Proof.
  destruct retry_loop_cases as [(_ & ->)|[(_ & _ & ->)|(_ & _ & ->)]];
    cbn [snd]; intros H; apply attempt_responds in H;
    [exists 0|exists 1|exists 2]; (split; [lia|assumption]).
Qed.

End Retry.

Lemma handleResponse_not_ok (r : Api.Response) (text : jsstring) :
  Api.ok r = false ->
  Api.body r = inr text ->
  exists e,
    Api.handleResponse P r = inl (Api.ThrowAPIError e)
    /\ Api.statusCode e = Api.status r
    /\ Api.isRetryable e = false.
Proof.
  intros Hok Hb. unfold Api.handleResponse. rewrite Hb, Hok. cbn [negb].
  match goal with |- context [includes ?c _] => destruct (includes c _) end.
  2: { eexists. split; [reflexivity|]. now split. }
  destruct (Api.JSON_parse P text) as [m|error].
  { eexists. split; [reflexivity|]. now split. }
  destruct (Api.get (Some error) (lit "title")) as [title|],
           (Api.get (Some error) (lit "detail")) as [detail|];
    eexists; (split; [reflexivity|]); now split.
Qed.

Lemma contentType_is_json (r : Api.Response) :
  includes
    match Api.content_type r with
    | Some c => if truthy c then c else []
    | None => []
    end (lit "application/json") = is_json r.
Proof.
  unfold is_json. destruct (Api.content_type r) as [[|c ct]|]; reflexivity.
Qed.

Lemma handleResponse_ok (r : Api.Response) (v : Api.JSON) :
  Api.handleResponse P r = inr v ->
  exists text,
    Api.ok r = true /\ Api.body r = inr text
    /\ ((text = [] /\ v = Api.JObject [])
        \/ (text <> [] /\ is_json r = true /\ Api.JSON_parse P text = inr v)
        \/ (text <> [] /\ is_json r = false
            /\ v = Api.JObject [(lit "content", Api.JString text)])).
Proof.
  unfold Api.handleResponse. cbv zeta. rewrite contentType_is_json.
  intros H. destruct (Api.body r) as [e|text]; [discriminate|].
  exists text.
  destruct (Api.ok r); cbn [negb] in H.
  2: { destruct (is_json r); [|discriminate].
       destruct (Api.JSON_parse P text); [discriminate|].
       destruct (Api.get _ (lit "title"));
         [destruct (Api.get _ (lit "detail"))|]; discriminate. }
  destruct text as [|c text]; cbn [truthy negb] in H.
  { injection H as <-. auto. }
  split; [reflexivity|]. split; [reflexivity|]. right.
  destruct (is_json r).
  - left. destruct (Api.JSON_parse P (c :: text)); [discriminate|].
    injection H as <-. repeat split; congruence.
  - right. injection H as <-. repeat split; congruence.
Qed.

End Client.

Section Environment.

Lemma name_char_facts (c : N) :
  Api.is_name_char c = true ->
  (c < 0x80)%N /\ Api.form_byte c = [c] /\ uri_unescaped c = true.
Proof.
  intros H.
  assert (Hc : (c < N.of_nat 128)%N).
  { unfold Api.is_name_char, Api.is_letter, in_range in H.
    destruct (N.ltb_spec c 128) as [L|L]; [lia|exfalso].
    repeat (apply orb_prop in H; destruct H as [H|H]);
      try (apply andb_prop in H; destruct H as [_ H]);
      try (apply N.leb_le in H); try (apply N.eqb_eq in H); lia. }
  split; [lia|].
  assert (Hall : forallb
            (fun c => implb (Api.is_name_char c)
                        (eqb (Api.form_byte c) [c] && uri_unescaped c))
            (below 128) = true) by (vm_compute; reflexivity).
  pose proof (below_spec 128 _ Hall c Hc) as F. cbv beta in F.
  rewrite H in F. cbn [implb] in F. apply andb_prop in F as [F1 F2].
  split; [|exact F2].
  destruct (Api.form_byte c) as [|x [|y l]]; cbn [eqb] in F1;
    [discriminate| |now rewrite andb_false_r in F1].
  rewrite andb_true_r in F1. apply N.eqb_eq in F1. now subst.
Qed.

Lemma name_chars_plain (s : jsstring) :
  forallb Api.is_name_char s = true ->
  Api.form_encode s = s /\ encodeURIComponent s = Some s.
Proof.
  unfold Api.form_encode. induction s as [|c s IH]; [now split|].
  cbn [forallb]. intros H. apply andb_prop in H as [Hc Hs].
  destruct (name_char_facts c Hc) as (L & F & U). destruct (IH Hs) as [IH1 IH2].
  rewrite utf8_encode_ascii by exact L. cbn [flat_map encodeURIComponent].
  rewrite F, U, IH1, IH2. now split.
Qed.

Lemma letter_is_name_char (c : N) :
  Api.is_letter c = true -> Api.is_name_char c = true.
Proof. intros H. unfold Api.is_name_char. now rewrite H. Qed.

Lemma validateEnvironment_test (environment : jsstring) :
  Api.validateEnvironment environment = None
  <-> Api.ENVIRONMENT_PATTERN_test environment = true.
Proof.
  unfold Api.validateEnvironment.
  destruct environment as [|c s]; [cbn; split; discriminate|].
  cbn [truthy negb orb].
  destruct (Api.ENVIRONMENT_PATTERN_test (c :: s)); cbn [negb];
    split; (discriminate || reflexivity).
Qed.

Lemma test_name_chars (environment : jsstring) :
  Api.ENVIRONMENT_PATTERN_test environment = true ->
  environment <> [] /\ forallb Api.is_name_char environment = true.
Proof.
  destruct environment as [|c s]; [discriminate|].
  cbn [Api.ENVIRONMENT_PATTERN_test forallb]. intros H.
  apply andb_prop in H as [Hc Hs]. split; [discriminate|].
  now rewrite (letter_is_name_char c Hc), Hs.
Qed.

End Environment.

Section Pull.

Variable P : Api.Platform.
Variable net : nat -> Api.FetchOutcome.
Variables base repository environment token : jsstring.

Lemma pullSecrets_invalid (e : Api.APIError) :
  Api.validateEnvironment environment = Some e ->
  Api.pullSecrets P net base repository environment token
  = ([], inl (Api.ThrowAPIError e)).
Proof. intros H. unfold Api.pullSecrets. now rewrite H. Qed.

Lemma pullSecrets_events :
  Api.validateEnvironment environment = None ->
  fst (Api.pullSecrets P net base repository environment token)
  = fst (Api.fetchWithRetry P net
           (Api.pull_request base repository environment token)
           Api.DEFAULT_TIMEOUT_MS).
Proof.
  intros H. unfold Api.pullSecrets. rewrite H.
  now destruct (Api.fetchWithRetry _ _ _ _).
Qed.

Lemma pullSecrets_valid :
  Api.validateEnvironment environment = None ->
  snd (Api.pullSecrets P net base repository environment token)
  = match snd (Api.fetchWithRetry P net
                 (Api.pull_request base repository environment token)
                 Api.DEFAULT_TIMEOUT_MS) with
    | inl e => inl e
    | inr response =>
        match Api.handleResponse P response with
        | inl e => inl e
        | inr result =>
            match Api.get (Some result) (lit "data") with
            | None =>
                inl (Api.ThrowError (lit "TypeError") (Api.null_read_message P))
            | Some data =>
                if negb (Api.truthy_value data)
                then inl (Api.ThrowAPIError Api.INVALID_RESPONSE)
                else
                  match Api.get data (lit "content") with
                  | Some (Some (Api.JString content)) => inr content
                  | _ => inl (Api.ThrowAPIError Api.INVALID_RESPONSE)
                  end
            end
        end
    end.
Proof.
  intros H. unfold Api.pullSecrets. rewrite H.
  now destruct (Api.fetchWithRetry _ _ _ _).
Qed.

End Pull.

Lemma get_Some_object (v : Api.JSON) (k : jsstring) (x : Api.JSON) :
  Api.get (Some v) k = Some (Some x) ->
  exists fields, v = Api.JObject fields /\ Api.field fields k = Some x.
Proof.
  destruct v; cbn [Api.get]; try discriminate.
  intros [= H]. eauto.
Qed.

(** X12.  An environment name that [validateEnvironment] accepts is not
    empty and needs no escaping: the serializer of [URLSearchParams] and
    [encodeURIComponent] leave it as it is, so it stands verbatim at the
    end of the URL that [pullSecrets] requests. *)
Theorem valid_environment_is_url_safe (environment : jsstring) :
  Api.validateEnvironment environment = None ->
  environment <> []
  /\ Api.form_encode environment = environment
  /\ encodeURIComponent environment = Some environment
  /\ forall base repository token,
       Api.url (Api.pull_request base repository environment token)
       = base ++ lit "/v1/secrets/pull?repo=" ++ Api.form_encode repository
         ++ lit "&environment=" ++ environment.
Proof.
  intros H. apply validateEnvironment_test, test_name_chars in H as [Hne Hs].
  destruct (name_chars_plain environment Hs) as [F U].
  repeat split; auto.
  intros base repository token. cbn [Api.url Api.pull_request].
  unfold Api.pull_params. rewrite F.
  change (lit "/v1/secrets/pull?repo=")
    with (lit "/v1/secrets/pull?" ++ lit "repo=").
  now rewrite <- !app_assoc.
Qed.

Lemma valid_environment_is_url_safe_witness :
  Api.validateEnvironment (lit "development") = None
  /\ Api.url (Api.pull_request test_base (lit "owner/repo")
                (lit "development") (lit "mock-token"))
     = lit "https://api.keyway.sh/v1/secrets/pull?repo=owner%2Frepo&environment=development".
Proof.
  split; [reflexivity|].
  destruct (valid_environment_is_url_safe (lit "development") eq_refl)
    as (_ & _ & _ & H).
  rewrite H. reflexivity.
Defined.

(** X13.  Whatever the network does, [pullSecrets] sends at most three
    requests, all of them the same [GET] for the repository and the
    environment with the token as bearer; it sends none exactly when the
    environment name does not match [ENVIRONMENT_PATTERN]; and it pauses
    only for 1000 ms or 2000 ms. *)
Theorem pullSecrets_requests (P : Api.Platform) (net : nat -> Api.FetchOutcome)
  (base repository environment token : jsstring) :
  exists n,
    n <= 3
    /\ requests (fst (Api.pullSecrets P net base repository environment token))
       = repeat (Api.pull_request base repository environment token) n
    /\ (n = 0 <-> Api.ENVIRONMENT_PATTERN_test environment = false)
    /\ (forall ms,
          In (Api.Sleep ms)
             (fst (Api.pullSecrets P net base repository environment token)) ->
          ms = 1000%Z \/ ms = 2000%Z).
Proof.
  destruct (Api.validateEnvironment environment) as [e|] eqn:E.
  - exists 0. rewrite (pullSecrets_invalid _ _ _ _ _ _ e E). cbn [fst requests flat_map repeat].
    split; [lia|]. split; [reflexivity|]. split; [|intros ms []].
    split; [intros _|reflexivity].
    destruct (Api.ENVIRONMENT_PATTERN_test environment) eqn:T; [|reflexivity].
    apply validateEnvironment_test in T. congruence.
  - rewrite pullSecrets_events by exact E.
    pose proof (proj1 (validateEnvironment_test environment) E) as T.
    destruct (retry_loop_cases P net
                (Api.pull_request base repository environment token)
                Api.DEFAULT_TIMEOUT_MS)
      as [(_ & ->)|[(_ & _ & ->)|(_ & _ & ->)]];
      [exists 1|exists 2|exists 3]; cbn [fst];
      (split; [lia|]); (split; [reflexivity|]);
      (split; [split; [lia|congruence]|]);
      intros ms H; cbn [In] in H;
      repeat (destruct H as [H|H]; [try discriminate; injection H as <-; auto|]);
      contradiction.
Qed.

(** X14.  [fetchWithRetry] ends in one of three ways: after the first
    attempt, when that returned a response or threw an error that is not
    retryable; after a pause of 1000 ms and a second attempt, likewise;
    or after a further pause of 2000 ms and a third attempt, whose outcome
    is final whatever it is.  There is no pause of 4000 ms and no fourth
    attempt. *)
Theorem fetchWithRetry_backoff (P : Api.Platform)
  (net : nat -> Api.FetchOutcome) (request : Api.Request) (timeoutMs : Z) :
  (retryable_at P net timeoutMs 0 = false
   /\ Api.fetchWithRetry P net request timeoutMs
      = ([Api.Fetch request], attempt_of P net timeoutMs 0))
  \/ (retryable_at P net timeoutMs 0 = true
      /\ retryable_at P net timeoutMs 1 = false
      /\ Api.fetchWithRetry P net request timeoutMs
         = ([Api.Fetch request; Api.Sleep 1000; Api.Fetch request],
            attempt_of P net timeoutMs 1))
  \/ (retryable_at P net timeoutMs 0 = true
      /\ retryable_at P net timeoutMs 1 = true
      /\ Api.fetchWithRetry P net request timeoutMs
         = ([Api.Fetch request; Api.Sleep 1000; Api.Fetch request;
             Api.Sleep 2000; Api.Fetch request],
            attempt_of P net timeoutMs 2)).
Proof. apply retry_loop_cases. Qed.

(** X15.  A response whose status is not 2xx is never retried: for a
    valid environment name, [pullSecrets] sends one request and throws an
    [APIError] with the status of the response and [isRetryable] false,
    also for a status from 500 to 599, which [isRetryableError] would
    accept. *)
Theorem server_errors_are_not_retried (P : Api.Platform)
  (net : nat -> Api.FetchOutcome)
  (base repository environment token text : jsstring) (r : Api.Response) :
  Api.validateEnvironment environment = None ->
  net 0 = Api.Responds r ->
  Api.ok r = false ->
  Api.body r = inr text ->
  exists e,
    Api.pullSecrets P net base repository environment token
    = ([Api.Fetch (Api.pull_request base repository environment token)],
       inl (Api.ThrowAPIError e))
    /\ Api.statusCode e = Api.status r
    /\ Api.isRetryable e = false
    /\ Api.isRetryableError P (Api.ThrowAPIError e)
       = in_range 500 599 (Api.status r).
Proof.
  intros Hv Hn Hok Hb.
  destruct (handleResponse_not_ok P r text Hok Hb) as (e & He & Hs & Hr).
  exists e. split; [|split; [exact Hs|split; [exact Hr|]]].
  - unfold Api.pullSecrets. rewrite Hv.
    rewrite (fetchWithRetry_responds P net _ _ r Hn). now rewrite He.
  - cbn [Api.isRetryableError]. rewrite Hr, Hs. cbn [orb]. unfold in_range.
    f_equal. destruct (N.ltb_spec (Api.status r) 600),
      (N.leb_spec (Api.status r) 599); (reflexivity || lia).
Qed.

Lemma server_errors_are_not_retried_witness :
  exists e,
    Api.pullSecrets test_platform (fun _ => Api.Responds test_unavailable)
      test_base (lit "owner/repo") (lit "production") (lit "mock-token")
    = ([Api.Fetch (Api.pull_request test_base (lit "owner/repo")
                     (lit "production") (lit "mock-token"))],
       inl (Api.ThrowAPIError e))
    /\ Api.statusCode e = 503%N
    /\ Api.isRetryable e = false
    /\ Api.isRetryableError test_platform (Api.ThrowAPIError e) = true.
Proof.
  exact (server_errors_are_not_retried test_platform
           (fun _ => Api.Responds test_unavailable) test_base
           (lit "owner/repo") (lit "production") (lit "mock-token")
           (lit "Service Unavailable") test_unavailable
           eq_refl eq_refl eq_refl eq_refl).
Defined.

(** X16.  When each of the three attempts runs into the timer of
    [fetchWithTimeout], [fetchWithRetry] makes all three, pauses 1000 ms
    and 2000 ms between them and throws [Request timeout after ...s];
    given that lowering the case of this message keeps the word
    [timeout] in it, as [toLowerCase] does. *)
Theorem timeouts_are_retried (P : Api.Platform)
  (net : nat -> Api.FetchOutcome) (request : Api.Request) (timeoutMs : Z) :
  (forall k, k < 3 ->
     exists m, net k = Api.Rejects (Api.ThrowError (lit "AbortError") m)) ->
  includes
    (Api.toLowerCase P
       (lit "Request timeout after " ++ Api.seconds_text P timeoutMs
        ++ lit "s"))
    (lit "timeout") = true ->
  Api.fetchWithRetry P net request timeoutMs
  = ([Api.Fetch request; Api.Sleep 1000; Api.Fetch request;
      Api.Sleep 2000; Api.Fetch request],
     inl (Api.ThrowError (lit "Error")
            (lit "Request timeout after " ++ Api.seconds_text P timeoutMs
             ++ lit "s"))).
Proof.
  intros Hn Hl.
  assert (A : forall k, k < 3 ->
            attempt_of P net timeoutMs k
            = inl (Api.ThrowError (lit "Error")
                     (lit "Request timeout after "
                      ++ Api.seconds_text P timeoutMs ++ lit "s"))).
  { intros k Hk. destruct (Hn k Hk) as [m Hm].
    unfold attempt_of. now rewrite Hm. }
  assert (R : forall k, k < 3 -> retryable_at P net timeoutMs k = true).
  { intros k Hk. unfold retryable_at. rewrite (A k Hk).
    cbn [Api.isRetryableError]. rewrite Hl. now rewrite !orb_true_r. }
  destruct (retry_loop_cases P net request timeoutMs)
    as [(F & _)|[(_ & F & _)|(_ & _ & ->)]].
  - rewrite R in F by lia. discriminate.
  - rewrite R in F by lia. discriminate.
  - now rewrite A by lia.
Qed.

Lemma timeouts_are_retried_witness :
  fst (Api.fetchWithRetry test_platform slow_net
         (Api.pull_request test_base (lit "owner/repo") (lit "development")
            (lit "mock-token")) 30000)
  = let F := Api.Fetch (Api.pull_request test_base (lit "owner/repo")
                          (lit "development") (lit "mock-token")) in
    [F; Api.Sleep 1000; F; Api.Sleep 2000; F].
Proof.
  rewrite (timeouts_are_retried test_platform slow_net
             (Api.pull_request test_base (lit "owner/repo")
                (lit "development") (lit "mock-token")) 30000).
  - reflexivity.
  - intros k _. now exists (lit "This operation was aborted").
  - vm_compute. reflexivity.
Defined.

(** X17.  [pullSecrets] returns a content only if the environment name
    matches [ENVIRONMENT_PATTERN] and one of the first three requests was
    answered by a 2xx response with a JSON content type and a non-empty
    body that parses to an object whose [data] is an object whose
    [content] is a string: the content returned. *)
Theorem pullSecrets_returns (P : Api.Platform)
  (net : nat -> Api.FetchOutcome)
  (base repository environment token content : jsstring) :
  snd (Api.pullSecrets P net base repository environment token)
  = inr content ->
  Api.ENVIRONMENT_PATTERN_test environment = true
  /\ exists k r text fields inner,
       k < 3
       /\ net k = Api.Responds r
       /\ Api.ok r = true
       /\ is_json r = true
       /\ Api.body r = inr text
       /\ text <> []
       /\ Api.JSON_parse P text = inr (Api.JObject fields)
       /\ Api.field fields (lit "data") = Some (Api.JObject inner)
       /\ Api.field inner (lit "content") = Some (Api.JString content).
Proof.
  intros H.
  destruct (Api.validateEnvironment environment) as [e|] eqn:E.
  { now rewrite (pullSecrets_invalid _ _ _ _ _ _ e E) in H. }
  split; [now apply validateEnvironment_test|].
  rewrite pullSecrets_valid in H by exact E.
  destruct (snd (Api.fetchWithRetry _ _ _ _)) as [e|r] eqn:F; [discriminate|].
  apply fetchWithRetry_result in F as (k & Hk & Hn).
  destruct (Api.handleResponse P r) as [e|result] eqn:HR; [discriminate|].
  destruct (Api.get (Some result) (lit "data")) as [data|] eqn:D;
    [|discriminate].
  destruct (Api.truthy_value data) eqn:T; cbn [negb] in H; [|discriminate].
  destruct (Api.get data (lit "content")) as [[[]|]|] eqn:C;
    try discriminate.
  injection H as ->.
  destruct data as [d|]; [|discriminate].
  apply get_Some_object in C as (inner & -> & C).
  apply get_Some_object in D as (fields & -> & D).
  apply handleResponse_ok in HR as (text & Hok & Hb & HR).
  exists k, r, text.
  destruct HR as [(_ & HR)|[(Ht & Hj & HR)|(_ & _ & HR)]].
  - injection HR as ->. discriminate.
  - exists fields, inner. repeat split; auto.
  - injection HR as ->. cbn [Api.field] in D.
    destruct (eqb (lit "data") (lit "content")) eqn:Q; discriminate.
Qed.

Lemma pullSecrets_returns_witness :
  Api.ENVIRONMENT_PATTERN_test (lit "staging") = true
  /\ exists k r text fields inner,
       k < 3
       /\ test_net k = Api.Responds r
       /\ Api.ok r = true
       /\ is_json r = true
       /\ Api.body r = inr text
       /\ text <> []
       /\ Api.JSON_parse test_platform text = inr (Api.JObject fields)
       /\ Api.field fields (lit "data") = Some (Api.JObject inner)
       /\ Api.field inner (lit "content")
          = Some (Api.JString (lit "SECRET_KEY=mysecretvalue123")).
Proof.
  apply (pullSecrets_returns test_platform test_net test_base
           (lit "owner/repo") (lit "staging") (lit "mock-token")).
  vm_compute. reflexivity.
Defined.

(** *** The client inside [injectRun] *)

(** X18.  With the client of [utils/api.ts] as its [pullSecrets], a call
    of [injectRun] whose environment name does not match
    [ENVIRONMENT_PATTERN] fails after asking for the token and the
    repository: no request is sent to the vault and the command is not
    spawned. *)
Theorem injectRun_rejects_environment (w : World) (a : Args)
  (P : Api.Platform) (net : nat -> Api.FetchOutcome)
  (base token repository : jsstring) :
  uses_api w P net base ->
  trim (command a) <> [] ->
  getToken w = inr token ->
  getRepository w = inr repository ->
  Api.ENVIRONMENT_PATTERN_test (environment_of a) = false ->
  fst (Api.pullSecrets P net base repository (environment_of a) token) = []
  /\ calls_of w a
     = [GetToken; GetRepository;
        PullSecrets repository (environment_of a) token]
  /\ exists m, completion_of w a = Throw (Propagated m).
Proof.
  intros Hw Hc Ht Hr He.
  destruct (Api.validateEnvironment (environment_of a)) as [e|] eqn:E.
  2: { apply validateEnvironment_test in E. congruence. }
  specialize (Hw repository (environment_of a) token).
  rewrite (pullSecrets_invalid P net base repository _ token e E) in *.
  cbn [fst snd] in *. destruct Hw as [m Hm].
  split; [reflexivity|].
  unfold calls_of, completion_of, injectRun.
  rewrite validation_passes by assumption.
  unfold bind, call. rewrite Ht, Hr. simpl settle. cbv iota beta.
  rewrite Hm. simpl settle. cbv iota beta. cbn [fst snd app].
  split; [reflexivity|]. now exists m.
Qed.

Lemma injectRun_rejects_environment_witness :
  calls_of api_world
    {| command := lit "echo"; args := None;
       environment := Some (lit "my env"); timeout := None |}
  = [GetToken; GetRepository;
     PullSecrets (lit "owner/repo") (lit "my env") (lit "mock-token")].
Proof.
  apply (injectRun_rejects_environment api_world
           {| command := lit "echo"; args := None;
              environment := Some (lit "my env"); timeout := None |}
           test_platform test_net test_base
           (lit "mock-token") (lit "owner/repo")).
  - intros repository environment token. cbn [pullSecrets api_world].
    destruct (snd (Api.pullSecrets test_platform test_net test_base
                     repository environment token)); eauto.
  - discriminate.
  - reflexivity.
  - reflexivity.
  - reflexivity.
Defined.
